(** * Paging simulator: the memory manager of [app.py]

    A shallow embedding of the class [MemoryManager] (frame pool, page
    table, process table, FIFO allocation queue, statistics and event log)
    and of its operations, followed by the properties of the specification
    that were checked against it.

    Conventions of the embedding.
    - Python integers are [Z]; indices into [self.memory] are [nat].
    - The sentinel [-1] returned by the three [find_*] methods is [None].
    - Python dictionaries keep insertion order and the code iterates over
      them, so they are association lists in insertion order.
    - [time.time()] is an external clock.  Every operation receives the
      readings the clock gives during that call as a function [now]:
      [now k] is the value of the [k]-th call of [time.time()] made by the
      operation.  Only the order of timestamps is ever used, so a
      timestamp is a [Z].
    - [random.randint(2, 4)] in [create_process] is an external draw; the
      drawn value is an argument of the operation.
    - A Python exception leaves the mutations made before it in place: an
      operation returns an [Outcome] together with the state it left. *)

From Stdlib Require Import String Ascii DecimalString DecimalZ.
From Stdlib Require Import ZArith List Bool Arith Lia Permutation Sorted.
Import ListNotations.

Open Scope string_scope.
Open Scope Z_scope.

(** ** Python primitives used by the code *)

(** [str(n)] for an integer. *)
Definition str (n : Z) : string := NilZero.string_of_int (Z.to_int n).

(** [int(s)] on the strings that key parts can be: an optional minus sign
    followed by decimal digits.  Anything else (in particular the empty
    string) is a [ValueError], modelled by [None]. *)
Definition py_int (s : string) : option Z :=
  option_map Z.of_int (NilZero.int_of_string s).

(** [s.split(c)] for a one-character separator. *)
Fixpoint split (c : ascii) (s : string) : list string :=
  match s with
  | EmptyString => [EmptyString]
  | String a rest =>
      if Ascii.eqb a c then EmptyString :: split c rest
      else match split c rest with
           | [] => [String a EmptyString]
           | p :: ps => String a p :: ps
           end
  end.

(** [s[1:]]. *)
Definition drop_first (s : string) : string :=
  match s with
  | EmptyString => EmptyString
  | String _ rest => rest
  end.

(** [l[i] = x]; [None] stands for the [IndexError] of an index out of range. *)
Fixpoint list_set {A : Type} (i : nat) (x : A) (l : list A) : option (list A) :=
  match l, i with
  | [], _ => None
  | _ :: tl, O => Some (x :: tl)
  | hd :: tl, S j => option_map (cons hd) (list_set j x tl)
  end.

(** [x in q] and [q.remove(x)] of a deque: the first occurrence is removed,
    [None] stands for the [ValueError] of an absent element. *)
Definition queue_mem (x : nat) (q : list nat) : bool := existsb (Nat.eqb x) q.

Fixpoint queue_remove (x : nat) (q : list nat) : option (list nat) :=
  match q with
  | [] => None
  | y :: tl => if Nat.eqb y x then Some tl
               else option_map (cons y) (queue_remove x tl)
  end.

(** Insertion-ordered dictionaries. *)
Section Dict.
Context {K V : Type}.
Variable eqb : K -> K -> bool.

Fixpoint dict_get (k : K) (d : list (K * V)) : option V :=
  match d with
  | [] => None
  | (k', v) :: tl => if eqb k' k then Some v else dict_get k tl
  end.

Definition dict_mem (k : K) (d : list (K * V)) : bool :=
  match dict_get k d with Some _ => true | None => false end.

(** [d[k] = v]: an existing key keeps its position, a new one goes last. *)
Fixpoint dict_set (k : K) (v : V) (d : list (K * V)) : list (K * V) :=
  match d with
  | [] => [(k, v)]
  | (k', v') :: tl =>
      if eqb k' k then (k', v) :: tl else (k', v') :: dict_set k v tl
  end.

(** [del d[k]]. *)
Fixpoint dict_del (k : K) (d : list (K * V)) : list (K * V) :=
  match d with
  | [] => []
  | (k', v') :: tl => if eqb k' k then tl else (k', v') :: dict_del k tl
  end.
End Dict.

(** ** Data model *)

Definition time := Z.

(** A page descriptor inside a process: [{'page_num': i, 'frame_num': None}]. *)
Record Page := mkPage {
  pg_page_num : Z;
  pg_frame_num : option nat
}.

(** A process descriptor. *)
Record Process := mkProcess {
  pid : Z;
  size : Z;
  pages : list Page;
  color : string
}.

(** The content of an occupied frame. *)
Record Frame := mkFrame {
  fr_pid : Z;
  fr_page_num : Z;
  fr_color : string
}.

(** A page table entry.  The code tests [frame_num is not None] on a hit,
    but the only place that creates an entry stores a frame index, so the
    field is a [nat]. *)
Record PageEntry := mkEntry {
  frame_num : nat;
  alloc_time : time;
  last_used : time
}.

Record Stats := mkStats {
  page_faults : Z;
  page_hits : Z
}.

Record LogEntry := mkLog {
  timestamp : time;
  message : string
}.

Record MemoryManager := mkManager {
  memory_size : nat;
  memory : list (option Frame);
  page_table : list (string * PageEntry);
  processes : list (Z * Process);
  process_counter : Z;
  allocation_queue : list nat;
  stats : Stats;
  logs : list LogEntry
}.

(** The dictionaries returned to the caller. *)
Record Response := mkResponse {
  success : bool;
  hit : option bool;
  error : option string
}.

Inductive exn := ValueError | IndexError | KeyError.

Inductive Outcome (A : Type) :=
| Returned (a : A)
| Raised (e : exn).
Arguments Returned {A} a.
Arguments Raised {A} e.

(** Field updates. *)
Definition with_memory (x : list (option Frame)) (m : MemoryManager) :=
  mkManager (memory_size m) x (page_table m) (processes m)
            (process_counter m) (allocation_queue m) (stats m) (logs m).
Definition with_page_table (x : list (string * PageEntry)) (m : MemoryManager) :=
  mkManager (memory_size m) (memory m) x (processes m)
            (process_counter m) (allocation_queue m) (stats m) (logs m).
Definition with_processes (x : list (Z * Process)) (m : MemoryManager) :=
  mkManager (memory_size m) (memory m) (page_table m) x
            (process_counter m) (allocation_queue m) (stats m) (logs m).
Definition with_process_counter (x : Z) (m : MemoryManager) :=
  mkManager (memory_size m) (memory m) (page_table m) (processes m)
            x (allocation_queue m) (stats m) (logs m).
Definition with_allocation_queue (x : list nat) (m : MemoryManager) :=
  mkManager (memory_size m) (memory m) (page_table m) (processes m)
            (process_counter m) x (stats m) (logs m).
Definition with_stats (x : Stats) (m : MemoryManager) :=
  mkManager (memory_size m) (memory m) (page_table m) (processes m)
            (process_counter m) (allocation_queue m) x (logs m).
Definition with_logs (x : list LogEntry) (m : MemoryManager) :=
  mkManager (memory_size m) (memory m) (page_table m) (processes m)
            (process_counter m) (allocation_queue m) (stats m) x.

(** ** Operations *)

(** [__init__(memory_size)]. *)
Definition init (n : nat) : MemoryManager :=
  mkManager n (repeat None n) [] [] 1 [] (mkStats 0 0) [].

(** [add_log]: append, and drop the oldest entry beyond 50. *)
Definition add_log (t : time) (msg : string) (m : MemoryManager) : MemoryManager :=
  let l := (logs m ++ [mkLog t msg])%list in
  with_logs (if Nat.ltb 50 (length l) then tl l else l) m.

(** The list comprehension building the page descriptors. *)
Definition fresh_pages (sz : Z) : list Page :=
  map (fun i => mkPage (Z.of_nat i) None) (seq 0 (Z.to_nat sz)).

(** [create_process]; [sz] is the value drawn by [random.randint(2, 4)]. *)
Definition create_process (now : nat -> time) (sz : Z) (m : MemoryManager)
  : Process * MemoryManager :=
  let p := process_counter m in
  let c := "hsl(" ++ str ((p * 137) mod 360) ++ ", 70%, 60%)" in
  let process := mkProcess p sz (fresh_pages sz) c in
  let m1 := with_processes (dict_set Z.eqb p process (processes m)) m in
  let m2 := with_process_counter (process_counter m1 + 1) m1 in
  let m3 := add_log (now 0%nat)
              ("Process P" ++ str p ++ " created (" ++ str sz ++ " pages)") m2 in
  (process, m3).

(** [find_free_frame]: the first empty slot. *)
Fixpoint first_free (i : nat) (mem : list (option Frame)) : option nat :=
  match mem with
  | [] => None
  | None :: _ => Some i
  | Some _ :: tl => first_free (S i) tl
  end.

Definition find_free_frame (m : MemoryManager) : option nat :=
  first_free 0 (memory m).

(** [find_victim_fifo]: the head of the allocation queue. *)
Definition find_victim_fifo (m : MemoryManager) : option nat :=
  match allocation_queue m with
  | [] => None
  | f :: _ => Some f
  end.

(** [find_victim_lru]: one pass over the page table, keeping the first
    entry whose [last_used] is strictly below the best so far.  The initial
    [float('inf')] is [None]. *)
Definition older (t : time) (oldest_time : option time) : bool :=
  match oldest_time with
  | None => true
  | Some o => t <? o
  end.

Fixpoint lru_scan (items : list (string * PageEntry))
         (oldest_time : option time) (victim_frame : option nat) : option nat :=
  match items with
  | [] => victim_frame
  | (_, value) :: tl =>
      if older (last_used value) oldest_time
      then lru_scan tl (Some (last_used value)) (Some (frame_num value))
      else lru_scan tl oldest_time victim_frame
  end.

Definition find_victim_lru (m : MemoryManager) : option nat :=
  lru_scan (page_table m) None None.

(** The key of a page in the page table: [f"P{pid}-{page_num}"]. *)
Definition page_key (p n : Z) : string := "P" ++ str p ++ "-" ++ str n.

Definition is_fifo (algorithm : string) : bool := String.eqb algorithm "fifo".

Definition ok_hit : Response := mkResponse true (Some true) None.
Definition ok_fault : Response := mkResponse true (Some false) None.
Definition ok_plain : Response := mkResponse true None None.
Definition failure (msg : string) : Response := mkResponse false None (Some msg).

(** The loop that looks for the key of the victim frame. *)
Fixpoint find_victim_key (f : nat) (items : list (string * PageEntry)) : option string :=
  match items with
  | [] => None
  | (k, v) :: tl => if Nat.eqb (frame_num v) f then Some k else find_victim_key f tl
  end.

(** "Find and evict victim".  The result is the number of clock readings
    that were consumed (one for the log line of an eviction). *)
Definition evict (now : nat -> time) (f : nat) (algorithm : string)
           (m : MemoryManager) : Outcome nat * MemoryManager :=
  match find_victim_key f (page_table m) with
  | None => (Returned 0%nat, m)
  | Some EmptyString => (Returned 0%nat, m)
  | Some victim_key =>
      let victim_parts := split "-" victim_key in
      match py_int (drop_first (hd EmptyString victim_parts)) with
      | None => (Raised ValueError, m)
      | Some victim_pid =>
          match nth_error victim_parts 1 with
          | None => (Raised IndexError, m)
          | Some part1 =>
              match py_int part1 with
              | None => (Raised ValueError, m)
              | Some victim_page =>
                  let m1 := add_log (now 0%nat)
                              ("Page fault: Evicting P" ++ str victim_pid
                                 ++ " page " ++ str victim_page) m in
                  let removed :=
                    if is_fifo algorithm
                    then queue_remove f (allocation_queue m1)
                    else Some (allocation_queue m1) in
                  match removed with
                  | None => (Raised ValueError, m1)
                  | Some q =>
                      let m2 := with_allocation_queue q m1 in
                      (Returned 1%nat,
                       with_page_table
                         (dict_del String.eqb victim_key (page_table m2)) m2)
                  end
              end
          end
      end
  end.

(** "Allocate new page" into frame [f]; [k] is the index of the next clock
    reading. *)
Definition place (now : nat -> time) (k : nat) (p n : Z) (algorithm : string)
           (f : nat) (m : MemoryManager) : Outcome Response * MemoryManager :=
  match dict_get Z.eqb p (processes m) with
  | None => (Raised KeyError, m)
  | Some process =>
      match list_set f (Some (mkFrame p n (color process))) (memory m) with
      | None => (Raised IndexError, m)
      | Some mem =>
          let m1 := with_memory mem m in
          let current_time := now k in
          let m2 := with_page_table
                      (dict_set String.eqb (page_key p n)
                                (mkEntry f current_time current_time)
                                (page_table m1)) m1 in
          let m3 := if is_fifo algorithm
                    then with_allocation_queue (allocation_queue m2 ++ [f])%list m2
                    else m2 in
          (Returned ok_fault,
           add_log (now (S k))
                   ("Allocated P" ++ str p ++ " page " ++ str n
                      ++ " to frame " ++ str (Z.of_nat f)) m3)
      end
  end.

(** [self.stats['page_hits'] += 1] and [self.stats['page_faults'] += 1]. *)
Definition count_hit (m : MemoryManager) : MemoryManager :=
  with_stats (mkStats (page_faults (stats m)) (page_hits (stats m) + 1)) m.
Definition count_fault (m : MemoryManager) : MemoryManager :=
  with_stats (mkStats (page_faults (stats m) + 1) (page_hits (stats m))) m.

(** [allocate_page(pid, page_num, algorithm)]. *)
Definition allocate_page (now : nat -> time) (p n : Z) (algorithm : string)
           (m : MemoryManager) : Outcome Response * MemoryManager :=
  if negb (dict_mem Z.eqb p (processes m))
  then (Returned (failure "Process not found"), m)
  else
    let key := page_key p n in
    match dict_get String.eqb key (page_table m) with
    | Some entry =>
        let m1 := count_hit m in
        let entry' := mkEntry (frame_num entry) (alloc_time entry) (now 0%nat) in
        let m2 := with_page_table
                    (dict_set String.eqb key entry' (page_table m1)) m1 in
        (Returned ok_hit,
         add_log (now 1%nat)
                 ("Page hit: P" ++ str p ++ " page " ++ str n) m2)
    | None =>
        let m1 := count_fault m in
        match find_free_frame m1 with
        | Some f => place now 0 p n algorithm f m1
        | None =>
            let victim := if is_fifo algorithm
                          then find_victim_fifo m1
                          else find_victim_lru m1 in
            match victim with
            | None => (Returned (failure "No frames available"), m1)
            | Some f =>
                match evict now f algorithm m1 with
                | (Raised e, m2) => (Raised e, m2)
                | (Returned k, m2) => place now k p n algorithm f m2
                end
            end
        end
    end.

(** The loop of [remove_process] over the frame indices. *)
Definition free_frame_step (p : Z) (st : list (option Frame) * list nat) (i : nat)
  : list (option Frame) * list nat :=
  let (mem, q) := st in
  match nth_error mem i with
  | Some (Some fr) =>
      if fr_pid fr =? p
      then
        let q' := if queue_mem i q
                  then match queue_remove i q with Some r => r | None => q end
                  else q in
        (match list_set i None mem with Some mem' => mem' | None => mem end, q')
      else st
  | _ => st
  end.

Definition free_frames (p : Z) (mem : list (option Frame)) (q : list nat)
  : list (option Frame) * list nat :=
  fold_left (free_frame_step p) (seq 0 (length mem)) (mem, q).

(** [remove_process(pid)]. *)
Definition remove_process (now : nat -> time) (p : Z) (m : MemoryManager)
  : Outcome Response * MemoryManager :=
  if negb (dict_mem Z.eqb p (processes m))
  then (Returned (failure "Process not found"), m)
  else
    let (mem, q) := free_frames p (memory m) (allocation_queue m) in
    let m1 := with_allocation_queue q (with_memory mem m) in
    let keys_to_remove :=
      filter (String.prefix ("P" ++ str p ++ "-")) (map fst (page_table m1)) in
    let m2 := with_page_table
                (fold_left (fun d k => dict_del String.eqb k d)
                           keys_to_remove (page_table m1)) m1 in
    let m3 := with_processes (dict_del Z.eqb p (processes m2)) m2 in
    (Returned ok_plain,
     add_log (now 0%nat) ("Process P" ++ str p ++ " terminated") m3).

(** [get_state]: the snapshot handed to the caller. *)
Record Snapshot := mkSnapshot {
  snap_memory : list (option Frame);
  snap_processes : list Process;
  snap_stats : Stats;
  snap_logs : list LogEntry
}.

Definition get_state (m : MemoryManager) : Snapshot :=
  mkSnapshot (memory m) (map snd (processes m)) (stats m)
             (skipn (length (logs m) - 10) (logs m)).

(** [reset]: runs [__init__] again with the stored frame count. *)
Definition reset (m : MemoryManager) : MemoryManager := init (memory_size m).

(** The two policies as the callers name them; every algorithm other than
    ["fifo"] runs the LRU branch. *)
Definition FIFO : string := "fifo".
Definition LRU : string := "lru".

(** The empty state in the words of the specification of [reset]: no
    processes, every frame empty, no residency entries, an empty queue, zero
    statistics and an empty log, for the configured frame count; process
    identifiers start at 1. *)
Definition empty_manager (frame_count : nat) : MemoryManager :=
  {| memory_size := frame_count;
     memory := repeat None frame_count;
     page_table := [];
     processes := [];
     process_counter := 1;
     allocation_queue := [];
     stats := {| page_faults := 0; page_hits := 0 |};
     logs := [] |}.

(** Strings without the separator of the keys. *)
Fixpoint dashfree (s : string) : bool :=
  match s with
  | EmptyString => true
  | String a rest => negb (Ascii.eqb a "-") && dashfree rest
  end.

(** Frame [f] holds a page. *)
Definition occupied_at (mem : list (option Frame)) (f : nat) : bool :=
  match nth_error mem f with
  | Some (Some _) => true
  | _ => false
  end.

(** The indices of the occupied frames and their number. *)
Definition occupied_frames (mem : list (option Frame)) : list nat :=
  filter (occupied_at mem) (seq 0 (length mem)).

Definition count_occupied (mem : list (option Frame)) : nat :=
  length (filter (fun x => match x with Some _ => true | None => false end) mem).

(** The resident pages read off the frames, as pairs (frame index, key),
    and the same pairs read off the page table. *)
Fixpoint resident_from (i : nat) (mem : list (option Frame)) : list (nat * string) :=
  match mem with
  | [] => []
  | None :: tl => resident_from (S i) tl
  | Some fr :: tl =>
      (i, page_key (fr_pid fr) (fr_page_num fr)) :: resident_from (S i) tl
  end.

Definition table_view (pt : list (string * PageEntry)) : list (nat * string) :=
  map (fun kv => (frame_num (snd kv), fst kv)) pt.

(** The consistency that every call maintains: keys are unique, the page
    table and the frames describe the same resident pages, frames belong to
    existing processes, process identifiers are positive, and the queue
    lists occupied frames without repetition. *)
Record consistent (m : MemoryManager) : Prop := {
  c_keys : NoDup (map fst (page_table m));
  c_table : Permutation (table_view (page_table m))
                        (resident_from 0 (memory m));
  c_owner : forall f fr, nth_error (memory m) f = Some (Some fr) ->
                         dict_mem Z.eqb (fr_pid fr) (processes m) = true;
  c_pids : forall p pr, In (p, pr) (processes m) -> 0 < p;
  c_counter : 0 < process_counter m;
  c_queue : NoDup (allocation_queue m);
  c_queue_occ : forall f, In f (allocation_queue m) ->
                          occupied_at (memory m) f = true;
  c_procs : NoDup (map fst (processes m))
}.

(** What [remove_process] does to one frame, and the ownership test. *)
Definition owned_by (p : Z) (x : option Frame) : bool :=
  match x with
  | Some fr => fr_pid fr =? p
  | None => false
  end.

Definition clear_owned (p : Z) (x : option Frame) : option Frame :=
  if owned_by p x then None else x.

Definition owned_at (p : Z) (mem : list (option Frame)) (i : nat) : bool :=
  match nth_error mem i with
  | Some x => owned_by p x
  | None => false
  end.

(** The test of [remove_process] on the keys of the page table. *)
Definition key_of (p : Z) (k : string) : bool :=
  String.prefix ("P" ++ str p ++ "-") k.

(** A descriptor whose pages all carry [frame_num = None]. *)
Definition pages_unmapped (pr : Process) : Prop :=
  Forall (fun pg => pg_frame_num pg = None) (pages pr).

Close Scope string_scope.

(** ** Runs of operations *)

Inductive Op :=
| CreateProcess (sz : Z)
| AccessPage (p n : Z) (algorithm : string)
| RemoveProcess (p : Z)
| Reset.

(** One call of the interface: the operation and the clock readings made
    while it runs. *)
Definition Call : Type := (nat -> time) * Op.

(** What a call answers and the state it leaves.  [create_process] and
    [reset] cannot fail; of their answers only the success flag is kept. *)
Definition perform (c : Call) (m : MemoryManager)
  : Outcome Response * MemoryManager :=
  let (now, o) := c in
  match o with
  | CreateProcess sz => (Returned ok_plain, snd (create_process now sz m))
  | AccessPage p n algorithm => allocate_page now p n algorithm m
  | RemoveProcess p => remove_process now p m
  | Reset => (Returned ok_plain, reset m)
  end.

Definition step (m : MemoryManager) (c : Call) : MemoryManager :=
  snd (perform c m).

Definition run (cs : list Call) (m : MemoryManager) : MemoryManager :=
  fold_left step cs m.

(** The states a manager with [n] frames can be in. *)
Definition reachable (n : nat) (m : MemoryManager) : Prop :=
  exists cs, m = run cs (init n).

(** A request for a page: the clock readings of the call and the pair
    (pid, page_num); and the calls that access a list of pages in turn
    under one policy. *)
Definition Request : Type := (nat -> time) * (Z * Z).

Definition request_key (x : Request) : string :=
  page_key (fst (snd x)) (snd (snd x)).

Definition access (algorithm : string) (x : Request) : Call :=
  (fst x, AccessPage (fst (snd x)) (snd (snd x)) algorithm).

Definition accesses (algorithm : string) (l : list Request) : list Call :=
  map (access algorithm) l.

(** The process of a request exists in [m]. *)
Definition known (m : MemoryManager) (x : Request) : Prop :=
  dict_mem Z.eqb (fst (snd x)) (processes m) = true.

(** The state once the pages [done] have been faulted in, in that order,
    from the state [m0] with free frames only: the page table lists them
    in order with the stamps of their allocation, and under FIFO the queue
    lists their frames in the same order. *)
Record loaded (algorithm : string) (m0 : MemoryManager) (done : list Request)
       (m : MemoryManager) : Prop := {
  l_keys : map fst (page_table m) = map request_key done;
  l_stamps : map (fun kv => last_used (snd kv)) (page_table m)
             = map (fun x => fst x 0%nat) done;
  l_queue : is_fifo algorithm = true ->
            allocation_queue m
            = map (fun kv => frame_num (snd kv)) (page_table m);
  l_procs : processes m = processes m0;
  l_faults : page_faults (stats m)
             = page_faults (stats m0) + Z.of_nat (length done);
  l_hits : page_hits (stats m) = page_hits (stats m0)
}.

(** Every occupied frame is in the queue. *)
Definition queue_complete (m : MemoryManager) : Prop :=
  forall f, occupied_at (memory m) f = true -> In f (allocation_queue m).

(** Calls whose accesses all use the FIFO policy. *)
Definition fifo_call (c : Call) : Prop :=
  match snd c with
  | AccessPage _ _ algorithm => is_fifo algorithm = true
  | _ => True
  end.

(** ** Definitions for the further properties *)

(** The route [simulate_access]: with no process it answers an error;
    otherwise [random.choice] draws a pid among the keys of the process
    table and [random.randint(0, size - 1)] a page of that process, and the
    page is accessed.  The two draws are the arguments [choice] (an index
    into the list of keys) and [page]; the generators only return
    [choice < len(keys)] and [0 <= page <= size - 1], and [randint] raises
    [ValueError] on an empty range. *)
Definition simulate_access (now : nat -> time) (choice : nat) (page : Z)
           (algorithm : string) (m : MemoryManager)
  : Outcome Response * MemoryManager :=
  match processes m with
  | [] => (Returned (failure "No processes running"), m)
  | _ :: _ =>
      match nth_error (map fst (processes m)) choice with
      | None => (Raised IndexError, m)
      | Some p =>
          match dict_get Z.eqb p (processes m) with
          | None => (Raised KeyError, m)
          | Some process =>
              if size process - 1 <? 0 then (Raised ValueError, m)
              else allocate_page now p page algorithm m
          end
      end
  end.

(** The identifier the next [create_process] hands out after the calls
    [cs] on a fresh manager: creations count from the last [reset]. *)
Definition next_pid (cs : list Call) : Z :=
  fold_left (fun k c => match snd c with
                        | CreateProcess _ => k + 1
                        | Reset => 1
                        | _ => k
                        end) cs 1.

(** The descriptor [create_process] builds for the identifier [p]. *)
Definition built (p : Z) (pr : Process) : Prop :=
  pid pr = p
  /\ pages pr = fresh_pages (size pr)
  /\ color pr = ("hsl(" ++ str ((p * 137) mod 360) ++ ", 70%, 60%)")%string.

(** Identifiers in use lie between 1 and the counter. *)
Definition pids_bounded (m : MemoryManager) : Prop :=
  forall p pr, In (p, pr) (processes m) -> 1 <= p < process_counter m.

(** Calls whose accesses name pages with a non-negative number, and states
    whose resident pages all have one. *)
Definition nonneg_call (c : Call) : Prop :=
  match snd c with
  | AccessPage _ g _ => 0 <= g
  | _ => True
  end.

Definition pages_nonneg (m : MemoryManager) : Prop :=
  forall f fr, nth_error (memory m) f = Some (Some fr) -> 0 <= fr_page_num fr.

(** A clock that never runs backwards from one call to the next: every
    reading made during a call is at most every reading made during a
    later call. *)
Definition before (c1 c2 : Call) : Prop :=
  forall a b, fst c1 a <= fst c2 b.

Fixpoint clock_ordered (cs : list Call) : Prop :=
  match cs with
  | [] => True
  | c :: rest => Forall (before c) rest /\ clock_ordered rest
  end.

(** Calls none of whose accesses uses the FIFO policy. *)
Definition lru_call (c : Call) : Prop :=
  match snd c with
  | AccessPage _ _ algorithm => is_fifo algorithm = false
  | _ => True
  end.

(** Under FIFO alone the queue lists the frames of the page table, oldest
    entry first. *)
Definition fifo_order (m : MemoryManager) : Prop :=
  allocation_queue m = map (fun kv => frame_num (snd kv)) (page_table m).

Definition tick (t : time) : nat -> time := fun k => t + Z.of_nat k.

Example scenario :
  let m := run [(tick 10, CreateProcess 2);
                (tick 20, AccessPage 1 0 FIFO);
                (tick 30, AccessPage 1 1 FIFO);
                (tick 40, AccessPage 1 0 FIFO);
                (tick 50, CreateProcess 2);
                (tick 60, AccessPage 2 0 FIFO)] (init 2) in
  map (option_map (fun fr => (fr_pid fr, fr_page_num fr))) (memory m)
    = [Some (2, 0); Some (1, 1)]
  /\ stats m = mkStats 3 1
  /\ map fst (page_table m) = ["P1-1"; "P2-0"]%string
  /\ allocation_queue m = [1%nat; 0%nat].
Proof. vm_compute. repeat split. Qed.

(** * Properties *)

(** ** Runs and reachable states *)

Lemma run_app cs1 cs2 m : run (cs1 ++ cs2) m = run cs2 (run cs1 m).
Proof. apply fold_left_app. Qed.

Lemma run_snoc cs c m : run (cs ++ [c]) m = step (run cs m) c.
Proof. now rewrite run_app. Qed.

Lemma reachable_init n : reachable n (init n).
Proof. now exists []. Qed.

Lemma reachable_step n m c : reachable n m -> reachable n (step m c).
Proof.
  intros [cs ->]. exists (cs ++ [c]). now rewrite run_snoc.
Qed.

(** Induction over the calls that led to a state. *)
Lemma reachable_induction (n : nat) (P : MemoryManager -> Prop) :
  P (init n) ->
  (forall m c, reachable n m -> P m -> P (step m c)) ->
  forall m, reachable n m -> P m.
Proof.
  intros H0 Hs m [cs ->].
  induction cs as [|c cs IH] using rev_ind; [exact H0|].
  rewrite run_snoc. apply Hs; [now exists cs | exact IH].
Qed.

(** ** Dictionaries *)

Section DictFacts.
Context {K V : Type}.
Variable eqb : K -> K -> bool.
Hypothesis eqb_eq : forall a b, eqb a b = true <-> a = b.

Lemma eqb_refl' a : eqb a a = true.
Proof. now apply eqb_eq. Qed.

Lemma eqb_neq a b : a <> b -> eqb a b = false.
Proof.
  intros H. destruct (eqb a b) eqn:E; [|reflexivity].
  apply eqb_eq in E. contradiction.
Qed.

Lemma dict_get_set_same k (v : V) d : dict_get eqb k (dict_set eqb k v d) = Some v.
Proof.
  induction d as [|[k' v'] d IH]; simpl.
  - now rewrite eqb_refl'.
  - destruct (eqb k' k) eqn:E; simpl; rewrite E; auto.
Qed.

Lemma dict_get_set_other k k' (v : V) d :
  k' <> k -> dict_get eqb k' (dict_set eqb k v d) = dict_get eqb k' d.
Proof.
  intros Hne. induction d as [|[k0 v0] d IH]; simpl.
  - rewrite eqb_neq; auto.
  - destruct (eqb k0 k) eqn:E; simpl.
    + apply eqb_eq in E. subst k0. rewrite eqb_neq; auto.
    + now rewrite IH.
Qed.

Lemma dict_get_In k (v : V) d : dict_get eqb k d = Some v -> In (k, v) d.
Proof.
  induction d as [|[k0 v0] d IH]; simpl; [discriminate|].
  destruct (eqb k0 k) eqn:E.
  - apply eqb_eq in E. intros [= ->]. subst. now left.
  - auto.
Qed.

Lemma dict_get_None k (d : list (K * V)) :
  dict_get eqb k d = None <-> ~ In k (map fst d).
Proof.
  induction d as [|[k0 v0] d IH]; simpl; [tauto|].
  destruct (eqb k0 k) eqn:E.
  - apply eqb_eq in E. split; [discriminate | tauto].
  - rewrite IH. split; [|tauto]. intros H [H1|H1]; [|tauto].
    subst. rewrite eqb_refl' in E. discriminate.
Qed.

Lemma dict_get_Some_key k (v : V) d :
  dict_get eqb k d = Some v -> In k (map fst d).
Proof. intros H. apply dict_get_In in H. now apply (in_map fst) in H. Qed.

Lemma NoDup_dict_get k (v : V) d :
  NoDup (map fst d) -> In (k, v) d -> dict_get eqb k d = Some v.
Proof.
  induction d as [|[k0 v0] d IH]; simpl; [tauto|].
  intros Hnd [H|H]; inversion Hnd; subst.
  - inversion H; subst. now rewrite eqb_refl'.
  - destruct (eqb k0 k) eqn:E; auto.
    apply eqb_eq in E. subst. apply (in_map fst) in H. contradiction.
Qed.

Lemma dict_set_absent k (v : V) d :
  dict_get eqb k d = None -> dict_set eqb k v d = d ++ [(k, v)].
Proof.
  induction d as [|[k0 v0] d IH]; simpl; [reflexivity|].
  destruct (eqb k0 k); [discriminate|]. intros H. now rewrite IH.
Qed.

Lemma dict_set_keys k (v v0 : V) d :
  dict_get eqb k d = Some v0 -> map fst (dict_set eqb k v d) = map fst d.
Proof.
  induction d as [|[k1 v1] d IH]; simpl; [discriminate|].
  destruct (eqb k1 k); simpl; [reflexivity|]. intros H. now rewrite IH.
Qed.

Lemma dict_set_In k (v : V) d x :
  In x (dict_set eqb k v d) -> x = (k, v) \/ In x d.
Proof.
  induction d as [|[k1 v1] d IH]; simpl.
  - intros [H|[]]. now left.
  - destruct (eqb k1 k) eqn:E; simpl.
    + apply eqb_eq in E. subst. intros [H|H]; auto.
    + intros [H|H]; auto. apply IH in H. tauto.
Qed.

Lemma dict_del_In k (d : list (K * V)) x : In x (dict_del eqb k d) -> In x d.
Proof.
  induction d as [|[k1 v1] d IH]; simpl; [tauto|].
  destruct (eqb k1 k); simpl; [tauto|]. intros [H|H]; auto.
Qed.

Lemma dict_del_absent k (d : list (K * V)) :
  ~ In k (map fst d) -> dict_del eqb k d = d.
Proof.
  induction d as [|[k1 v1] d IH]; simpl; [reflexivity|].
  intros H. destruct (eqb k1 k) eqn:E.
  - apply eqb_eq in E. exfalso. apply H. now left.
  - rewrite IH; [reflexivity|]. intros H1. apply H. now right.
Qed.

Lemma dict_del_filter k (d : list (K * V)) :
  NoDup (map fst d) ->
  dict_del eqb k d = filter (fun kv => negb (eqb (fst kv) k)) d.
Proof.
  induction d as [|[k1 v1] d IH]; simpl; [reflexivity|].
  intros Hnd. inversion Hnd; subst.
  destruct (eqb k1 k) eqn:E; simpl.
  - apply eqb_eq in E. subst.
    symmetry. apply forallb_filter_id. apply forallb_forall.
    intros [k2 v2] Hin. simpl. rewrite eqb_neq; [reflexivity|].
    intros ->. apply (in_map fst) in Hin. contradiction.
  - now rewrite IH.
Qed.

Lemma dict_del_keys_In k (d : list (K * V)) x :
  In x (map fst (dict_del eqb k d)) -> In x (map fst d).
Proof.
  intros H. apply in_map_iff in H. destruct H as [[k1 v1] [<- H]].
  apply dict_del_In in H. now apply (in_map fst) in H.
Qed.

Lemma dict_del_NoDup k (d : list (K * V)) :
  NoDup (map fst d) -> NoDup (map fst (dict_del eqb k d)).
Proof.
  induction d as [|[k1 v1] d IH]; simpl; [auto|].
  intros Hnd. inversion Hnd; subst.
  destruct (eqb k1 k); [assumption|]. simpl. constructor; auto.
  intros Hin. apply dict_del_keys_In in Hin. contradiction.
Qed.

Lemma dict_get_del_same k (d : list (K * V)) :
  NoDup (map fst d) -> dict_get eqb k (dict_del eqb k d) = None.
Proof.
  intros Hnd. apply dict_get_None. rewrite dict_del_filter by assumption.
  intros Hin. apply in_map_iff in Hin. destruct Hin as [[k1 v1] [<- Hin]].
  apply filter_In in Hin. destruct Hin as [_ Hin]. simpl in Hin.
  now rewrite eqb_refl' in Hin.
Qed.

Lemma dict_set_NoDup k (v : V) d :
  NoDup (map fst d) -> NoDup (map fst (dict_set eqb k v d)).
Proof.
  induction d as [|[k1 v1] d IH]; simpl.
  - intros _. constructor; [tauto | constructor].
  - intros Hnd. inversion Hnd; subst.
    destruct (eqb k1 k) eqn:E; simpl; [assumption|].
    constructor; auto. intros Hin. apply in_map_iff in Hin.
    destruct Hin as [[k2 v2] [Hk Hin]]. simpl in Hk. subst k2.
    apply dict_set_In in Hin. destruct Hin as [[= Hk _]|Hin].
    + subst. rewrite eqb_refl' in E. discriminate.
    + apply (in_map fst) in Hin. contradiction.
Qed.

Lemma dict_get_del_other k k' (d : list (K * V)) :
  k' <> k -> dict_get eqb k' (dict_del eqb k d) = dict_get eqb k' d.
Proof.
  intros Hne. induction d as [|[k1 v1] d IH]; simpl; [reflexivity|].
  destruct (eqb k1 k) eqn:E; simpl.
  - apply eqb_eq in E. subst. rewrite eqb_neq; auto.
  - now rewrite IH.
Qed.
End DictFacts.

Lemma Zeqb_eq a b : Z.eqb a b = true <-> a = b.
Proof. apply Z.eqb_eq. Qed.

Lemma Seqb_eq a b : String.eqb a b = true <-> a = b.
Proof. apply String.eqb_eq. Qed.

(** ** What each step of an access touches *)

Lemma evict_processes now f alg m r m' :
  evict now f alg m = (r, m') ->
  processes m' = processes m /\ memory m' = memory m
  /\ memory_size m' = memory_size m /\ stats m' = stats m
  /\ process_counter m' = process_counter m.
Proof.
  unfold evict. intros H.
  repeat match type of H with
         | context [match ?x with _ => _ end] => destruct x
         end;
    inversion H; subst; simpl; auto.
Qed.

Lemma place_returned now k p n alg f m r m' :
  place now k p n alg f m = (Returned r, m') ->
  r = ok_fault
  /\ processes m' = processes m
  /\ exists e, dict_get String.eqb (page_key p n) (page_table m') = Some e.
Proof.
  unfold place. intros H.
  destruct (dict_get Z.eqb p (processes m)); [|discriminate].
  destruct (list_set f _ (memory m)); [|discriminate].
  inversion H; subst; clear H. split; [reflexivity|].
  destruct (is_fifo alg); simpl; (split; [reflexivity|]);
    eexists; apply (dict_get_set_same _ Seqb_eq).
Qed.

Lemma allocate_page_processes now p n alg m r m' :
  allocate_page now p n alg m = (r, m') ->
  processes m' = processes m /\ memory_size m' = memory_size m
  /\ process_counter m' = process_counter m.
Proof.
  unfold allocate_page. intros H.
  destruct (negb _); [inversion H; auto|].
  destruct (dict_get String.eqb _ (page_table m)); [inversion H; auto|].
  assert (Hp : forall k f m1 r1 m1',
             place now k p n alg f m1 = (r1, m1') ->
             processes m1' = processes m1 /\ memory_size m1' = memory_size m1
             /\ process_counter m1' = process_counter m1).
  { unfold place. intros k f m1 r1 m1' Hp.
    destruct (dict_get Z.eqb p (processes m1)); [|inversion Hp; auto].
    destruct (list_set f _ (memory m1)); [|inversion Hp; auto].
    inversion Hp; subst. destruct (is_fifo alg); simpl; auto. }
  destruct (find_free_frame _).
  - apply Hp in H. exact H.
  - destruct (if is_fifo alg then _ else _); [|inversion H; auto].
    destruct (evict now n0 alg (count_fault m)) as [[k|e] m2] eqn:He.
    + apply Hp in H. apply evict_processes in He. simpl in He.
      intuition congruence.
    + inversion H; subst. apply evict_processes in He. simpl in He.
      intuition congruence.
Qed.

Lemma remove_process_processes now p m r m' :
  remove_process now p m = (r, m') ->
  (m' = m \/ processes m' = dict_del Z.eqb p (processes m))
  /\ memory_size m' = memory_size m.
Proof.
  unfold remove_process. intros H.
  destruct (negb _); [inversion H; auto|].
  destruct (free_frames p (memory m) (allocation_queue m)) as [mem q].
  inversion H; subst; simpl. auto.
Qed.

Lemma step_memory_size m c : memory_size (step m c) = memory_size m.
Proof.
  destruct c as [now [sz|p n alg|p|]]; unfold step; simpl; auto.
  - destruct (allocate_page now p n alg m) as [r m'] eqn:H.
    apply allocate_page_processes in H. simpl. tauto.
  - destruct (remove_process now p m) as [r m'] eqn:H.
    apply remove_process_processes in H. simpl. tauto.
Qed.

Lemma reachable_memory_size n m : reachable n m -> memory_size m = n.
Proof.
  intros H. pattern m. revert m H. apply reachable_induction.
  - reflexivity.
  - intros m c _ IH. now rewrite step_memory_size.
Qed.

Lemma fresh_pages_unmapped sz :
  Forall (fun pg => pg_frame_num pg = None) (fresh_pages sz).
Proof.
  unfold fresh_pages. apply Forall_forall. intros pg Hin.
  apply in_map_iff in Hin. destruct Hin as [i [<- _]]. reflexivity.
Qed.

Lemma step_pages_unmapped m c :
  (forall q pr, In (q, pr) (processes m) -> pages_unmapped pr) ->
  forall q pr, In (q, pr) (processes (step m c)) -> pages_unmapped pr.
Proof.
  intros IH q pr.
  destruct c as [now [sz|p n alg|p|]]; unfold step; simpl.
  - intros Hin. apply dict_set_In in Hin; [|exact Zeqb_eq].
    destruct Hin as [Heq|Hin]; [|eauto].
    inversion Heq; subst. apply fresh_pages_unmapped.
  - destruct (allocate_page now p n alg m) as [r m'] eqn:H.
    apply allocate_page_processes in H. simpl.
    destruct H as [-> _]. apply IH.
  - destruct (remove_process now p m) as [r m'] eqn:H.
    apply remove_process_processes in H. simpl.
    destruct H as [[->| ->] _]; [apply IH|].
    intros Hin. apply dict_del_In in Hin. eauto.
  - tauto.
Qed.

(** ** Claims settled on single calls *)

(** C6: when an access to (pid, page_num) succeeds, as a hit or as a fault,
    the same access repeated at once is a hit. *)
Theorem access_twice_hits now1 now2 p n alg m r m' :
  allocate_page now1 p n alg m = (Returned r, m') ->
  success r = true ->
  fst (allocate_page now2 p n alg m') = Returned ok_hit.
Proof.
  intros H Hs.
  assert (Hproc : processes m' = processes m)
    by (apply allocate_page_processes in H; tauto).
  assert (Hres : dict_mem Z.eqb p (processes m) = true
                 /\ exists e, dict_get String.eqb (page_key p n) (page_table m') = Some e).
  { revert H. unfold allocate_page.
    destruct (dict_mem Z.eqb p (processes m)); simpl;
      [|intros [= <- _]; discriminate].
    split; [reflexivity|].
    destruct (dict_get String.eqb (page_key p n) (page_table m)) as [e|].
    - inversion H; subst. simpl. eexists. apply (dict_get_set_same _ Seqb_eq).
    - destruct (find_free_frame (count_fault m)) as [f|].
      + apply place_returned in H. tauto.
      + destruct (if is_fifo alg then _ else _) as [f|];
          [|inversion H; subst; discriminate].
        destruct (evict now1 f alg (count_fault m)) as [[k|e] m2];
          [|discriminate].
        apply place_returned in H. tauto. }
  destruct Hres as [Hmem [e He]].
  unfold allocate_page. rewrite Hproc, Hmem, He. reflexivity.
Qed.

Lemma access_twice_hits_witness :
  fst (allocate_page (tick 9) 1 0 FIFO
         (snd (allocate_page (tick 5) 1 0 FIFO
                 (run [(tick 1, CreateProcess 2)] (init 2)))))
  = Returned ok_hit.
Proof.
  apply (access_twice_hits (tick 5) (tick 9) 1 0 FIFO
           (run [(tick 1, CreateProcess 2)] (init 2)) ok_fault).
  - reflexivity.
  - reflexivity.
Defined.

(** C1, as the code has it: a call answering "Process not found" leaves the
    manager exactly as it was; an access answering "No frames available"
    has counted the fault and changed nothing else. *)
Theorem error_leaves_state c m r m' :
  perform c m = (Returned r, m') ->
  success r = false ->
  (r = failure "Process not found" /\ m' = m)
  \/ (r = failure "No frames available"
      /\ (exists now p n alg, c = (now, AccessPage p n alg))
      /\ m' = count_fault m).
Proof.
  destruct c as [now [sz|p n alg|p|]]; simpl.
  - intros [= <- _]. discriminate.
  - unfold allocate_page.
    destruct (negb _); [intros [= <- <-]; auto|].
    destruct (dict_get String.eqb _ (page_table m));
      [intros [= <- _]; discriminate|].
    destruct (find_free_frame _) as [f|].
    + intros H Hs. apply place_returned in H. destruct H as [-> _].
      discriminate.
    + destruct (if is_fifo alg then _ else _) as [f|].
      * destruct (evict now f alg (count_fault m)) as [[k|e] m2];
          [|discriminate].
        intros H Hs. apply place_returned in H. destruct H as [-> _].
        discriminate.
      * intros [= <- <-] _. right. repeat split. now exists now, p, n, alg.
  - unfold remove_process.
    destruct (negb _); [intros [= <- <-]; auto|].
    destruct (free_frames _ _ _). intros [= <- _]. discriminate.
  - intros [= <- _]. discriminate.
Qed.

Lemma error_leaves_state_witness :
  let m := run [(tick 1, CreateProcess 2)] (init 2) in
  (failure "Process not found" = failure "Process not found"
   /\ m = m)
  \/ (failure "Process not found" = failure "No frames available"
      /\ (exists now p n alg,
             (tick 5, RemoveProcess 7) = (now, AccessPage p n alg))
      /\ m = count_fault m).
Proof.
  intros m.
  apply (error_leaves_state (tick 5, RemoveProcess 7) m
           (failure "Process not found") m).
  - reflexivity.
  - reflexivity.
Defined.

(** C1 as stated fails: with both frames filled under LRU the queue is
    empty, and a FIFO access then answers "No frames available" after the
    fault counter has gone from 2 to 3. *)
Lemma error_mutates_counter :
  let m := run [(tick 10, CreateProcess 3);
                (tick 20, AccessPage 1 0 LRU);
                (tick 30, AccessPage 1 1 LRU)] (init 2) in
  let res := allocate_page (tick 40) 1 2 FIFO m in
  fst res = Returned (failure "No frames available")
  /\ page_faults (stats m) = 2
  /\ page_faults (stats (snd res)) = 3
  /\ snd res <> m.
Proof.
  vm_compute. repeat split. discriminate.
Qed.

(** C8: after [reset] a reachable manager is the freshly constructed one
    for the same frame count, which is the empty state of the
    specification; every query therefore answers alike on both. *)
Theorem reset_is_fresh n m :
  reachable n m ->
  reset m = init n
  /\ reset m = empty_manager n
  /\ get_state (reset m) = get_state (init n)
  /\ forall (A : Type) (query : MemoryManager -> A),
       query (reset m) = query (init n).
Proof.
  intros H. apply reachable_memory_size in H.
  unfold reset. rewrite H. repeat split.
Qed.

Lemma reset_is_fresh_witness :
  let m := run [(tick 10, CreateProcess 3);
                (tick 20, AccessPage 1 0 LRU);
                (tick 30, AccessPage 1 1 FIFO)] (init 2) in
  reset m = init 2
  /\ reset m = empty_manager 2
  /\ get_state (reset m) = get_state (init 2)
  /\ forall (A : Type) (query : MemoryManager -> A),
       query (reset m) = query (init 2).
Proof.
  intros m. apply (reset_is_fresh 2 m).
  exists [(tick 10, CreateProcess 3);
          (tick 20, AccessPage 1 0 LRU);
          (tick 30, AccessPage 1 1 FIFO)].
  reflexivity.
Defined.

(** C10: in every reachable state every page of every process descriptor,
    as the snapshot returns it, has [frame_num = None]. *)
Theorem descriptors_never_mapped n m :
  reachable n m ->
  forall pr, In pr (snap_processes (get_state m)) -> pages_unmapped pr.
Proof.
  intros H.
  assert (Hall : forall q pr, In (q, pr) (processes m) -> pages_unmapped pr).
  { pattern m. revert m H. apply reachable_induction.
    - simpl. tauto.
    - intros m c _ IH. now apply step_pages_unmapped. }
  simpl. intros pr Hin. apply in_map_iff in Hin.
  destruct Hin as [[q pr'] [<- Hin]]. eauto.
Qed.

Lemma descriptors_never_mapped_witness :
  let m := run [(tick 10, CreateProcess 2);
                (tick 20, AccessPage 1 0 LRU);
                (tick 30, AccessPage 1 1 FIFO)] (init 2) in
  Forall pages_unmapped (snap_processes (get_state m)).
Proof.
  intros m. apply Forall_forall. apply (descriptors_never_mapped 2 m).
  exists [(tick 10, CreateProcess 2);
          (tick 20, AccessPage 1 0 LRU);
          (tick 30, AccessPage 1 1 FIFO)].
  reflexivity.
Defined.

(** ** Keys of the page table *)

Lemma dashfree_uint d : dashfree (NilEmpty.string_of_uint d) = true.
Proof. induction d; simpl; auto. Qed.

Lemma dashfree_nzuint d : dashfree (NilZero.string_of_uint d) = true.
Proof. destruct d; try reflexivity; apply (dashfree_uint (_ d)). Qed.

Lemma dashfree_str z : 0 <= z -> dashfree (str z) = true.
Proof.
  unfold str. destruct z; simpl; intros H; try apply dashfree_nzuint.
  - reflexivity.
  - lia.
Qed.

Lemma str_negative z :
  z < 0 -> exists d, str z = String "-" d /\ dashfree d = true.
Proof.
  unfold str. destruct z; simpl; try lia. intros _.
  eexists. split; [reflexivity|]. apply dashfree_nzuint.
Qed.

Lemma py_int_str z : py_int (str z) = Some z.
Proof.
  unfold py_int, str. rewrite NilZero.isi.
  - simpl. now rewrite DecimalZ.of_to.
  - destruct z; simpl; try discriminate.
    intros [= H]. now apply DecimalPos.Unsigned.to_uint_nonnil in H.
  - destruct z; simpl; try discriminate.
    intros [= H]. now apply DecimalPos.Unsigned.to_uint_nonnil in H.
Qed.

Lemma str_inj a b : str a = str b -> a = b.
Proof.
  intros H. apply (f_equal py_int) in H. rewrite !py_int_str in H.
  now inversion H.
Qed.

Lemma split_dashfree s : dashfree s = true -> split "-" s = [s].
Proof.
  induction s as [|a s IH]; simpl; [reflexivity|].
  intros H. apply andb_prop in H. destruct H as [Ha Hs].
  apply negb_true_iff in Ha. rewrite Ha, IH; auto.
Qed.

Lemma split_dash s r :
  dashfree s = true ->
  split "-" (s ++ String "-" r)%string = s :: split "-" r.
Proof.
  induction s as [|a s IH]; simpl; [reflexivity|].
  intros H. apply andb_prop in H. destruct H as [Ha Hs].
  apply negb_true_iff in Ha. rewrite Ha, IH; auto.
Qed.

Lemma dash_inj a b x y :
  dashfree a = true -> dashfree b = true ->
  (a ++ String "-" x)%string = (b ++ String "-" y)%string -> a = b /\ x = y.
Proof.
  revert b. induction a as [|c a IH]; intros [|d b]; simpl; intros Ha Hb H.
  - now inversion H.
  - inversion H; subst. discriminate.
  - inversion H; subst. discriminate.
  - inversion H; subst.
    apply andb_prop in Ha, Hb. destruct Ha as [_ Ha], Hb as [_ Hb].
    destruct (IH b Ha Hb H2) as [-> ->]. auto.
Qed.

Lemma prefix_cons c d a b :
  String.prefix (String c a) (String d b)
  = if Ascii.eqb c d then String.prefix a b else false.
Proof.
  cbn [String.prefix]. destruct (ascii_dec c d) as [->|Hne].
  - now rewrite Ascii.eqb_refl.
  - apply Ascii.eqb_neq in Hne. now rewrite Hne.
Qed.

Lemma prefix_dash a b r :
  dashfree a = true -> dashfree b = true ->
  String.prefix (a ++ String "-" EmptyString)%string
                (b ++ String "-" r)%string = true -> a = b.
Proof.
  revert b. induction a as [|c a IH]; intros [|d b];
    cbn [append dashfree]; intros Ha Hb; rewrite ?prefix_cons.
  - reflexivity.
  - apply andb_prop in Hb. destruct Hb as [Hd _].
    apply negb_true_iff in Hd. rewrite Ascii.eqb_sym, Hd. discriminate.
  - apply andb_prop in Ha. destruct Ha as [Hc _].
    apply negb_true_iff in Hc. rewrite Hc. discriminate.
  - destruct (Ascii.eqb c d) eqn:E; [|discriminate].
    apply Ascii.eqb_eq in E. subst d.
    apply andb_prop in Ha, Hb. destruct Ha as [_ Ha], Hb as [_ Hb].
    intros H. f_equal. eauto.
Qed.

Lemma append_dash a r :
  ((a ++ String "-" EmptyString) ++ r)%string = (a ++ String "-" r)%string.
Proof. induction a as [|c a IH]; cbn [append]; [reflexivity | now rewrite IH]. Qed.

Lemma prefix_append a r : String.prefix a (a ++ r)%string = true.
Proof.
  induction a as [|c a IH]; cbn [append]; [now destruct r|].
  now rewrite prefix_cons, Ascii.eqb_refl.
Qed.

(** The key of a page determines the process and the page. *)
Lemma page_key_inj p n q k :
  0 <= p -> 0 <= q -> page_key p n = page_key q k -> p = q /\ n = k.
Proof.
  unfold page_key. simpl. intros Hp Hq [= H].
  apply dash_inj in H; try now apply dashfree_str.
  destruct H as [H1 H2]. split; now apply str_inj.
Qed.

(** The test [k.startswith(f"P{pid}-")] on a key recognises the owner. *)
Lemma key_prefix_owner p q n :
  0 <= p -> 0 <= q ->
  String.prefix ("P" ++ str p ++ "-")%string (page_key q n) = true <-> p = q.
Proof.
  intros Hp Hq. unfold page_key. cbn [append].
  rewrite prefix_cons, Ascii.eqb_refl. split.
  - intros H. apply prefix_dash in H; try now apply dashfree_str.
    now apply str_inj.
  - intros ->.
    replace (str q ++ String "-" (str n))%string
      with ((str q ++ String "-" EmptyString) ++ str n)%string.
    + apply prefix_append.
    + apply append_dash.
Qed.

(** Splitting the key of a page with a non-negative number gives back the
    process and the page. *)
Lemma split_page_key p n :
  0 <= p -> 0 <= n ->
  split "-" (page_key p n) = [("P" ++ str p)%string; str n].
Proof.
  intros Hp Hn. unfold page_key. simpl.
  rewrite split_dash by now apply dashfree_str.
  rewrite split_dashfree by now apply dashfree_str.
  reflexivity.
Qed.

(** For a negative page number the second part of the key is empty. *)
Lemma split_page_key_negative p n :
  0 <= p -> n < 0 ->
  exists d, split "-" (page_key p n)
            = [("P" ++ str p)%string; EmptyString; d].
Proof.
  intros Hp Hn. unfold page_key. simpl.
  destruct (str_negative n Hn) as [d [-> Hd]].
  rewrite split_dash by now apply dashfree_str.
  simpl. rewrite split_dashfree by exact Hd.
  exists d. reflexivity.
Qed.

(** ** Lists of frames *)

Open Scope nat_scope.

Lemma list_set_nth {A} (l : list A) i x l' :
  list_set i x l = Some l' ->
  length l' = length l
  /\ i < length l
  /\ forall j, nth_error l' j = if Nat.eqb j i then Some x else nth_error l j.
Proof.
  revert i l'. induction l as [|a l IH]; intros [|i] l'; simpl; try discriminate.
  - intros [= <-]. simpl. repeat split; try lia. now intros [|j].
  - destruct (list_set i x l) as [l1|] eqn:E; simpl; [|discriminate].
    intros [= <-]. destruct (IH _ _ E) as [H1 [H2 H3]]. simpl.
    repeat split; try lia. intros [|j]; simpl; auto.
Qed.

Lemma list_set_some {A} (l : list A) i x :
  i < length l -> exists l', list_set i x l = Some l'.
Proof.
  revert i. induction l as [|a l IH]; intros [|i]; simpl; try lia; eauto.
  intros H. destruct (IH i) as [l' ->]; [lia|]. simpl. eauto.
Qed.

Lemma resident_from_In i mem j k :
  In (j, k) (resident_from i mem) <->
  exists fr, i <= j /\ nth_error mem (j - i) = Some (Some fr)
             /\ k = page_key (fr_pid fr) (fr_page_num fr).
Proof.
  revert i. induction mem as [|[fr|] mem IH]; intros i; simpl.
  - split; [tauto|]. intros [fr [_ [H _]]]. now destruct (j - i).
  - rewrite IH. split.
    + intros [[= <- <-]|[fr' [H1 [H2 H3]]]].
      * exists fr. rewrite Nat.sub_diag. auto.
      * exists fr'. replace (j - i) with (S (j - S i)) by lia. auto with arith.
    + intros [fr' [H1 [H2 H3]]]. destruct (j - i) as [|d] eqn:E.
      * left. simpl in H2. inversion H2; subst. f_equal. lia.
      * right. exists fr'. simpl in H2.
        replace (j - S i) with d by lia. split; [lia|]. auto.
  - rewrite IH. split.
    + intros [fr' [H1 [H2 H3]]]. exists fr'.
      replace (j - i) with (S (j - S i)) by lia. auto with arith.
    + intros [fr' [H1 [H2 H3]]]. destruct (j - i) as [|d] eqn:E.
      * discriminate.
      * exists fr'. simpl in H2.
        replace (j - S i) with d by lia. split; [lia|]. auto.
Qed.

Lemma resident_set_free i mem f fr mem' :
  nth_error mem f = Some None ->
  list_set f (Some fr) mem = Some mem' ->
  Permutation (resident_from i mem')
              ((i + f, page_key (fr_pid fr) (fr_page_num fr))
                 :: resident_from i mem).
Proof.
  revert i f mem'. induction mem as [|x mem IH]; intros i [|f] mem'; simpl;
    try discriminate.
  - intros [= ->] [= <-]. simpl. rewrite Nat.add_0_r. reflexivity.
  - intros Hn. destruct (list_set f (Some fr) mem) as [l|] eqn:E; [|discriminate].
    intros [= <-]. specialize (IH (S i) f l Hn E).
    replace (i + S f) with (S i + f) by lia.
    destruct x as [fr0|]; simpl.
    + rewrite IH. apply perm_swap.
    + exact IH.
Qed.

Lemma resident_set_occupied i mem f old fr mem' :
  nth_error mem f = Some (Some old) ->
  list_set f (Some fr) mem = Some mem' ->
  Permutation ((i + f, page_key (fr_pid old) (fr_page_num old))
                 :: resident_from i mem')
              ((i + f, page_key (fr_pid fr) (fr_page_num fr))
                 :: resident_from i mem).
Proof.
  revert i f mem'. induction mem as [|x mem IH]; intros i [|f] mem'; simpl;
    try discriminate.
  - intros [= ->] [= <-]. simpl. rewrite Nat.add_0_r. apply perm_swap.
  - intros Hn. destruct (list_set f (Some fr) mem) as [l|] eqn:E; [|discriminate].
    intros [= <-]. specialize (IH (S i) f l Hn E).
    replace (i + S f) with (S i + f) by lia.
    destruct x as [fr0|]; simpl.
    + rewrite perm_swap, IH. rewrite perm_swap. reflexivity.
    + exact IH.
Qed.

Lemma resident_from_length i mem :
  length (resident_from i mem) = count_occupied mem.
Proof.
  unfold count_occupied. revert i.
  induction mem as [|[fr|] mem IH]; intros i; simpl; auto.
Qed.

Lemma occupied_frames_In mem f :
  In f (occupied_frames mem) <-> occupied_at mem f = true.
Proof.
  unfold occupied_frames. rewrite filter_In, in_seq. split; [tauto|].
  intros H. split; [|exact H]. unfold occupied_at in H.
  destruct (nth_error mem f) eqn:E; [|discriminate].
  assert (f < length mem) by (apply nth_error_Some; congruence). lia.
Qed.

Lemma first_free_spec i mem :
  match first_free i mem with
  | Some f => exists j, f = i + j /\ nth_error mem j = Some None
  | None => forall j, j < length mem -> occupied_at mem j = true
  end.
Proof.
  revert i. induction mem as [|[fr|] mem IH]; intros i; simpl.
  - intros j Hj. lia.
  - specialize (IH (S i)). destruct (first_free (S i) mem) as [f|].
    + destruct IH as [j [-> Hj]]. exists (S j). split; [lia | exact Hj].
    + intros [|j] Hj; [reflexivity|]. unfold occupied_at. simpl.
      apply IH. lia.
  - exists 0%nat. split; [lia | reflexivity].
Qed.

Open Scope Z_scope.

(** ** Victim selection and eviction *)

Lemma find_victim_key_Some f pt k :
  find_victim_key f pt = Some k -> In (f, k) (table_view pt).
Proof.
  induction pt as [|[k0 v0] pt IH]; simpl; [discriminate|].
  destruct (Nat.eqb (frame_num v0) f) eqn:E.
  - apply Nat.eqb_eq in E. intros [= <-]. left. now rewrite E.
  - auto.
Qed.

Lemma find_victim_key_found f pt k :
  In (f, k) (table_view pt) -> exists k', find_victim_key f pt = Some k'.
Proof.
  induction pt as [|[k0 v0] pt IH]; simpl; [tauto|].
  destruct (Nat.eqb (frame_num v0) f) eqn:E; [eauto|].
  intros [[= H _]|H]; [|auto]. apply Nat.eqb_neq in E. contradiction.
Qed.

Lemma lru_scan_frame items o v f :
  lru_scan items o v = Some f ->
  v = Some f \/ exists k, In (f, k) (table_view items).
Proof.
  revert o v. induction items as [|[k0 v0] items IH]; simpl; intros o v H.
  - now left.
  - destruct (older (last_used v0) o); apply IH in H.
    + destruct H as [[= <-]|[k H]]; right; eauto.
    + destruct H as [H|[k H]]; [now left | right; eauto].
Qed.

Lemma lru_scan_some items o f : exists f', lru_scan items o (Some f) = Some f'.
Proof.
  revert o f. induction items as [|[k0 v0] items IH]; simpl; intros o f; eauto.
  destruct (older (last_used v0) o); eauto.
Qed.

Lemma find_victim_lru_None m : find_victim_lru m = None -> page_table m = [].
Proof.
  unfold find_victim_lru. destruct (page_table m) as [|[k0 v0] items];
    [reflexivity|]. simpl.
  destruct (lru_scan_some items (Some (last_used v0)) (frame_num v0))
    as [f' ->]. discriminate.
Qed.

Lemma page_key_cons q g :
  page_key q g = String "P" (str q ++ String "-" (str g))%string.
Proof. reflexivity. Qed.

(** An eviction whose victim has a non-negative page number goes through;
    with a negative one, [int] fails on the empty second part of the key
    and the call stops before anything is evicted. *)
Lemma evict_key now f alg m q g :
  find_victim_key f (page_table m) = Some (page_key q g) ->
  0 <= q ->
  evict now f alg m =
  if g <? 0 then (Raised ValueError, m)
  else
    let m1 := add_log (now 0%nat)
                ("Page fault: Evicting P" ++ str q ++ " page " ++ str g)%string m in
    match (if is_fifo alg then queue_remove f (allocation_queue m)
           else Some (allocation_queue m)) with
    | None => (Raised ValueError, m1)
    | Some q' =>
        (Returned 1%nat,
         with_page_table (dict_del String.eqb (page_key q g) (page_table m))
                         (with_allocation_queue q' m1))
    end.
Proof.
  intros Hk Hq. unfold evict. rewrite Hk.
  destruct (page_key q g) as [|c key_rest] eqn:Hkey; [discriminate|].
  rewrite <- Hkey. clear Hk Hkey.
  destruct (g <? 0) eqn:Hg.
  - apply Z.ltb_lt in Hg.
    destruct (split_page_key_negative q g Hq Hg) as [d ->].
    cbn [hd drop_first append]. rewrite py_int_str. reflexivity.
  - apply Z.ltb_ge in Hg. rewrite split_page_key by assumption.
    cbn [hd drop_first append nth_error]. rewrite !py_int_str. reflexivity.
Qed.

Lemma place_fields now k p n alg f m pr mem :
  dict_get Z.eqb p (processes m) = Some pr ->
  list_set f (Some (mkFrame p n (color pr))) (memory m) = Some mem ->
  exists m',
    place now k p n alg f m = (Returned ok_fault, m')
    /\ memory m' = mem
    /\ page_table m' = dict_set String.eqb (page_key p n)
                                (mkEntry f (now k) (now k)) (page_table m)
    /\ allocation_queue m' = (if is_fifo alg then allocation_queue m ++ [f]
                              else allocation_queue m)
    /\ processes m' = processes m
    /\ process_counter m' = process_counter m
    /\ stats m' = stats m.
Proof.
  intros Hp Hs. unfold place. rewrite Hp, Hs. eexists. split; [reflexivity|].
  destruct (is_fifo alg); simpl; repeat split.
Qed.

(** ** Consequences of consistency *)

Lemma dict_mem_get {V} p (d : list (Z * V)) :
  dict_mem Z.eqb p d = true -> exists v, dict_get Z.eqb p d = Some v.
Proof. unfold dict_mem. destruct (dict_get Z.eqb p d); [eauto | discriminate]. Qed.

Lemma dict_get_mem {V} p (d : list (Z * V)) v :
  dict_get Z.eqb p d = Some v -> dict_mem Z.eqb p d = true.
Proof. unfold dict_mem. now intros ->. Qed.

Lemma consistent_ext m m' :
  memory m' = memory m -> page_table m' = page_table m ->
  processes m' = processes m -> process_counter m' = process_counter m ->
  allocation_queue m' = allocation_queue m ->
  consistent m -> consistent m'.
Proof.
  intros H1 H2 H3 H4 H5 [C1 C2 C3 C4 C5 C6 C7 C8].
  constructor; rewrite ?H1, ?H2, ?H3, ?H4, ?H5; assumption.
Qed.

Lemma consistent_owner m f fr :
  consistent m -> nth_error (memory m) f = Some (Some fr) -> 0 < fr_pid fr.
Proof.
  intros C H. apply (c_owner m C) in H. apply dict_mem_get in H.
  destruct H as [pr H]. apply (dict_get_In _ Zeqb_eq) in H.
  exact (c_pids m C _ _ H).
Qed.

Lemma consistent_entry m f fr :
  consistent m -> nth_error (memory m) f = Some (Some fr) ->
  In (f, page_key (fr_pid fr) (fr_page_num fr)) (table_view (page_table m)).
Proof.
  intros C H. apply (Permutation_in _ (Permutation_sym (c_table m C))).
  apply resident_from_In. exists fr. rewrite Nat.sub_0_r.
  repeat split; auto with arith.
Qed.

Lemma consistent_frame m f k :
  consistent m -> In (f, k) (table_view (page_table m)) ->
  exists fr, nth_error (memory m) f = Some (Some fr)
             /\ k = page_key (fr_pid fr) (fr_page_num fr)
             /\ 0 < fr_pid fr.
Proof.
  intros C H. apply (Permutation_in _ (c_table m C)) in H.
  apply resident_from_In in H. destruct H as [fr [_ [H1 H2]]].
  rewrite Nat.sub_0_r in H1. exists fr. repeat split; auto.
  eapply consistent_owner; eauto.
Qed.

Lemma table_view_keys pt : map snd (table_view pt) = map fst pt.
Proof. unfold table_view. rewrite map_map. reflexivity. Qed.

Lemma table_view_del pt f k :
  NoDup (map fst pt) -> In (f, k) (table_view pt) ->
  Permutation (table_view pt) ((f, k) :: table_view (dict_del String.eqb k pt)).
Proof.
  induction pt as [|[k0 v0] pt IH]; simpl; [tauto|].
  intros Hnd Hin. inversion Hnd as [|? ? Hk0 Hnd']; subst.
  destruct (String.eqb k0 k) eqn:E.
  - apply String.eqb_eq in E. subst k0.
    destruct Hin as [[= <-]|Hin]; [reflexivity|].
    exfalso. apply Hk0. rewrite <- table_view_keys.
    now apply (in_map snd) in Hin.
  - destruct Hin as [[= _ Hk]|Hin].
    + apply String.eqb_neq in E. congruence.
    + simpl. rewrite (IH Hnd' Hin). apply perm_swap.
Qed.

Lemma dict_del_keys {V} k (d : list (string * V)) x :
  In x (map fst (dict_del String.eqb k d)) -> In x (map fst d).
Proof. apply dict_del_keys_In. Qed.

Lemma NoDup_dict_del {V} k (d : list (string * V)) :
  NoDup (map fst d) -> NoDup (map fst (dict_del String.eqb k d)).
Proof. apply dict_del_NoDup. Qed.

Lemma table_view_app pt1 pt2 :
  table_view (pt1 ++ pt2) = table_view pt1 ++ table_view pt2.
Proof. apply map_app. Qed.

Lemma occupied_at_nth mem f :
  occupied_at mem f = true <-> exists fr, nth_error mem f = Some (Some fr).
Proof.
  unfold occupied_at. destruct (nth_error mem f) as [[fr|]|]; split;
    try discriminate; eauto; intros [fr' H]; discriminate.
Qed.

(** ** The four ways an access ends *)

Lemma allocate_page_hit now p n alg m pr e :
  dict_get Z.eqb p (processes m) = Some pr ->
  dict_get String.eqb (page_key p n) (page_table m) = Some e ->
  exists m',
    allocate_page now p n alg m = (Returned ok_hit, m')
    /\ memory m' = memory m
    /\ page_table m' = dict_set String.eqb (page_key p n)
                         (mkEntry (frame_num e) (alloc_time e) (now 0%nat))
                         (page_table m)
    /\ allocation_queue m' = allocation_queue m
    /\ processes m' = processes m
    /\ process_counter m' = process_counter m
    /\ stats m' = stats (count_hit m).
Proof.
  intros Hp He. unfold allocate_page.
  rewrite (dict_get_mem _ _ _ Hp), He. simpl.
  eexists. repeat split.
Qed.

Lemma allocate_page_free now p n alg m pr f :
  dict_get Z.eqb p (processes m) = Some pr ->
  dict_get String.eqb (page_key p n) (page_table m) = None ->
  find_free_frame m = Some f ->
  exists m' mem',
    allocate_page now p n alg m = (Returned ok_fault, m')
    /\ nth_error (memory m) f = Some None
    /\ list_set f (Some (mkFrame p n (color pr))) (memory m) = Some mem'
    /\ memory m' = mem'
    /\ page_table m' = page_table m
                         ++ [(page_key p n, mkEntry f (now 0%nat) (now 0%nat))]
    /\ allocation_queue m' = (if is_fifo alg then allocation_queue m ++ [f]
                              else allocation_queue m)
    /\ processes m' = processes m
    /\ process_counter m' = process_counter m
    /\ stats m' = stats (count_fault m).
Proof.
  intros Hp He Hf. unfold allocate_page.
  rewrite (dict_get_mem _ _ _ Hp), He. simpl negb. cbv iota.
  change (find_free_frame (count_fault m)) with (find_free_frame m).
  rewrite Hf.
  assert (Hn : nth_error (memory m) f = Some None).
  { unfold find_free_frame in Hf.
    pose proof (first_free_spec 0 (memory m)) as Hs. rewrite Hf in Hs.
    destruct Hs as [j [-> Hj]]. exact Hj. }
  destruct (list_set_some (memory m) f (Some (mkFrame p n (color pr))))
    as [mem' Hs].
  { apply nth_error_Some. congruence. }
  destruct (place_fields now 0 p n alg f (count_fault m) pr mem' Hp Hs)
    as [m' [H1 [H2 [H3 [H4 [H5 [H6 H7]]]]]]].
  exists m', mem'. rewrite H1. repeat split; auto.
  rewrite H3. apply dict_set_absent. exact He.
Qed.

Lemma allocate_page_noframe now p n alg m pr :
  dict_get Z.eqb p (processes m) = Some pr ->
  dict_get String.eqb (page_key p n) (page_table m) = None ->
  find_free_frame m = None ->
  (if is_fifo alg then find_victim_fifo m else find_victim_lru m) = None ->
  allocate_page now p n alg m
  = (Returned (failure "No frames available"), count_fault m).
Proof.
  intros Hp He Hf Hv. unfold allocate_page.
  rewrite (dict_get_mem _ _ _ Hp), He. simpl negb. cbv iota.
  change (find_free_frame (count_fault m)) with (find_free_frame m).
  rewrite Hf.
  change (find_victim_fifo (count_fault m)) with (find_victim_fifo m).
  change (find_victim_lru (count_fault m)) with (find_victim_lru m).
  rewrite Hv. reflexivity.
Qed.

(** With every frame taken, the victim frame [f] holds a page [old]; the
    access replaces it, unless the number of that page is negative. *)
Lemma allocate_page_replace now p n alg m pr f :
  consistent m ->
  dict_get Z.eqb p (processes m) = Some pr ->
  dict_get String.eqb (page_key p n) (page_table m) = None ->
  find_free_frame m = None ->
  (if is_fifo alg then find_victim_fifo m else find_victim_lru m) = Some f ->
  exists old,
    nth_error (memory m) f = Some (Some old)
    /\ (is_fifo alg = true -> exists q, allocation_queue m = f :: q)
    /\ if fr_page_num old <? 0
       then allocate_page now p n alg m = (Raised ValueError, count_fault m)
       else exists m' mem',
           allocate_page now p n alg m = (Returned ok_fault, m')
           /\ list_set f (Some (mkFrame p n (color pr))) (memory m) = Some mem'
           /\ memory m' = mem'
           /\ page_table m'
              = dict_del String.eqb
                  (page_key (fr_pid old) (fr_page_num old)) (page_table m)
                  ++ [(page_key p n, mkEntry f (now 1%nat) (now 1%nat))]
           /\ allocation_queue m'
              = (if is_fifo alg then tl (allocation_queue m) ++ [f]
                 else allocation_queue m)
           /\ processes m' = processes m
           /\ process_counter m' = process_counter m
           /\ stats m' = stats (count_fault m).
Proof.
  intros C Hp He Hf Hv.
  assert (Hq : is_fifo alg = true -> exists q, allocation_queue m = f :: q).
  { intros Hfifo. rewrite Hfifo in Hv. unfold find_victim_fifo in Hv.
    destruct (allocation_queue m) as [|f' q]; [discriminate|].
    inversion Hv; subst. eauto. }
  assert (Hocc : exists k, In (f, k) (table_view (page_table m))).
  { destruct (is_fifo alg) eqn:Hfifo.
    - destruct (Hq eq_refl) as [q Hqueue].
      assert (Ho : occupied_at (memory m) f = true)
        by (apply (c_queue_occ m C); rewrite Hqueue; now left).
      apply occupied_at_nth in Ho. destruct Ho as [fr Ho].
      eexists. apply (consistent_entry m f fr C Ho).
    - apply lru_scan_frame in Hv. destruct Hv as [Hv|Hv]; [discriminate | exact Hv]. }
  destruct Hocc as [k0 Hk0].
  destruct (find_victim_key_found _ _ _ Hk0) as [k Hk].
  pose proof (find_victim_key_Some _ _ _ Hk) as Hin.
  destruct (consistent_frame m f k C Hin) as [old [Hold [-> Hpid]]].
  exists old. split; [exact Hold|]. split; [exact Hq|].
  unfold allocate_page.
  rewrite (dict_get_mem _ _ _ Hp), He. simpl negb. cbv iota.
  change (find_free_frame (count_fault m)) with (find_free_frame m).
  rewrite Hf.
  change (find_victim_fifo (count_fault m)) with (find_victim_fifo m).
  change (find_victim_lru (count_fault m)) with (find_victim_lru m).
  rewrite Hv.
  rewrite (evict_key now f alg (count_fault m) (fr_pid old) (fr_page_num old))
    by (simpl; auto; lia).
  destruct (fr_page_num old <? 0); [reflexivity|].
  cbv zeta.
  change (allocation_queue (count_fault m)) with (allocation_queue m).
  change (page_table (count_fault m)) with (page_table m).
  assert (Hrem : exists q',
             (if is_fifo alg then queue_remove f (allocation_queue m)
              else Some (allocation_queue m)) = Some q'
             /\ (if is_fifo alg then q' ++ [f] else q')
                = (if is_fifo alg then tl (allocation_queue m) ++ [f]
                   else allocation_queue m)).
  { destruct (is_fifo alg).
    - destruct (Hq eq_refl) as [q ->]. simpl. rewrite Nat.eqb_refl. eauto.
    - eauto. }
  destruct Hrem as [q' [-> Hq']].
  destruct (list_set_some (memory m) f (Some (mkFrame p n (color pr))))
    as [mem' Hs].
  { apply nth_error_Some. congruence. }
  match goal with
  | |- context [place now 1 p n alg f ?m2] =>
      destruct (place_fields now 1 p n alg f m2 pr mem' Hp Hs)
        as [m' [H1 [H2 [H3 [H4 [H5 [H6 H7]]]]]]]
  end.
  exists m', mem'. rewrite H1. repeat split; auto.
  - rewrite H3. simpl. apply dict_set_absent.
    apply (dict_get_None _ Seqb_eq). intros Hx. apply dict_del_keys in Hx.
    apply (dict_get_None _ Seqb_eq) in He. contradiction.
  - rewrite H4. simpl. exact Hq'.
Qed.

(** ** Accesses keep the manager consistent *)

Lemma table_view_set pt k e e' :
  dict_get String.eqb k pt = Some e -> frame_num e' = frame_num e ->
  table_view (dict_set String.eqb k e' pt) = table_view pt.
Proof.
  intros H Hf. induction pt as [|[k0 v0] pt IH]; simpl in *; [discriminate|].
  destruct (String.eqb k0 k) eqn:E; simpl.
  - inversion H; subst. now rewrite Hf.
  - now rewrite IH.
Qed.

Lemma occupied_set mem f x mem' :
  list_set f (Some x) mem = Some mem' ->
  forall j, occupied_at mem' j = (Nat.eqb j f || occupied_at mem j)%bool.
Proof.
  intros H j. apply list_set_nth in H. destruct H as [_ [_ H]].
  unfold occupied_at. rewrite H. destruct (Nat.eqb j f); reflexivity.
Qed.

Lemma NoDup_snoc {A} (l : list A) x : NoDup l -> ~ In x l -> NoDup (l ++ [x]).
Proof.
  intros H1 H2. apply (Permutation_NoDup (Permutation_cons_append l x)).
  now constructor.
Qed.

Lemma allocate_page_consistent now p n alg m :
  consistent m ->
  consistent (snd (allocate_page now p n alg m))
  /\ (is_fifo alg = true -> queue_complete m ->
      queue_complete (snd (allocate_page now p n alg m))).
Proof.
  intros C.
  destruct (dict_get Z.eqb p (processes m)) as [pr|] eqn:Hp.
  2:{ unfold allocate_page, dict_mem. rewrite Hp. simpl. auto. }
  destruct (dict_get String.eqb (page_key p n) (page_table m)) as [e|] eqn:He.
  { destruct (allocate_page_hit now p n alg m pr e Hp He)
      as [m' [-> [H1 [H2 [H3 [H4 [H5 H6]]]]]]]. simpl.
    split.
    - destruct C as [C1 C2 C3 C4 C5 C6 C7 C8].
      constructor; rewrite ?H1, ?H2, ?H3, ?H4, ?H5; auto.
      + erewrite dict_set_keys; eauto.
      + erewrite table_view_set; eauto.
    - unfold queue_complete. rewrite H1, H3. auto. }
  destruct (find_free_frame m) as [f|] eqn:Hf.
  { destruct (allocate_page_free now p n alg m pr f Hp He Hf)
      as [m' [mem' [-> [Hn [Hs [H1 [H2 [H3 [H4 [H5 H6]]]]]]]]]]. simpl.
    pose proof (occupied_set _ _ _ _ Hs) as Hocc.
    assert (Hfree : occupied_at (memory m) f = false)
      by (unfold occupied_at; now rewrite Hn).
    split.
    - pose proof C as [C1 C2 C3 C4 C5 C6 C7 C8].
      constructor; rewrite ?H1, ?H2, ?H4, ?H5; auto.
      + rewrite map_app. simpl. apply NoDup_snoc; auto.
        now apply (dict_get_None _ Seqb_eq).
      + rewrite table_view_app. simpl.
        rewrite <- Permutation_cons_append, C2.
        symmetry. apply (resident_set_free 0 _ _ _ _ Hn Hs).
      + intros j fr Hj. apply list_set_nth in Hs. destruct Hs as [_ [_ Hs]].
        rewrite Hs in Hj. destruct (Nat.eqb j f); [|eauto].
        inversion Hj; subst. simpl. eapply dict_get_mem; eauto.
      + rewrite H3. destruct (is_fifo alg); auto.
        apply NoDup_snoc; auto. intros Hin. apply C7 in Hin. congruence.
      + intros j Hj. rewrite Hocc. rewrite H3 in Hj.
        destruct (is_fifo alg).
        * apply in_app_or in Hj. destruct Hj as [Hj|[<-|[]]].
          -- rewrite (C7 _ Hj). apply orb_true_r.
          -- now rewrite Nat.eqb_refl.
        * rewrite (C7 _ Hj). apply orb_true_r.
    - intros Hfifo Hq j. rewrite H1, H3, Hfifo, Hocc. intros Hj.
      apply in_or_app. apply orb_true_iff in Hj. destruct Hj as [Hj|Hj].
      + right. apply Nat.eqb_eq in Hj. now left.
      + left. auto. }
  destruct (if is_fifo alg then find_victim_fifo m else find_victim_lru m)
    as [f|] eqn:Hv.
  2:{ rewrite (allocate_page_noframe now p n alg m pr Hp He Hf Hv). simpl.
      split; [now apply (consistent_ext m)|]. intros _ Hq. exact Hq. }
  destruct (allocate_page_replace now p n alg m pr f C Hp He Hf Hv)
    as [old [Hold [Hq Hres]]].
  destruct (fr_page_num old <? 0).
  { rewrite Hres. simpl.
    split; [now apply (consistent_ext m)|]. intros _ Hc. exact Hc. }
  destruct Hres as [m' [mem' [-> [Hs [H1 [H2 [H3 [H4 [H5 H6]]]]]]]]]. simpl.
  pose proof (occupied_set _ _ _ _ Hs) as Hocc.
  assert (Hwas : occupied_at (memory m) f = true)
    by (apply occupied_at_nth; eauto).
  assert (Hsame : forall j, occupied_at mem' j = occupied_at (memory m) j).
  { intros j. rewrite Hocc. destruct (Nat.eqb j f) eqn:E; [|reflexivity].
    apply Nat.eqb_eq in E. subst. now rewrite Hwas. }
  split.
  - pose proof C as [C1 C2 C3 C4 C5 C6 C7 C8].
    constructor; rewrite ?H1, ?H2, ?H4, ?H5; auto.
    + rewrite map_app. simpl. apply NoDup_snoc.
      * now apply NoDup_dict_del.
      * intros Hin. apply dict_del_keys in Hin.
        now apply (dict_get_None _ Seqb_eq) in He.
    + rewrite table_view_app. simpl. rewrite <- Permutation_cons_append.
      apply (Permutation_cons_inv
               (a := (f, page_key (fr_pid old) (fr_page_num old)))).
      rewrite (resident_set_occupied 0 _ _ _ _ _ Hold Hs). simpl.
      rewrite perm_swap. apply perm_skip.
      rewrite <- C2. symmetry. apply table_view_del; auto.
      apply consistent_entry; auto.
    + intros j fr Hj. apply list_set_nth in Hs. destruct Hs as [_ [_ Hs]].
      rewrite Hs in Hj. destruct (Nat.eqb j f); [|eauto].
      inversion Hj; subst. simpl. eapply dict_get_mem; eauto.
    + rewrite H3. destruct (is_fifo alg); auto.
      destruct (Hq eq_refl) as [q Hqueue]. rewrite Hqueue in *. simpl.
      inversion C6; subst. now apply NoDup_snoc.
    + intros j Hj. rewrite Hsame. rewrite H3 in Hj.
      destruct (is_fifo alg); auto.
      destruct (Hq eq_refl) as [q Hqueue]. rewrite Hqueue in *. simpl in Hj.
      apply C7. apply in_app_or in Hj. destruct Hj as [Hj|[<-|[]]];
        [now right | now left].
  - intros Hfifo Hc j. rewrite H1, H3, Hfifo, Hsame. intros Hj.
    apply Hc in Hj. destruct (Hq Hfifo) as [q Hqueue]. rewrite Hqueue in *.
    simpl. apply in_or_app. destruct Hj as [<-|Hj]; [right; now left | now left].
Qed.

(** ** The loops of [remove_process] *)

Open Scope nat_scope.

Lemma queue_remove_filter i q :
  NoDup q ->
  (if queue_mem i q
   then match queue_remove i q with Some r => r | None => q end
   else q) = filter (fun j => negb (Nat.eqb j i)) q.
Proof.
  unfold queue_mem. induction q as [|y q IH]; simpl; [reflexivity|].
  intros Hnd. inversion Hnd as [|? ? Hy Hq]; subst.
  rewrite (Nat.eqb_sym i y). destruct (Nat.eqb y i) eqn:E; simpl.
  - apply Nat.eqb_eq in E. subst y. symmetry. apply forallb_filter_id.
    apply forallb_forall. intros j Hj. apply negb_true_iff, Nat.eqb_neq.
    intros ->. contradiction.
  - specialize (IH Hq). destruct (existsb (Nat.eqb i) q) eqn:Ex.
    + destruct (queue_remove i q) as [r|]; simpl; f_equal; exact IH.
    + f_equal; exact IH.
Qed.

Lemma free_frame_step_spec p mem q i mem1 q1 :
  NoDup q ->
  free_frame_step p (mem, q) i = (mem1, q1) ->
  (forall j, nth_error mem1 j
             = if Nat.eqb j i then option_map (clear_owned p) (nth_error mem j)
               else nth_error mem j)
  /\ q1 = filter (fun j => negb (Nat.eqb j i && owned_at p mem i)) q.
Proof.
  intros Hnd. unfold free_frame_step, owned_at.
  assert (Hid : forall x, clear_owned p x = x ->
                nth_error mem i = Some x ->
                forall j, nth_error mem j
                          = if Nat.eqb j i
                            then option_map (clear_owned p) (nth_error mem j)
                            else nth_error mem j).
  { intros x Hx Hi j. destruct (Nat.eqb j i) eqn:E; [|reflexivity].
    apply Nat.eqb_eq in E. subst j. rewrite Hi. simpl. now rewrite Hx. }
  assert (Hq : forall b, b = false ->
               q = filter (fun j => negb (Nat.eqb j i && b)) q).
  { intros b ->. symmetry. rewrite <- (filter_true q) at 2.
    apply filter_ext. intros j. now rewrite andb_false_r. }
  destruct (nth_error mem i) as [[fr|]|] eqn:E.
  - simpl. destruct (Z.eqb (fr_pid fr) p) eqn:Ep.
    + intros [= <- <-]. split.
      * destruct (list_set_some mem i None) as [mem' Hs].
        { apply nth_error_Some. congruence. }
        rewrite Hs. apply list_set_nth in Hs. destruct Hs as [_ [_ Hs]].
        intros j. rewrite Hs. destruct (Nat.eqb j i) eqn:Ej; [|reflexivity].
        apply Nat.eqb_eq in Ej. subst j. rewrite E. simpl.
        unfold clear_owned. simpl. now rewrite Ep.
      * rewrite queue_remove_filter by assumption.
        apply filter_ext. intros j. now rewrite andb_true_r.
    + intros [= <- <-]. split.
      * apply (Hid (Some fr)); auto. unfold clear_owned. simpl. now rewrite Ep.
      * now apply Hq.
  - intros [= <- <-]. split; [apply (Hid None); auto | now apply Hq].
  - intros [= <- <-]. split; [|now apply Hq].
    intros j. destruct (Nat.eqb j i) eqn:Ej; [|reflexivity].
    apply Nat.eqb_eq in Ej. subst j. now rewrite E.
Qed.

Lemma filter_twice {A} (f g : A -> bool) l :
  filter f (filter g l) = filter (fun x => g x && f x) l.
Proof.
  induction l as [|a l IH]; simpl; [reflexivity|].
  destruct (g a); simpl; [|exact IH]. destruct (f a); now rewrite IH.
Qed.

Lemma free_loop p k : forall i mem q mem' q',
  NoDup q ->
  fold_left (free_frame_step p) (seq i k) (mem, q) = (mem', q') ->
  (forall j, nth_error mem' j
             = if (i <=? j) && (j <? i + k)
               then option_map (clear_owned p) (nth_error mem j)
               else nth_error mem j)
  /\ q' = filter (fun j => negb ((i <=? j) && (j <? i + k) && owned_at p mem j)) q.
Proof.
  induction k as [|k IH]; intros i mem q mem' q' Hnd; cbn [seq fold_left].
  - intros [= <- <-]. split.
    + intros j. destruct (i <=? j) eqn:E1, (j <? i + 0) eqn:E2; try reflexivity.
      apply Nat.leb_le in E1. apply Nat.ltb_lt in E2. lia.
    + symmetry. rewrite <- (filter_true q) at 2. apply filter_ext_in.
      intros j _. destruct (i <=? j) eqn:E1, (j <? i + 0) eqn:E2; try reflexivity.
      apply Nat.leb_le in E1. apply Nat.ltb_lt in E2. lia.
  - destruct (free_frame_step p (mem, q) i) as [mem1 q1] eqn:Hstep.
    destruct (free_frame_step_spec p mem q i mem1 q1 Hnd Hstep) as [Hm1 Hq1].
    intros Hfold.
    assert (Hnd1 : NoDup q1) by (rewrite Hq1; now apply NoDup_filter).
    destruct (IH (S i) mem1 q1 mem' q' Hnd1 Hfold) as [Hm' Hq'].
    split.
    + intros j. rewrite Hm', (Hm1 j).
      destruct (Nat.eqb j i) eqn:Ej.
      * apply Nat.eqb_eq in Ej. subst j.
        replace (S i <=? i) with false by (symmetry; apply Nat.leb_gt; lia).
        replace (i <=? i) with true by (symmetry; apply Nat.leb_le; lia).
        replace (i <? i + S k) with true by (symmetry; apply Nat.ltb_lt; lia).
        reflexivity.
      * apply Nat.eqb_neq in Ej.
        replace (j <? S i + k) with (j <? i + S k) by (f_equal; lia).
        destruct (i <=? j) eqn:E1, (S i <=? j) eqn:E2; try reflexivity.
        -- apply Nat.leb_le in E1. apply Nat.leb_gt in E2. lia.
        -- apply Nat.leb_gt in E1. apply Nat.leb_le in E2. lia.
    + rewrite Hq', Hq1, filter_twice. apply filter_ext. intros j.
      unfold owned_at. rewrite (Hm1 j).
      replace (j <? S i + k) with (j <? i + S k) by (f_equal; lia).
      destruct (Nat.eqb j i) eqn:Ej.
      * apply Nat.eqb_eq in Ej. subst j.
        replace (S i <=? i) with false by (symmetry; apply Nat.leb_gt; lia).
        replace (i <=? i) with true by (symmetry; apply Nat.leb_le; lia).
        replace (i <? i + S k) with true by (symmetry; apply Nat.ltb_lt; lia).
        simpl. now rewrite andb_true_r.
      * apply Nat.eqb_neq in Ej. cbn [negb andb].
        destruct (i <=? j) eqn:E1, (S i <=? j) eqn:E2; try reflexivity.
        -- apply Nat.leb_le in E1. apply Nat.leb_gt in E2. lia.
        -- apply Nat.leb_gt in E1. apply Nat.leb_le in E2. lia.
Qed.

(** The loop over the frames empties the frames of the process and drops
    them from the queue. *)
Lemma free_frames_spec p mem q :
  NoDup q ->
  free_frames p mem q
  = (map (clear_owned p) mem, filter (fun j => negb (owned_at p mem j)) q).
Proof.
  intros Hnd. unfold free_frames.
  destruct (fold_left (free_frame_step p) (seq 0 (length mem)) (mem, q))
    as [mem' q'] eqn:Hfold.
  destruct (free_loop p _ _ _ _ _ _ Hnd Hfold) as [Hm Hq]. f_equal.
  - apply nth_error_ext. intros j. rewrite Hm, nth_error_map. simpl.
    destruct (j <? length mem) eqn:E; [reflexivity|].
    apply Nat.ltb_ge in E. apply nth_error_None in E. now rewrite E.
  - rewrite Hq. apply filter_ext. intros j. simpl. unfold owned_at.
    destruct (j <? length mem) eqn:E; [reflexivity|].
    apply Nat.ltb_ge in E. apply nth_error_None in E. now rewrite E.
Qed.

Open Scope Z_scope.

Lemma del_keys_filter (ks : list string) : forall (pt : list (string * PageEntry)),
  NoDup (map fst pt) ->
  fold_left (fun d k => dict_del String.eqb k d) ks pt
  = filter (fun kv => negb (existsb (String.eqb (fst kv)) ks)) pt.
Proof.
  induction ks as [|k ks IH]; intros pt Hnd; simpl.
  - symmetry. apply filter_true.
  - rewrite IH by now apply NoDup_dict_del.
    rewrite (dict_del_filter _ Seqb_eq) by assumption.
    rewrite filter_twice. apply filter_ext. intros [k1 v1]. simpl.
    now rewrite negb_orb.
Qed.

(** The loop over [keys_to_remove] deletes the entries whose key starts
    with the prefix of the process. *)
Lemma del_prefix_filter p (pt : list (string * PageEntry)) :
  NoDup (map fst pt) ->
  fold_left (fun d k => dict_del String.eqb k d)
            (filter (key_of p) (map fst pt)) pt
  = filter (fun kv => negb (key_of p (fst kv))) pt.
Proof.
  intros Hnd. rewrite del_keys_filter by assumption.
  apply filter_ext_in. intros [k v] Hin. simpl. f_equal.
  destruct (key_of p k) eqn:E.
  - apply existsb_exists. exists k. split; [|apply String.eqb_refl].
    apply filter_In. split; [|exact E]. now apply (in_map fst) in Hin.
  - destruct (existsb _ _) eqn:Ex; [|reflexivity].
    apply existsb_exists in Ex. destruct Ex as [k' [Hk' Heq]].
    apply String.eqb_eq in Heq. subst k'. apply filter_In in Hk'.
    destruct Hk' as [_ Hk']. congruence.
Qed.

(** [remove_process] on an existing process. *)
Lemma remove_process_fields now p m pr :
  NoDup (allocation_queue m) -> NoDup (map fst (page_table m)) ->
  dict_get Z.eqb p (processes m) = Some pr ->
  exists m',
    remove_process now p m = (Returned ok_plain, m')
    /\ memory m' = map (clear_owned p) (memory m)
    /\ allocation_queue m'
       = filter (fun j => negb (owned_at p (memory m) j)) (allocation_queue m)
    /\ page_table m' = filter (fun kv => negb (key_of p (fst kv))) (page_table m)
    /\ processes m' = dict_del Z.eqb p (processes m)
    /\ process_counter m' = process_counter m
    /\ stats m' = stats m
    /\ memory_size m' = memory_size m.
Proof.
  intros Hq Hk Hp. unfold remove_process.
  rewrite (dict_get_mem _ _ _ Hp). simpl negb. cbv iota.
  rewrite free_frames_spec by assumption.
  eexists. split; [reflexivity|]. simpl. repeat split.
  now apply del_prefix_filter.
Qed.

Lemma Permutation_filter {A} (f : A -> bool) l l' :
  Permutation l l' -> Permutation (filter f l) (filter f l').
Proof.
  induction 1 as [|x l l' H IH|x y l|l l' l'' H1 IH1 H2 IH2]; simpl.
  - constructor.
  - destruct (f x); auto.
  - destruct (f x), (f y); auto. apply perm_swap.
  - now transitivity (filter f l').
Qed.

Lemma resident_clear p mem : forall i,
  0 <= p ->
  (forall fr, In (Some fr) mem -> 0 <= fr_pid fr) ->
  resident_from i (map (clear_owned p) mem)
  = filter (fun fk => negb (key_of p (snd fk))) (resident_from i mem).
Proof.
  induction mem as [|[fr|] mem IH]; intros i Hp Hall; simpl.
  - reflexivity.
  - assert (Hfr : 0 <= fr_pid fr) by (apply Hall; now left).
    unfold clear_owned at 1. simpl. unfold key_of at 1.
    destruct (fr_pid fr =? p) eqn:E.
    + apply Z.eqb_eq in E.
      replace (String.prefix _ _) with true
        by (symmetry; apply key_prefix_owner; auto).
      simpl. apply IH; auto. intros fr' H. apply Hall. now right.
    + apply Z.eqb_neq in E.
      replace (String.prefix _ _) with false.
      * simpl. f_equal. apply IH; auto. intros fr' H. apply Hall. now right.
      * symmetry. apply not_true_is_false. intros H.
        apply key_prefix_owner in H; auto.
  - apply IH; auto. intros fr' H. apply Hall. now right.
Qed.

Lemma remove_process_consistent now p m :
  consistent m ->
  consistent (snd (remove_process now p m))
  /\ (queue_complete m -> queue_complete (snd (remove_process now p m))).
Proof.
  intros C.
  destruct (dict_get Z.eqb p (processes m)) as [pr|] eqn:Hp.
  2:{ unfold remove_process, dict_mem. rewrite Hp. simpl. auto. }
  pose proof C as [C1 C2 C3 C4 C5 C6 C7 C8].
  destruct (remove_process_fields now p m pr C6 C1 Hp)
    as [m' [-> [H1 [H2 [H3 [H4 [H5 [H6 H7]]]]]]]]. simpl.
  assert (Hpos : 0 < p)
    by (apply (dict_get_In _ Zeqb_eq) in Hp; eauto).
  assert (Hkeep : forall j fr,
             nth_error (map (clear_owned p) (memory m)) j = Some (Some fr) ->
             nth_error (memory m) j = Some (Some fr) /\ fr_pid fr <> p).
  { intros j fr. rewrite nth_error_map.
    destruct (nth_error (memory m) j) as [[fr'|]|]; simpl; try discriminate.
    unfold clear_owned. simpl. destruct (fr_pid fr' =? p) eqn:E; [discriminate|].
    intros [= <-]. apply Z.eqb_neq in E. auto. }
  assert (Hstay : forall j, occupied_at (memory m) j = true ->
                            owned_at p (memory m) j = false ->
                            occupied_at (map (clear_owned p) (memory m)) j = true).
  { intros j. unfold occupied_at, owned_at. rewrite nth_error_map.
    destruct (nth_error (memory m) j) as [[fr'|]|]; simpl; try discriminate.
    unfold clear_owned. simpl. now intros _ ->. }
  split.
  - constructor; rewrite ?H1, ?H2, ?H3, ?H4, ?H5; auto.
    + replace (map fst (filter (fun kv => negb (key_of p (fst kv))) (page_table m)))
        with (filter (fun k => negb (key_of p k)) (map fst (page_table m)))
        by apply filter_map_swap.
      now apply NoDup_filter.
    + unfold table_view at 1.
      rewrite resident_clear; [|lia|].
      * replace (map _ (filter _ (page_table m)))
          with (filter (fun fk => negb (key_of p (snd fk)))
                       (table_view (page_table m)))
          by apply filter_map_swap.
        now apply Permutation_filter.
      * intros fr Hin. apply In_nth_error in Hin. destruct Hin as [j Hj].
        apply Z.lt_le_incl. eapply consistent_owner; eauto.
    + intros j fr Hj. apply Hkeep in Hj. destruct Hj as [Hj Hne].
      unfold dict_mem. rewrite (dict_get_del_other _ Zeqb_eq) by assumption.
      apply (C3 _ _ Hj).
    + intros q pr' Hin. apply dict_del_In in Hin. eauto.
    + now apply NoDup_filter.
    + intros j Hj. apply filter_In in Hj. destruct Hj as [Hj Hown].
      apply negb_true_iff in Hown. auto.
    + now apply dict_del_NoDup.
  - intros Hc j. rewrite H1, H2. intros Hj.
    apply occupied_at_nth in Hj. destruct Hj as [fr Hj].
    apply Hkeep in Hj. destruct Hj as [Hj Hne].
    apply filter_In. split.
    + apply Hc. apply occupied_at_nth. eauto.
    + unfold owned_at. rewrite Hj. simpl.
      apply negb_true_iff, Z.eqb_neq. exact Hne.
Qed.

(** ** Every reachable state is consistent *)

Lemma resident_repeat_None i n : resident_from i (repeat None n) = [].
Proof. revert i. induction n as [|n IH]; intros i; simpl; auto. Qed.

Lemma occupied_repeat_None n f : occupied_at (repeat None n) f = false.
Proof.
  unfold occupied_at. destruct (nth_error (repeat None n) f) as [[fr|]|] eqn:E;
    try reflexivity.
  apply nth_error_In, repeat_spec in E. discriminate.
Qed.

Lemma init_consistent n : consistent (init n) /\ queue_complete (init n).
Proof.
  split.
  - constructor; simpl; try constructor; try tauto.
    + rewrite resident_repeat_None. constructor.
    + intros f fr H. apply nth_error_In, repeat_spec in H. discriminate.
  - intros f. simpl. now rewrite occupied_repeat_None.
Qed.

Lemma create_process_consistent now sz m :
  consistent m ->
  consistent (snd (create_process now sz m))
  /\ (queue_complete m -> queue_complete (snd (create_process now sz m))).
Proof.
  intros [C1 C2 C3 C4 C5 C6 C7 C8]. split; [|auto].
  constructor; simpl; auto; try lia.
  - intros f fr H. apply C3 in H. unfold dict_mem in *.
    destruct (Z.eq_dec (fr_pid fr) (process_counter m)) as [->|Hne].
    + now rewrite (dict_get_set_same _ Zeqb_eq).
    + now rewrite (dict_get_set_other _ Zeqb_eq).
  - intros p pr Hin. apply (dict_set_In _ Zeqb_eq) in Hin.
    destruct Hin as [[= -> _]|Hin]; eauto.
  - now apply (dict_set_NoDup _ Zeqb_eq).
Qed.

Lemma step_consistent m c :
  consistent m ->
  consistent (step m c)
  /\ (fifo_call c -> queue_complete m -> queue_complete (step m c)).
Proof.
  intros C. destruct c as [now [sz|p n alg|p|]]; unfold step, fifo_call; simpl.
  - destruct (create_process_consistent now sz m C); auto.
  - apply allocate_page_consistent; auto.
  - destruct (remove_process_consistent now p m C); auto.
  - destruct (init_consistent (memory_size m)); auto.
Qed.

Lemma reachable_consistent n m : reachable n m -> consistent m.
Proof.
  intros H. pattern m. revert m H. apply reachable_induction.
  - apply init_consistent.
  - intros m c _ IH. now apply step_consistent.
Qed.

Lemma fifo_run_complete n cs :
  Forall fifo_call cs -> queue_complete (run cs (init n)).
Proof.
  induction cs as [|c cs IH] using rev_ind; intros H.
  - apply init_consistent.
  - rewrite run_snoc. apply Forall_app in H. destruct H as [H1 H2].
    inversion H2; subst.
    apply step_consistent; auto. apply (reachable_consistent n). now exists cs.
Qed.

Lemma consistent_count m :
  consistent m -> count_occupied (memory m) = length (page_table m).
Proof.
  intros C. rewrite <- (resident_from_length 0).
  rewrite <- (Permutation_length (c_table m C)).
  unfold table_view. now rewrite length_map.
Qed.

Lemma reachable_length n m : reachable n m -> length (memory m) = n.
Proof.
  intros H. pattern m. revert m H. apply reachable_induction.
  - simpl. apply repeat_length.
  - intros m c Hreach IH. pose proof (reachable_consistent n m Hreach) as Hr.
    destruct c as [now [sz|p g alg|p|]]; unfold step; simpl; auto.
    + destruct (allocate_page now p g alg m) as [r m'] eqn:Ha. simpl.
      revert Ha. unfold allocate_page.
      assert (Hp : forall k f m1 r1 m1',
                 place now k p g alg f m1 = (r1, m1') ->
                 length (memory m1') = length (memory m1)).
      { unfold place. intros k f m1 r1 m1' Hp.
        destruct (dict_get Z.eqb p (processes m1)); [|now inversion Hp].
        destruct (list_set f _ (memory m1)) as [mem|] eqn:Hs; [|now inversion Hp].
        apply list_set_nth in Hs. destruct Hs as [Hs _].
        inversion Hp; subst. destruct (is_fifo alg); simpl; auto. }
      destruct (negb _); [now intros [= _ <-]|].
      destruct (dict_get String.eqb _ (page_table m)); [now intros [= _ <-]|].
      destruct (find_free_frame _) as [f|].
      * intros Ha. apply Hp in Ha. simpl in Ha. congruence.
      * destruct (if is_fifo alg then _ else _) as [f|]; [|now intros [= _ <-]].
        destruct (evict now f alg (count_fault m)) as [[k|e] m2] eqn:He;
          apply evict_processes in He; simpl in He; destruct He as [_ [He _]].
        -- intros Ha. apply Hp in Ha. congruence.
        -- intros [= _ <-]. congruence.
    + destruct (dict_get Z.eqb p (processes m)) as [pr|] eqn:Hp.
      * destruct (remove_process_fields now p m pr (c_queue m Hr) (c_keys m Hr) Hp)
          as [m' [-> [H1 _]]]. simpl. rewrite H1, length_map. exact IH.
      * unfold remove_process, dict_mem. rewrite Hp. simpl. exact IH.
    + rewrite repeat_length. now apply reachable_memory_size.
Qed.

(** ** Claims about all runs *)

(** C5: in every state reached from a fresh manager, whatever the calls
    and the policies were, the number of non-empty frames is the number of
    entries of the page table. *)
Theorem frames_match_entries n m :
  reachable n m -> count_occupied (memory m) = length (page_table m).
Proof.
  intros H. apply consistent_count. now apply (reachable_consistent n).
Qed.

Lemma frames_match_entries_witness :
  let m := run [(tick 10, CreateProcess 3);
                (tick 20, AccessPage 1 0 LRU);
                (tick 30, AccessPage 1 1 FIFO);
                (tick 40, AccessPage 1 2 FIFO)] (init 2) in
  count_occupied (memory m) = length (page_table m).
Proof.
  intros m. apply (frames_match_entries 2 m).
  exists [(tick 10, CreateProcess 3);
          (tick 20, AccessPage 1 0 LRU);
          (tick 30, AccessPage 1 1 FIFO);
          (tick 40, AccessPage 1 2 FIFO)].
  reflexivity.
Defined.

(** C4, as the code has it: after every run the queue holds occupied
    frames only, each once; when every access of the run used the FIFO
    policy, the queue holds exactly the occupied frames. *)
Theorem queue_matches_occupied n cs :
  let m := run cs (init n) in
  NoDup (allocation_queue m)
  /\ (forall f, In f (allocation_queue m) -> In f (occupied_frames (memory m)))
  /\ (Forall fifo_call cs ->
      forall f, In f (allocation_queue m) <-> In f (occupied_frames (memory m))).
Proof.
  intros m.
  assert (C : consistent m) by (apply (reachable_consistent n); now exists cs).
  split; [exact (c_queue m C)|]. split.
  - intros f Hf. apply occupied_frames_In. now apply (c_queue_occ m C).
  - intros Hfifo f. split.
    + intros Hf. apply occupied_frames_In. now apply (c_queue_occ m C).
    + intros Hf. apply occupied_frames_In in Hf.
      now apply (fifo_run_complete n cs Hfifo).
Qed.

Lemma queue_matches_occupied_witness :
  let m := run [(tick 10, CreateProcess 3);
                (tick 20, AccessPage 1 0 FIFO);
                (tick 30, AccessPage 1 1 FIFO);
                (tick 40, AccessPage 1 2 FIFO)] (init 2) in
  In 1%nat (allocation_queue m) <-> In 1%nat (occupied_frames (memory m)).
Proof.
  intros m.
  apply (queue_matches_occupied 2
           [(tick 10, CreateProcess 3);
            (tick 20, AccessPage 1 0 FIFO);
            (tick 30, AccessPage 1 1 FIFO);
            (tick 40, AccessPage 1 2 FIFO)]).
  repeat constructor.
Defined.

(** C4 as stated fails: an access under LRU occupies frame 0 and leaves
    the queue empty. *)
Lemma lru_access_skips_queue :
  let m := run [(tick 10, CreateProcess 2);
                (tick 20, AccessPage 1 0 LRU)] (init 2) in
  occupied_frames (memory m) = [0%nat]
  /\ allocation_queue m = []
  /\ ~ (forall f, In f (allocation_queue m) <-> In f (occupied_frames (memory m))).
Proof.
  vm_compute. repeat split. intros H. apply (H 0%nat). now left.
Qed.

(** ** Removing a process *)

Lemma dict_get_filter {V} (P : string -> bool) k (d : list (string * V)) :
  dict_get String.eqb k (filter (fun kv => P (fst kv)) d)
  = if P k then dict_get String.eqb k d else None.
Proof.
  induction d as [|[k1 v1] d IH]; simpl; [now destruct (P k)|].
  destruct (P k1) eqn:E1; simpl; destruct (String.eqb k1 k) eqn:E2; auto.
  - apply String.eqb_eq in E2. subst. now rewrite E1.
  - apply String.eqb_eq in E2. subst. now rewrite IH, E1.
Qed.

Lemma owned_frames_entries p mem : forall i,
  0 <= p ->
  (forall fr, In (Some fr) mem -> 0 <= fr_pid fr) ->
  length (filter (fun fk => key_of p (snd fk)) (resident_from i mem))
  = length (filter (owned_by p) mem).
Proof.
  induction mem as [|[fr|] mem IH]; intros i Hp Hall; simpl.
  - reflexivity.
  - assert (Hfr : 0 <= fr_pid fr) by (apply Hall; now left).
    assert (IH' := IH (S i) Hp (fun fr' H => Hall fr' (or_intror H))).
    unfold key_of at 1. destruct (fr_pid fr =? p) eqn:E.
    + apply Z.eqb_eq in E.
      replace (String.prefix _ _) with true
        by (symmetry; apply key_prefix_owner; auto).
      simpl. now rewrite IH'.
    + apply Z.eqb_neq in E.
      replace (String.prefix _ _) with false; [exact IH'|].
      symmetry. apply not_true_is_false. intros H.
      apply key_prefix_owner in H; auto.
  - apply IH; auto. intros fr' H. apply Hall. now right.
Qed.

Lemma count_cleared p mem :
  (count_occupied (map (clear_owned p) mem)
   + length (filter (owned_by p) mem))%nat = count_occupied mem.
Proof.
  unfold count_occupied.
  induction mem as [|[fr|] mem IH]; simpl; auto.
  unfold clear_owned in *. simpl. destruct (fr_pid fr =? p); simpl; lia.
Qed.

(** C7: removing an existing process empties the frames it owns and no
    other, as many as it has entries in the page table; deletes its entries
    and no other; and deletes its descriptor and no other. *)
Theorem remove_process_exact n m now p pr :
  reachable n m ->
  dict_get Z.eqb p (processes m) = Some pr ->
  exists m',
    remove_process now p m = (Returned ok_plain, m')
    /\ (forall j, nth_error (memory m') j
                  = match nth_error (memory m) j with
                    | Some (Some fr) =>
                        if fr_pid fr =? p then Some None else Some (Some fr)
                    | other => other
                    end)
    /\ length (filter (owned_by p) (memory m))
       = length (filter (fun kv => key_of p (fst kv)) (page_table m))
    /\ (count_occupied (memory m')
        + length (filter (fun kv => key_of p (fst kv)) (page_table m)))%nat
       = count_occupied (memory m)
    /\ page_table m'
       = filter (fun kv => negb (key_of p (fst kv))) (page_table m)
    /\ (forall k e, In (k, e) (page_table m) ->
                    (key_of p k = true <-> exists g, k = page_key p g))
    /\ (forall g, dict_get String.eqb (page_key p g) (page_table m') = None)
    /\ (forall q g, q <> p -> 0 < q ->
                    dict_get String.eqb (page_key q g) (page_table m')
                    = dict_get String.eqb (page_key q g) (page_table m))
    /\ dict_get Z.eqb p (processes m') = None
    /\ (forall q, q <> p ->
                  dict_get Z.eqb q (processes m') = dict_get Z.eqb q (processes m)).
Proof.
  intros Hr Hp. pose proof (reachable_consistent n m Hr) as C.
  destruct (remove_process_fields now p m pr (c_queue m C) (c_keys m C) Hp)
    as [m' [Heq [H1 [H2 [H3 [H4 [H5 [H6 H7]]]]]]]].
  assert (Hpos : 0 < p).
  { apply (dict_get_In _ Zeqb_eq) in Hp. exact (c_pids m C _ _ Hp). }
  assert (Hall : forall fr, In (Some fr) (memory m) -> 0 <= fr_pid fr).
  { intros fr Hin. apply In_nth_error in Hin. destruct Hin as [j Hj].
    apply Z.lt_le_incl. eapply consistent_owner; eauto. }
  assert (Hcount : length (filter (owned_by p) (memory m))
                   = length (filter (fun kv => key_of p (fst kv)) (page_table m))).
  { rewrite <- (owned_frames_entries p (memory m) 0) by (auto; lia).
    rewrite <- (Permutation_length
                  (Permutation_filter (fun fk => key_of p (snd fk)) _ _
                                      (c_table m C))).
    unfold table_view.
    replace (filter _ (map _ (page_table m)))
      with (map (fun kv => (frame_num (snd kv), fst kv))
                (filter (fun kv => key_of p (fst kv)) (page_table m)))
      by (symmetry; apply filter_map_swap).
    now rewrite length_map. }
  exists m'. split; [exact Heq|]. split; [|split; [|split; [|split]]].
  - intros j. rewrite H1, nth_error_map.
    destruct (nth_error (memory m) j) as [[fr|]|]; simpl; auto.
    unfold clear_owned. simpl. now destruct (fr_pid fr =? p).
  - exact Hcount.
  - rewrite H1, <- Hcount. apply count_cleared.
  - exact H3.
  - split; [|split; [|split; [|split]]].
    + intros k e Hin.
      assert (Hv : In (frame_num e, k) (table_view (page_table m))).
      { unfold table_view. apply in_map_iff. now exists (k, e). }
      destruct (consistent_frame m _ _ C Hv) as [fr [_ [-> Hfr]]].
      unfold key_of. rewrite key_prefix_owner by lia. split.
      * intros ->. eauto.
      * intros [g Hg]. apply page_key_inj in Hg; lia.
    + intros g. rewrite H3.
      rewrite (dict_get_filter (fun k => negb (key_of p k))).
      unfold key_of.
      replace (String.prefix _ (page_key p g)) with true; [reflexivity|].
      symmetry. apply key_prefix_owner; lia.
    + intros q g Hne Hq. rewrite H3.
      rewrite (dict_get_filter (fun k => negb (key_of p k))).
      unfold key_of.
      replace (String.prefix _ (page_key q g)) with false; [reflexivity|].
      symmetry. apply not_true_is_false. intros H.
      apply key_prefix_owner in H; lia.
    + rewrite H4. apply (dict_get_del_same _ Zeqb_eq). exact (c_procs m C).
    + intros q Hne. rewrite H4. now apply (dict_get_del_other _ Zeqb_eq).
Qed.

Lemma remove_process_exact_witness :
  let m := run [(tick 10, CreateProcess 3);
                (tick 20, CreateProcess 2);
                (tick 30, AccessPage 1 0 FIFO);
                (tick 40, AccessPage 2 1 FIFO);
                (tick 50, AccessPage 1 2 FIFO)] (init 4) in
  exists m', remove_process (tick 60) 1 m = (Returned ok_plain, m')
             /\ count_occupied (memory m') = 1%nat.
Proof.
  intros m.
  destruct (remove_process_exact 4 m (tick 60) 1
              (fst (create_process (tick 10) 3 (init 4))))
    as [m' [Heq [_ [_ [Hc _]]]]].
  - exists [(tick 10, CreateProcess 3);
            (tick 20, CreateProcess 2);
            (tick 30, AccessPage 1 0 FIFO);
            (tick 40, AccessPage 2 1 FIFO);
            (tick 50, AccessPage 1 2 FIFO)].
    reflexivity.
  - vm_compute. reflexivity.
  - exists m'. split; [exact Heq|].
    change (count_occupied (memory m)) with 3%nat in Hc.
    change (length (filter (fun kv => key_of 1 (fst kv)) (page_table m)))
      with 2%nat in Hc.
    lia.
Defined.

(** ** Filling the frames *)

Lemma first_free_full i mem :
  first_free i mem = None <-> count_occupied mem = length mem.
Proof.
  unfold count_occupied. revert i.
  induction mem as [|[fr|] mem IH]; intros i; simpl.
  - tauto.
  - rewrite IH. split; [auto | now intros [= H]].
  - split; [discriminate|]. intros H.
    pose proof (filter_length_le
                  (fun x : option Frame =>
                     match x with Some _ => true | None => false end) mem).
    lia.
Qed.

Lemma request_key_inj m0 x y :
  consistent m0 -> known m0 x -> known m0 y ->
  request_key x = request_key y -> snd x = snd y.
Proof.
  intros C Hx Hy H. unfold known in *.
  apply dict_mem_get in Hx, Hy. destruct Hx as [px Hx], Hy as [py Hy].
  apply (dict_get_In _ Zeqb_eq) in Hx, Hy.
  apply (c_pids m0 C) in Hx, Hy.
  destruct x as [nx [p g]], y as [ny [q k]]. unfold request_key in H.
  simpl in *. apply page_key_inj in H; try lia. destruct H; congruence.
Qed.

Lemma request_key_fresh m0 x l :
  consistent m0 -> known m0 x -> Forall (known m0) l ->
  ~ In (snd x) (map snd l) -> ~ In (request_key x) (map request_key l).
Proof.
  intros C Hx Hl Hn Hin. apply Hn. apply in_map_iff in Hin.
  destruct Hin as [y [Hk Hy]]. apply in_map_iff. exists y. split; [|exact Hy].
  rewrite Forall_forall in Hl. symmetry.
  apply (request_key_inj m0 x y C Hx (Hl y Hy)). now symmetry.
Qed.

Lemma loaded_start n alg m0 :
  reachable n m0 -> count_occupied (memory m0) = 0%nat -> loaded alg m0 [] m0.
Proof.
  intros Hr H0. pose proof (reachable_consistent n m0 Hr) as C.
  assert (Hpt : page_table m0 = []).
  { apply length_zero_iff_nil. rewrite <- (consistent_count m0 C). exact H0. }
  assert (Hq : allocation_queue m0 = []).
  { destruct (allocation_queue m0) as [|f q] eqn:E; [reflexivity|].
    assert (Hocc : occupied_at (memory m0) f = true)
      by (apply (c_queue_occ m0 C); rewrite E; now left).
    apply occupied_at_nth in Hocc. destruct Hocc as [fr Hocc].
    apply (consistent_entry m0 f fr C) in Hocc.
    rewrite Hpt in Hocc. destruct Hocc. }
  constructor; rewrite ?Hpt, ?Hq; simpl; auto; lia.
Qed.

Lemma load_pages n alg m0 (C0 : consistent m0) : forall todo done m,
  reachable n m -> loaded alg m0 done m ->
  Forall (known m0) (done ++ todo) ->
  NoDup (map snd (done ++ todo)) ->
  (length (done ++ todo) <= n)%nat ->
  reachable n (run (accesses alg todo) m)
  /\ loaded alg m0 (done ++ todo) (run (accesses alg todo) m).
Proof.
  induction todo as [|x todo IH]; intros done m Hr L Hk Hnd Hlen.
  - rewrite app_nil_r. simpl. auto.
  - change (run (accesses alg (x :: todo)) m)
      with (run (accesses alg todo) (step m (access alg x))).
    replace (done ++ x :: todo) with ((done ++ [x]) ++ todo) in *
      by (rewrite <- app_assoc; reflexivity).
    pose proof (reachable_consistent n m Hr) as C.
    assert (Hkx : known m0 x).
    { rewrite Forall_forall in Hk. apply Hk. apply in_or_app. left.
      apply in_or_app. right. now left. }
    assert (Hkd : Forall (known m0) done).
    { apply Forall_app in Hk. destruct Hk as [Hk _].
      apply Forall_app in Hk. tauto. }
    destruct (dict_mem_get _ _ Hkx) as [pr Hp].
    rewrite <- (l_procs alg m0 done m L) in Hp.
    assert (Hfresh : dict_get String.eqb (request_key x) (page_table m) = None).
    { apply (dict_get_None _ Seqb_eq). rewrite (l_keys alg m0 done m L).
      apply (request_key_fresh m0); auto.
      rewrite !map_app in Hnd. apply NoDup_app_remove_r in Hnd.
      apply NoDup_remove_2 in Hnd. simpl in Hnd. rewrite app_nil_r in Hnd.
      exact Hnd. }
    assert (Hfree : exists f, find_free_frame m = Some f).
    { unfold find_free_frame.
      destruct (first_free 0 (memory m)) as [f|] eqn:E; [eauto|].
      apply first_free_full in E.
      rewrite (consistent_count m C), (reachable_length n m Hr) in E.
      rewrite <- (length_map fst), (l_keys alg m0 done m L), length_map in E.
      rewrite !length_app in Hlen. simpl in Hlen. lia. }
    destruct Hfree as [f Hf].
    destruct (allocate_page_free (fst x) (fst (snd x)) (snd (snd x)) alg m pr f
                                 Hp Hfresh Hf)
      as [m' [mem' [Ha [_ [_ [H1 [H2 [H3 [H4 [H5 H6]]]]]]]]]].
    assert (Hstep : step m (access alg x) = m').
    { unfold step, access, perform. now rewrite Ha. }
    rewrite Hstep.
    apply IH; auto.
    + rewrite <- Hstep. now apply reachable_step.
    + destruct L as [L1 L2 L3 L4 L5 L6].
      constructor; rewrite ?H2, ?H4, ?H6, ?map_app, ?length_app; simpl.
      * now rewrite L1.
      * now rewrite L2.
      * intros Hfifo. rewrite H3, Hfifo, (L3 Hfifo). reflexivity.
      * exact L4.
      * rewrite L5. lia.
      * exact L6.
Qed.

Lemma frames_of_set pt k e e' :
  dict_get String.eqb k pt = Some e -> frame_num e' = frame_num e ->
  map (fun kv => frame_num (snd kv)) (dict_set String.eqb k e' pt)
  = map (fun kv => frame_num (snd kv)) pt.
Proof.
  intros H Hf. pose proof (table_view_set pt k e e' H Hf) as Hv.
  apply (f_equal (map fst)) in Hv. unfold table_view in Hv.
  rewrite !map_map in Hv. exact Hv.
Qed.

(** Accesses to resident pages change neither the frames, nor the keys and
    frames of the page table, nor the queue. *)
Lemma hit_pages n alg : forall hits m,
  reachable n m ->
  Forall (fun x => known m x /\ In (request_key x) (map fst (page_table m))) hits ->
  let m' := run (accesses alg hits) m in
  reachable n m'
  /\ map fst (page_table m') = map fst (page_table m)
  /\ map (fun kv => frame_num (snd kv)) (page_table m')
     = map (fun kv => frame_num (snd kv)) (page_table m)
  /\ allocation_queue m' = allocation_queue m
  /\ memory m' = memory m
  /\ processes m' = processes m
  /\ page_faults (stats m') = page_faults (stats m)
  /\ page_hits (stats m') = page_hits (stats m) + Z.of_nat (length hits).
Proof.
  induction hits as [|x hits IH]; intros m Hr Hall.
  - simpl. repeat split; auto. lia.
  - change (run (accesses alg (x :: hits)) m)
      with (run (accesses alg hits) (step m (access alg x))).
    inversion Hall as [|? ? [Hk Hin] Hrest]; subst.
    destruct (dict_mem_get _ _ Hk) as [pr Hp].
    destruct (dict_get String.eqb (request_key x) (page_table m)) as [e|] eqn:He.
    2:{ apply (dict_get_None _ Seqb_eq) in He. contradiction. }
    destruct (allocate_page_hit (fst x) (fst (snd x)) (snd (snd x)) alg m pr e
                                Hp He)
      as [m1 [Ha [H1 [H2 [H3 [H4 [H5 H6]]]]]]].
    assert (Hstep : step m (access alg x) = m1).
    { unfold step, access, perform. now rewrite Ha. }
    rewrite Hstep.
    assert (Hkeys : map fst (page_table m1) = map fst (page_table m)).
    { rewrite H2. eapply dict_set_keys; eauto. }
    assert (Hfr : map (fun kv => frame_num (snd kv)) (page_table m1)
                  = map (fun kv => frame_num (snd kv)) (page_table m)).
    { rewrite H2. eapply frames_of_set; eauto. }
    destruct (IH m1) as [I1 [I2 [I3 [I4 [I5 [I6 [I7 I8]]]]]]].
    + rewrite <- Hstep. now apply reachable_step.
    + eapply Forall_impl; [|exact Hrest]. intros y [Hy1 Hy2].
      unfold known in *. now rewrite H4, Hkeys.
    + cbv zeta. repeat split; try congruence.
      * rewrite I7, H6. reflexivity.
      * rewrite I8, H6. simpl. lia.
Qed.

(** The state once [first :: others] have filled every frame. *)
Lemma full_after_load n alg m0 all m :
  reachable n m -> loaded alg m0 all m -> length all = n ->
  find_free_frame m = None.
Proof.
  intros Hr L Hlen. unfold find_free_frame. apply first_free_full.
  rewrite (consistent_count m (reachable_consistent n m Hr)).
  rewrite (reachable_length n m Hr).
  rewrite <- (length_map fst), (l_keys alg m0 all m L), length_map. exact Hlen.
Qed.

Lemma dict_del_middle (pt1 pt2 : list (string * PageEntry)) k e :
  ~ In k (map fst pt1) ->
  dict_del String.eqb k (pt1 ++ (k, e) :: pt2) = pt1 ++ pt2.
Proof.
  induction pt1 as [|[k1 e1] pt1 IH]; simpl; intros H.
  - now rewrite String.eqb_refl.
  - destruct (String.eqb k1 k) eqn:E.
    + apply String.eqb_eq in E. tauto.
    + rewrite IH; tauto.
Qed.

Lemma dict_mem_keys k (d : list (string * PageEntry)) :
  In k (map fst d) -> dict_mem String.eqb k d = true.
Proof.
  intros H. unfold dict_mem.
  destruct (dict_get String.eqb k d) eqn:E; [reflexivity|].
  apply (dict_get_None _ Seqb_eq) in E. contradiction.
Qed.

(** The fault that finds every frame taken and the page of request [x],
    with a non-negative number, in the victim frame: that page leaves the
    page table, the new page takes its frame, nothing else moves. *)
Lemma replace_victim n m now p g alg pr f (x : Request) e pt1 pt2 :
  reachable n m ->
  dict_get Z.eqb p (processes m) = Some pr ->
  dict_get String.eqb (page_key p g) (page_table m) = None ->
  find_free_frame m = None ->
  (if is_fifo alg then find_victim_fifo m else find_victim_lru m) = Some f ->
  page_table m = pt1 ++ (request_key x, e) :: pt2 ->
  frame_num e = f ->
  known m x -> 0 <= snd (snd x) ->
  exists m',
    allocate_page now p g alg m = (Returned ok_fault, m')
    /\ page_table m'
       = pt1 ++ pt2 ++ [(page_key p g, mkEntry f (now 1%nat) (now 1%nat))]
    /\ nth_error (memory m') f = Some (Some (mkFrame p g (color pr)))
    /\ stats m' = stats (count_fault m)
    /\ dict_get String.eqb (request_key x) (page_table m') = None.
Proof.
  intros Hr Hp He Hf Hv Hpt Hfr Hk Hpage.
  pose proof (reachable_consistent n m Hr) as C.
  destruct (allocate_page_replace now p g alg m pr f C Hp He Hf Hv)
    as [old [Hold [_ Hres]]].
  assert (Hin : In (f, request_key x) (table_view (page_table m))).
  { rewrite Hpt, table_view_app. apply in_or_app. right. left.
    simpl. now rewrite Hfr. }
  destruct (consistent_frame m f _ C Hin) as [fr [Hfr' [Hkey Hpos]]].
  assert (fr = old) by congruence. subst fr.
  assert (Hxpos : 0 < fst (snd x)).
  { destruct (dict_mem_get _ _ Hk) as [px Hx].
    apply (dict_get_In _ Zeqb_eq) in Hx. exact (c_pids m C _ _ Hx). }
  unfold request_key in Hkey. apply page_key_inj in Hkey; try lia.
  destruct Hkey as [Hk1 Hk2].
  replace (fr_page_num old <? 0) with false in Hres
    by (symmetry; apply Z.ltb_ge; lia).
  destruct Hres as [m' [mem' [Ha [Hs [H1 [H2 [H3 [H4 [H5 H6]]]]]]]]].
  assert (Hnd : NoDup (map fst (page_table m))) by exact (c_keys m C).
  rewrite Hpt, map_app in Hnd. simpl in Hnd.
  assert (Hout : ~ In (request_key x) (map fst pt1 ++ map fst pt2))
    by (now apply NoDup_remove_2).
  assert (Htable : page_table m'
                   = pt1 ++ pt2
                       ++ [(page_key p g, mkEntry f (now 1%nat) (now 1%nat))]).
  { rewrite H2, <- Hk1, <- Hk2. fold (request_key x). rewrite Hpt.
    rewrite dict_del_middle.
    - now rewrite <- app_assoc.
    - intros H. apply Hout. apply in_or_app. now left. }
  exists m'. repeat split; auto.
  - rewrite H1. apply list_set_nth in Hs. destruct Hs as [_ [_ Hs]].
    now rewrite Hs, Nat.eqb_refl.
  - apply (dict_get_None _ Seqb_eq). rewrite Htable, !map_app. simpl.
    intros H. apply in_app_or in H. destruct H as [H|H].
    + apply Hout. apply in_or_app. now left.
    + apply in_app_or in H. destruct H as [H|[H|[]]].
      * apply Hout. apply in_or_app. now right.
      * apply (dict_get_None _ Seqb_eq) in He. apply He.
        rewrite H, Hpt, map_app. apply in_or_app. right. now left.
Qed.

(** ** The two replacement policies *)

Lemma known_same_page m (x y : Request) :
  snd x = snd y -> known m y -> known m x.
Proof. unfold known. now intros ->. Qed.

Lemma request_key_same (x y : Request) :
  snd x = snd y -> request_key x = request_key y.
Proof. unfold request_key. now intros ->. Qed.

(** C2: under FIFO, from a state with every frame free, after faults on
    [n] distinct pages (one per frame) and any number of hits on them, a
    fault on a further page evicts the page that was loaded first, and
    gives its frame to the new page.  Page numbers are those of the
    contract of [access_page]: the one of the first page is not negative. *)
Theorem fifo_evicts_first n m0 (first : Request) (others hits : list Request)
        now p g :
  reachable n m0 ->
  count_occupied (memory m0) = 0%nat ->
  length (first :: others) = n ->
  NoDup (map snd (first :: others)) ->
  Forall (known m0) (first :: others) ->
  Forall (fun x => In (snd x) (map snd (first :: others))) hits ->
  dict_mem Z.eqb p (processes m0) = true ->
  ~ In (p, g) (map snd (first :: others)) ->
  0 <= snd (snd first) ->
  let m1 := run (accesses FIFO (first :: others) ++ accesses FIFO hits) m0 in
  let res := allocate_page now p g FIFO m1 in
  fst res = Returned ok_fault
  /\ page_faults (stats (snd res)) = page_faults (stats m0) + Z.of_nat n + 1
  /\ page_hits (stats (snd res))
     = page_hits (stats m0) + Z.of_nat (length hits)
  /\ (exists e pr,
         dict_get String.eqb (request_key first) (page_table m1) = Some e
         /\ nth_error (memory (snd res)) (frame_num e)
            = Some (Some (mkFrame p g (color pr)))
         /\ exists e',
             dict_get String.eqb (page_key p g) (page_table (snd res)) = Some e'
             /\ frame_num e' = frame_num e)
  /\ dict_get String.eqb (request_key first) (page_table (snd res)) = None
  /\ Forall (fun x => dict_mem String.eqb (request_key x)
                               (page_table (snd res)) = true) others.
Proof.
  intros Hr H0 Hlen Hnd Hk Hhits Hp Hnew Hpage m1 res.
  pose proof (reachable_consistent n m0 Hr) as C0.
  set (all := first :: others) in *.
  destruct (load_pages n FIFO m0 C0 all [] m0 Hr (loaded_start n FIFO m0 Hr H0))
    as [HrA LA];
    [exact Hk | exact Hnd | change (length all <= n)%nat; lia |].
  simpl app in LA. set (mA := run (accesses FIFO all) m0) in *.
  assert (HhitsA : Forall (fun x => known mA x
                            /\ In (request_key x) (map fst (page_table mA))) hits).
  { eapply Forall_impl; [|exact Hhits]. intros x Hx.
    apply in_map_iff in Hx. destruct Hx as [y [Hy Hin]].
    rewrite Forall_forall in Hk. split.
    - unfold known. rewrite (l_procs _ _ _ _ LA).
      apply (known_same_page m0 x y); auto.
    - rewrite (l_keys _ _ _ _ LA), (request_key_same x y) by auto.
      now apply in_map. }
  destruct (hit_pages n FIFO hits mA HrA HhitsA)
    as [HrB [B1 [B2 [B3 [B4 [B5 [B6 B7]]]]]]].
  assert (Hm1 : m1 = run (accesses FIFO hits) mA)
    by (unfold m1; now rewrite run_app).
  rewrite <- Hm1 in *. clear Hm1.
  destruct (dict_mem_get _ _ Hp) as [pr Hpr].
  rewrite <- (l_procs _ _ _ _ LA), <- B5 in Hpr.
  assert (Hkeys : map fst (page_table m1) = map request_key all)
    by (rewrite B1; exact (l_keys _ _ _ _ LA)).
  destruct (page_table m1) as [|[k1 e1] pt2] eqn:Hpt; [discriminate|].
  simpl in Hkeys. injection Hkeys as Hk1 Hk2. subst k1.
  assert (Hfresh : dict_get String.eqb (page_key p g) (page_table m1) = None).
  { rewrite Hpt. apply (dict_get_None _ Seqb_eq). simpl map. rewrite Hk2.
    apply (request_key_fresh m0 (now, (p, g)) all); auto. }
  assert (Hfull : find_free_frame m1 = None).
  { unfold find_free_frame. rewrite B4.
    apply (full_after_load n FIFO m0 all mA HrA LA Hlen). }
  assert (Hvictim : find_victim_fifo m1 = Some (frame_num e1)).
  { unfold find_victim_fifo.
    rewrite B3, (l_queue _ _ _ _ LA eq_refl), <- B2. reflexivity. }
  assert (Hkfirst : known m1 first).
  { unfold known. rewrite B5, (l_procs _ _ _ _ LA).
    rewrite Forall_forall in Hk. apply Hk. now left. }
  destruct (replace_victim n m1 now p g FIFO pr (frame_num e1) first e1 [] pt2
                           HrB Hpr Hfresh Hfull Hvictim Hpt eq_refl Hkfirst Hpage)
    as [m' [Ha [T1 [T2 [T3 T4]]]]].
  unfold res. rewrite Ha. simpl fst. simpl snd.
  split; [reflexivity|]. split; [|split; [|split; [|split]]].
  - rewrite T3. cbn [stats count_fault with_stats page_faults].
    rewrite B6, (l_faults _ _ _ _ LA), Hlen. lia.
  - rewrite T3. cbn [stats count_fault with_stats page_hits].
    rewrite B7, (l_hits _ _ _ _ LA). lia.
  - exists e1, pr. split; [simpl; now rewrite String.eqb_refl|].
    split; [exact T2|]. eexists. split.
    + rewrite T1. simpl. rewrite <- (dict_set_absent String.eqb).
      * apply (dict_get_set_same _ Seqb_eq).
      * apply (dict_get_None _ Seqb_eq). intros Hin.
        apply (dict_get_None _ Seqb_eq) in Hfresh. apply Hfresh.
        rewrite Hpt. simpl. now right.
    + reflexivity.
  - exact T4.
  - apply Forall_forall. intros x Hx. apply dict_mem_keys.
    rewrite T1. simpl. rewrite map_app, Hk2. apply in_or_app. left.
    now apply in_map.
Qed.

Lemma fifo_evicts_first_witness :
  let m0 := run [(tick 1, CreateProcess 2); (tick 5, CreateProcess 2)] (init 2) in
  let m1 := run (accesses FIFO [(tick 20, (1, 0)); (tick 30, (1, 1))]
                   ++ accesses FIFO [(tick 40, (1, 0))]) m0 in
  let res := allocate_page (tick 60) 2 0 FIFO m1 in
  fst res = Returned ok_fault
  /\ dict_get String.eqb (page_key 1 0) (page_table (snd res)) = None.
Proof.
  intros m0 m1 res.
  destruct (fifo_evicts_first 2 m0 (tick 20, (1, 0)) [(tick 30, (1, 1))]
              [(tick 40, (1, 0))] (tick 60) 2 0)
    as [H1 [_ [_ [_ [H2 _]]]]].
  - exists [(tick 1, CreateProcess 2); (tick 5, CreateProcess 2)]. reflexivity.
  - reflexivity.
  - reflexivity.
  - simpl. constructor.
    + simpl. intros [H|[]]. discriminate.
    + constructor; [simpl; tauto | constructor].
  - repeat constructor.
  - repeat constructor.
  - reflexivity.
  - simpl. intros [H|[H|[]]]; discriminate.
  - simpl. lia.
  - split; assumption.
Defined.

Lemma lru_scan_keep items o v :
  Forall (fun t => o <= t) (map (fun kv => last_used (snd kv)) items) ->
  lru_scan items (Some o) v = v.
Proof.
  induction items as [|[k e] items IH]; simpl; intros H; [reflexivity|].
  inversion H; subst.
  replace (last_used e <? o) with false by (symmetry; apply Z.ltb_ge; lia).
  auto.
Qed.

(** C3: under LRU, from a state with every frame free, after faults on
    [n] distinct pages (one per frame) and a hit on the first of them, a
    fault on a further page evicts the page that was loaded second.  The
    clock is read as the specification describes it: the hit is stamped
    after the allocation of the second page, and no later page is stamped
    before the second; the number of the second page is not negative. *)
Theorem lru_hit_protects_oldest n m0 (first second : Request)
        (others : list Request) hnow now p g :
  reachable n m0 ->
  count_occupied (memory m0) = 0%nat ->
  length (first :: second :: others) = n ->
  NoDup (map snd (first :: second :: others)) ->
  Forall (known m0) (first :: second :: others) ->
  dict_mem Z.eqb p (processes m0) = true ->
  ~ In (p, g) (map snd (first :: second :: others)) ->
  0 <= snd (snd second) ->
  fst second 0%nat < hnow 0%nat ->
  Forall (fun x => fst second 0%nat <= fst x 0%nat) others ->
  let m1 := run (accesses LRU (first :: second :: others)
                   ++ [access LRU (hnow, snd first)]) m0 in
  let res := allocate_page now p g LRU m1 in
  fst res = Returned ok_fault
  /\ page_faults (stats (snd res)) = page_faults (stats m0) + Z.of_nat n + 1
  /\ page_hits (stats (snd res)) = page_hits (stats m0) + 1
  /\ (exists e pr,
         dict_get String.eqb (request_key second) (page_table m1) = Some e
         /\ nth_error (memory (snd res)) (frame_num e)
            = Some (Some (mkFrame p g (color pr)))
         /\ exists e',
             dict_get String.eqb (page_key p g) (page_table (snd res)) = Some e'
             /\ frame_num e' = frame_num e)
  /\ dict_get String.eqb (request_key second) (page_table (snd res)) = None
  /\ dict_mem String.eqb (request_key first) (page_table (snd res)) = true
  /\ Forall (fun x => dict_mem String.eqb (request_key x)
                               (page_table (snd res)) = true) others.
Proof.
  intros Hr H0 Hlen Hnd Hk Hp Hnew Hpage Hrecent Hlater m1 res.
  pose proof (reachable_consistent n m0 Hr) as C0.
  set (all := first :: second :: others) in *.
  destruct (load_pages n LRU m0 C0 all [] m0 Hr (loaded_start n LRU m0 Hr H0))
    as [HrA LA];
    [exact Hk | exact Hnd | change (length all <= n)%nat; lia |].
  simpl app in LA. set (mA := run (accesses LRU all) m0) in *.
  assert (Hm1 : m1 = step mA (access LRU (hnow, snd first)))
    by (unfold m1; now rewrite run_snoc).
  pose proof (l_keys _ _ _ _ LA) as Hkeys.
  pose proof (l_stamps _ _ _ _ LA) as Hstamps.
  destruct (page_table mA) as [|[k1 e1] [|[k2 e2] ptr]] eqn:HptA;
    try discriminate.
  simpl in Hkeys, Hstamps.
  injection Hkeys as Hk1 Hk2 Hk3. injection Hstamps as Hs1 Hs2 Hs3.
  subst k1 k2.
  assert (Hkfirst : known m0 first)
    by (rewrite Forall_forall in Hk; apply Hk; now left).
  assert (Hksecond : known m0 second)
    by (rewrite Forall_forall in Hk; apply Hk; right; now left).
  destruct (dict_mem_get _ _ Hkfirst) as [pr1 Hpr1].
  rewrite <- (l_procs _ _ _ _ LA) in Hpr1.
  destruct (allocate_page_hit hnow (fst (snd first)) (snd (snd first)) LRU mA
                              pr1 e1 Hpr1)
    as [mB [Ha [B1 [B2 [B3 [B4 [B5 B6]]]]]]].
  { fold (request_key first). rewrite HptA. simpl. now rewrite String.eqb_refl. }
  assert (HmB : m1 = mB).
  { rewrite Hm1. unfold step, access, perform. simpl. now rewrite Ha. }
  assert (HrB : reachable n m1) by (rewrite Hm1; now apply reachable_step).
  unfold res. clear res. rewrite HmB in *. clear Hm1 HmB m1.
  fold (request_key first) in B2. rewrite HptA in B2. simpl in B2.
  rewrite String.eqb_refl in B2.
  destruct (dict_mem_get _ _ Hp) as [pr Hpr].
  rewrite <- (l_procs _ _ _ _ LA), <- B4 in Hpr.
  assert (Hfresh : dict_get String.eqb (page_key p g) (page_table mB) = None).
  { apply (dict_get_None _ Seqb_eq). rewrite B2. simpl map. rewrite Hk3.
    apply (request_key_fresh m0 (now, (p, g)) all); auto. }
  assert (Hfull : find_free_frame mB = None).
  { unfold find_free_frame. rewrite B1.
    apply (full_after_load n LRU m0 all mA HrA LA Hlen). }
  assert (Hvictim : find_victim_lru mB = Some (frame_num e2)).
  { unfold find_victim_lru. rewrite B2. simpl.
    replace (last_used e2 <? hnow 0%nat) with true
      by (symmetry; apply Z.ltb_lt; rewrite Hs2; exact Hrecent).
    apply lru_scan_keep. rewrite Hs3, Hs2.
    rewrite Forall_map. exact Hlater. }
  assert (HkB : known mB second).
  { unfold known. now rewrite B4, (l_procs _ _ _ _ LA). }
  destruct (replace_victim n mB now p g LRU pr (frame_num e2) second e2
                           [(request_key first,
                             mkEntry (frame_num e1) (alloc_time e1) (hnow 0%nat))]
                           ptr HrB Hpr Hfresh Hfull Hvictim B2 eq_refl HkB Hpage)
    as [m' [Hfin [T1 [T2 [T3 T4]]]]].
  rewrite Hfin. simpl fst. simpl snd.
  split; [reflexivity|]. split; [|split; [|split; [|split; [|split]]]].
  - rewrite T3. cbn [stats count_fault with_stats page_faults].
    rewrite B6. cbn [stats count_hit with_stats page_faults].
    rewrite (l_faults _ _ _ _ LA), Hlen. lia.
  - rewrite T3. cbn [stats count_fault with_stats page_hits].
    rewrite B6. cbn [stats count_hit with_stats page_hits].
    rewrite (l_hits _ _ _ _ LA). lia.
  - exists e2, pr. split.
    + rewrite B2. cbn [dict_get].
      destruct (String.eqb (request_key first) (request_key second)) eqn:E.
      * apply String.eqb_eq in E.
        apply (request_key_inj m0 first second C0 Hkfirst Hksecond) in E.
        inversion Hnd as [|? ? Hn1 _]. exfalso. apply Hn1. simpl.
        left. now symmetry.
      * now rewrite String.eqb_refl.
    + split; [exact T2|].
      exists (mkEntry (frame_num e2) (now 1%nat) (now 1%nat)).
      split; [|reflexivity].
      rewrite T1. cbn [app dict_get].
      destruct (String.eqb (request_key first) (page_key p g)) eqn:E.
      * apply String.eqb_eq in E. apply (dict_get_None _ Seqb_eq) in Hfresh.
        exfalso. apply Hfresh. rewrite B2, <- E. now left.
      * rewrite <- (dict_set_absent String.eqb).
        -- apply (dict_get_set_same _ Seqb_eq).
        -- apply (dict_get_None _ Seqb_eq). intros Hin.
           apply (dict_get_None _ Seqb_eq) in Hfresh. apply Hfresh.
           rewrite B2. simpl. right. now right.
  - exact T4.
  - apply dict_mem_keys. rewrite T1. now left.
  - apply Forall_forall. intros x Hx. apply dict_mem_keys.
    rewrite T1. simpl. right. rewrite map_app, Hk3. apply in_or_app. left.
    now apply in_map.
Qed.

Lemma lru_hit_protects_oldest_witness :
  let m0 := run [(tick 1, CreateProcess 2); (tick 5, CreateProcess 2)] (init 3) in
  let m1 := run (accesses LRU [(tick 20, (1, 0)); (tick 30, (1, 1));
                               (tick 35, (2, 0))]
                   ++ [access LRU (tick 40, (1, 0))]) m0 in
  let res := allocate_page (tick 60) 2 1 LRU m1 in
  fst res = Returned ok_fault
  /\ dict_get String.eqb (page_key 1 1) (page_table (snd res)) = None
  /\ dict_mem String.eqb (page_key 1 0) (page_table (snd res)) = true.
Proof.
  intros m0 m1 res.
  destruct (lru_hit_protects_oldest 3 m0 (tick 20, (1, 0)) (tick 30, (1, 1))
              [(tick 35, (2, 0))] (tick 40) (tick 60) 2 1)
    as [H1 [_ [_ [_ [H2 [H3 _]]]]]].
  - exists [(tick 1, CreateProcess 2); (tick 5, CreateProcess 2)]. reflexivity.
  - reflexivity.
  - reflexivity.
  - simpl. constructor.
    + simpl. intros [H|[H|[]]]; discriminate.
    + constructor.
      * simpl. intros [H|[]]. discriminate.
      * constructor; [simpl; tauto | constructor].
  - repeat constructor.
  - reflexivity.
  - simpl. intros [H|[H|[H|[]]]]; discriminate.
  - simpl. lia.
  - unfold tick. simpl. lia.
  - repeat constructor. unfold tick. simpl. lia.
  - repeat split; assumption.
Defined.

(** The tie-break of the LRU scan: when the clock has not advanced between
    the allocation of the second page and the hit on the first, the two
    stamps are equal and the scan keeps the entry it met first. *)
Remark lru_tie_keeps_first_entry :
  let m0 := run [(tick 1, CreateProcess 3)] (init 2) in
  let m1 := run (accesses LRU [(tick 20, (1, 0)); (tick 30, (1, 1))]
                   ++ [access LRU (tick 30, (1, 0))]) m0 in
  let res := allocate_page (tick 60) 1 2 LRU m1 in
  fst res = Returned ok_fault
  /\ map fst (page_table (snd res)) = ["P1-1"; "P1-2"]%string.
Proof. vm_compute. split; reflexivity. Qed.

(** ** Page numbers out of range *)

(** C9, as the code has it: an access never looks at the page count of the
    process, and answers with a hit, a fault or "No frames available" only.
    For an existing process and any page number: a resident page is a hit;
    otherwise the fault is counted, and the page gets a residency entry in
    the free frame when there is one, or in the victim's frame when the
    victim's page number is not negative; with no victim the answer is
    "No frames available". *)
Theorem access_ignores_page_range n m now p g alg pr :
  reachable n m ->
  dict_get Z.eqb p (processes m) = Some pr ->
  let res := allocate_page now p g alg m in
  (forall r, fst res = Returned r ->
             r = ok_hit \/ r = ok_fault \/ r = failure "No frames available")
  /\ match dict_get String.eqb (page_key p g) (page_table m) with
     | Some _ => fst res = Returned ok_hit
     | None =>
         page_faults (stats (snd res)) = page_faults (stats m) + 1
         /\ match find_free_frame m with
            | Some f =>
                fst res = Returned ok_fault
                /\ exists e,
                    dict_get String.eqb (page_key p g) (page_table (snd res))
                    = Some e /\ frame_num e = f
            | None =>
                match (if is_fifo alg then find_victim_fifo m
                       else find_victim_lru m) with
                | None => fst res = Returned (failure "No frames available")
                | Some f =>
                    exists old,
                    nth_error (memory m) f = Some (Some old)
                    /\ (0 <= fr_page_num old ->
                        fst res = Returned ok_fault
                        /\ exists e,
                            dict_get String.eqb (page_key p g)
                                     (page_table (snd res)) = Some e
                            /\ frame_num e = f)
                end
            end
     end.
Proof.
  intros Hr Hp res. unfold res. clear res.
  pose proof (reachable_consistent n m Hr) as C.
  destruct (dict_get String.eqb (page_key p g) (page_table m)) as [e|] eqn:He.
  { destruct (allocate_page_hit now p g alg m pr e Hp He) as [m' [-> _]].
    simpl. split; [|reflexivity]. intros r [= <-]. now left. }
  destruct (find_free_frame m) as [f|] eqn:Hf.
  { destruct (allocate_page_free now p g alg m pr f Hp He Hf)
      as [m' [mem' [-> [_ [_ [_ [H2 [_ [_ [_ H6]]]]]]]]]].
    simpl. split; [intros r [= <-]; auto|].
    split; [now rewrite H6|]. split; [reflexivity|].
    exists (mkEntry f (now 0%nat) (now 0%nat)). split; [|reflexivity].
    rewrite H2, <- (dict_set_absent String.eqb) by exact He.
    apply (dict_get_set_same _ Seqb_eq). }
  destruct (if is_fifo alg then find_victim_fifo m else find_victim_lru m)
    as [f|] eqn:Hv.
  2:{ rewrite (allocate_page_noframe now p g alg m pr Hp He Hf Hv). simpl.
      split; [intros r [= <-]; auto|]. split; reflexivity. }
  destruct (allocate_page_replace now p g alg m pr f C Hp He Hf Hv)
    as [old [Hold [_ Hres]]].
  destruct (fr_page_num old <? 0) eqn:Hneg.
  { rewrite Hres. simpl. split; [discriminate|]. split; [reflexivity|].
    exists old. split; [exact Hold|]. apply Z.ltb_lt in Hneg. lia. }
  destruct Hres as [m' [mem' [-> [_ [_ [H2 [_ [_ [_ H6]]]]]]]]].
  simpl. split; [intros r [= <-]; auto|].
  split; [now rewrite H6|]. exists old. split; [exact Hold|]. intros _.
  split; [reflexivity|].
  exists (mkEntry f (now 1%nat) (now 1%nat)). split; [|reflexivity].
  rewrite H2, <- (dict_set_absent String.eqb).
  - apply (dict_get_set_same _ Seqb_eq).
  - apply (dict_get_None _ Seqb_eq). intros Hin. apply dict_del_keys in Hin.
    now apply (dict_get_None _ Seqb_eq) in He.
Qed.

Lemma access_ignores_page_range_witness :
  let m := run [(tick 1, CreateProcess 2)] (init 2) in
  let res := allocate_page (tick 20) 1 7 LRU m in
  fst res = Returned ok_fault
  /\ exists e, dict_get String.eqb (page_key 1 7) (page_table (snd res)) = Some e
               /\ frame_num e = 0%nat.
Proof.
  intros m res.
  destruct (access_ignores_page_range 2 m (tick 20) 1 7 LRU
              (fst (create_process (tick 1) 2 (init 2))))
    as [_ H].
  - exists [(tick 1, CreateProcess 2)]. reflexivity.
  - reflexivity.
  - change (dict_get String.eqb (page_key 1 7) (page_table m)) with
      (@None PageEntry) in H.
    change (find_free_frame m) with (Some 0%nat) in H.
    cbv iota in H. exact (proj2 H).
Defined.

(** C9 as stated fails twice.  A page with a negative number is accepted,
    and the later fault that picks it as victim stops with a [ValueError]
    on [int('')]: the call is neither a hit nor a fault and the requested
    page gets no entry.  And with the frames filled under LRU, a FIFO
    access to a page out of range answers "No frames available". *)
Lemma out_of_range_access_fails :
  (let m := run [(tick 1, CreateProcess 2);
                 (tick 20, AccessPage 1 (-1) LRU);
                 (tick 30, AccessPage 1 0 LRU)] (init 2) in
   let res := allocate_page (tick 40) 1 5 LRU m in
   map fst (page_table m) = ["P1--1"; "P1-0"]%string
   /\ fst res = Raised ValueError
   /\ dict_get String.eqb (page_key 1 5) (page_table (snd res)) = None)
  /\ (let m := run [(tick 1, CreateProcess 2);
                    (tick 20, AccessPage 1 0 LRU);
                    (tick 30, AccessPage 1 1 LRU)] (init 2) in
      let res := allocate_page (tick 40) 1 5 FIFO m in
      fst res = Returned (failure "No frames available")
      /\ dict_get String.eqb (page_key 1 5) (page_table (snd res)) = None).
Proof. vm_compute. repeat split. Qed.

(** * Further properties of the code *)

(** ** The event log *)

Lemma add_log_length t msg m :
  (length (logs m) <= 50)%nat -> (length (logs (add_log t msg m)) <= 50)%nat.
Proof.
  intros H. unfold add_log. cbn [logs with_logs].
  destruct (Nat.ltb 50 (length (logs m ++ [mkLog t msg]))) eqn:E.
  - destruct (logs m ++ [mkLog t msg]) as [|x l] eqn:El; simpl; [lia|].
    apply (f_equal (@length LogEntry)) in El. rewrite length_app in El.
    simpl in El. lia.
  - apply Nat.ltb_ge in E. exact E.
Qed.

Ltac log_fields :=
  cbn [logs with_memory with_page_table with_processes with_process_counter
       with_allocation_queue with_stats count_hit count_fault fst snd] in *.

Lemma evict_logs now f alg m r m' :
  (length (logs m) <= 50)%nat -> evict now f alg m = (r, m') ->
  (length (logs m') <= 50)%nat.
Proof.
  intros Hb. unfold evict. intros H.
  repeat match type of H with
         | context [match ?x with _ => _ end] => destruct x
         end;
    inversion H; subst; log_fields; auto using add_log_length.
Qed.

Lemma place_logs now k p g alg f m r m' :
  (length (logs m) <= 50)%nat -> place now k p g alg f m = (r, m') ->
  (length (logs m') <= 50)%nat.
Proof.
  intros Hb. unfold place. intros H.
  destruct (dict_get Z.eqb p (processes m)); [|inversion H; subst; auto].
  destruct (list_set f _ (memory m)); [|inversion H; subst; auto].
  inversion H; subst. apply add_log_length.
  destruct (is_fifo alg); log_fields; auto.
Qed.

Lemma step_logs m c :
  (length (logs m) <= 50)%nat -> (length (logs (step m c)) <= 50)%nat.
Proof.
  intros Hb. destruct c as [now [sz|p g alg|p|]]; unfold step; cbn [perform snd].
  - unfold create_process. cbn [snd]. apply add_log_length. log_fields. auto.
  - destruct (allocate_page now p g alg m) as [r m'] eqn:Ha. cbn [snd].
    revert Ha. unfold allocate_page.
    destruct (negb _); [now intros [= _ <-]|].
    destruct (dict_get String.eqb _ (page_table m)).
    + intros [= _ <-]. apply add_log_length. log_fields. auto.
    + destruct (find_free_frame _) as [f|].
      * apply place_logs. log_fields. auto.
      * destruct (if is_fifo alg then _ else _) as [f|];
          [|intros [= _ <-]; log_fields; auto].
        destruct (evict now f alg (count_fault m)) as [[k|e] m2] eqn:He;
          apply evict_logs in He; try (log_fields; auto; fail).
        -- now apply place_logs.
        -- now intros [= _ <-].
  - unfold remove_process. destruct (negb _); [exact Hb|].
    destruct (free_frames p (memory m) (allocation_queue m)) as [mem q].
    cbn [snd]. apply add_log_length. log_fields. auto.
  - simpl. lia.
Qed.

(** X1: the log never holds more than 50 entries, and logging puts the new
    entry last, dropping the oldest entry when 50 are already held. *)
Theorem log_is_bounded n m t msg :
  reachable n m ->
  (length (logs m) <= 50)%nat
  /\ logs (add_log t msg m)
     = (if Nat.leb 50 (length (logs m)) then tl (logs m) else logs m)
         ++ [mkLog t msg].
Proof.
  intros Hr.
  assert (Hb : (length (logs m) <= 50)%nat).
  { pattern m. revert m Hr. apply reachable_induction.
    - simpl. lia.
    - intros m c _ IH. now apply step_logs. }
  split; [exact Hb|].
  unfold add_log. cbn [logs with_logs]. rewrite length_app. simpl length.
  destruct (Nat.leb 50 (length (logs m))) eqn:E.
  - apply Nat.leb_le in E.
    replace (Nat.ltb 50 (length (logs m) + 1)) with true
      by (symmetry; apply Nat.ltb_lt; lia).
    destruct (logs m); [simpl in E; lia | reflexivity].
  - apply Nat.leb_gt in E.
    replace (Nat.ltb 50 (length (logs m) + 1)) with false
      by (symmetry; apply Nat.ltb_ge; lia).
    reflexivity.
Qed.

Lemma log_is_bounded_witness :
  let m := run [(tick 10, CreateProcess 2);
                (tick 20, AccessPage 1 0 FIFO)] (init 2) in
  (length (logs m) <= 50)%nat.
Proof.
  intros m.
  apply (log_is_bounded 2 m 0 EmptyString).
  exists [(tick 10, CreateProcess 2); (tick 20, AccessPage 1 0 FIFO)].
  reflexivity.
Defined.

(** X2: the snapshot shows the most recent log entries, ten of them at
    most. *)
Theorem snapshot_recent_logs m :
  length (snap_logs (get_state m)) = Nat.min 10 (length (logs m))
  /\ exists older, logs m = older ++ snap_logs (get_state m).
Proof.
  cbn [get_state snap_logs]. split.
  - rewrite length_skipn.
    destruct (Nat.min_spec 10 (length (logs m))) as [[H ->]|[H ->]]; lia.
  - exists (firstn (length (logs m) - 10) (logs m)).
    symmetry. apply firstn_skipn.
Qed.

(** ** Frames and identifiers *)

(** X3: the number of frames never changes: in every state reached from a
    manager built with [n] frames, the stored frame count and the length of
    the frame pool are both [n]. *)
Theorem frame_count_fixed n m :
  reachable n m -> memory_size m = n /\ length (memory m) = n.
Proof.
  intros H. split.
  - now apply reachable_memory_size.
  - now apply reachable_length.
Qed.

Lemma frame_count_fixed_witness :
  let m := run [(tick 10, CreateProcess 3);
                (tick 20, AccessPage 1 0 LRU);
                (tick 30, RemoveProcess 1)] (init 4) in
  memory_size m = 4%nat /\ length (memory m) = 4%nat.
Proof.
  intros m. apply (frame_count_fixed 4 m).
  exists [(tick 10, CreateProcess 3);
          (tick 20, AccessPage 1 0 LRU);
          (tick 30, RemoveProcess 1)].
  reflexivity.
Defined.

Lemma step_counter m c :
  process_counter (step m c)
  = match snd c with
    | CreateProcess _ => process_counter m + 1
    | Reset => 1
    | _ => process_counter m
    end.
Proof.
  destruct c as [now [sz|p g alg|p|]]; unfold step; cbn [perform snd].
  - reflexivity.
  - destruct (allocate_page now p g alg m) as [r m'] eqn:Ha.
    apply allocate_page_processes in Ha. cbn [snd]. tauto.
  - unfold remove_process. destruct (negb _); [reflexivity|].
    destruct (free_frames p (memory m) (allocation_queue m)). reflexivity.
  - reflexivity.
Qed.

Lemma step_processes m c :
  processes (step m c)
  = match snd c with
    | CreateProcess sz =>
        dict_set Z.eqb (process_counter m)
                 (fst (create_process (fst c) sz m)) (processes m)
    | AccessPage _ _ _ => processes m
    | RemoveProcess p => dict_del Z.eqb p (processes m)
    | Reset => []
    end.
Proof.
  destruct c as [now [sz|p g alg|p|]]; unfold step; cbn [perform snd].
  - reflexivity.
  - destruct (allocate_page now p g alg m) as [r m'] eqn:Ha.
    apply allocate_page_processes in Ha. cbn [snd]. tauto.
  - unfold remove_process, dict_mem.
    destruct (dict_get Z.eqb p (processes m)) eqn:E; cbn [negb].
    + destruct (free_frames p (memory m) (allocation_queue m)). reflexivity.
    + cbn [snd]. symmetry. apply (dict_del_absent _ Zeqb_eq).
      now apply (dict_get_None _ Zeqb_eq).
  - reflexivity.
Qed.

Lemma reachable_pids_bounded n m : reachable n m -> pids_bounded m.
Proof.
  intros H. pattern m. revert m H. apply reachable_induction.
  - intros p pr [].
  - intros m c Hr IH p pr. rewrite step_processes, step_counter.
    pose proof (c_counter m (reachable_consistent n m Hr)) as Hc.
    destruct c as [now [sz|q g alg|q|]]; cbn [snd fst].
    + intros Hin. apply (dict_set_In _ Zeqb_eq) in Hin.
      destruct Hin as [[= -> _]|Hin]; [lia|]. apply IH in Hin. lia.
    + apply IH.
    + intros Hin. apply dict_del_In in Hin. now apply IH in Hin.
    + intros [].
Qed.

(** X4: identifiers are handed out in sequence: after any calls on a fresh
    manager, the next identifier is 1 plus the number of [create_process]
    calls made since the last [reset] (or since construction). *)
Theorem pids_are_sequential n cs :
  process_counter (run cs (init n)) = next_pid cs.
Proof.
  unfold next_pid.
  induction cs as [|c cs IH] using rev_ind; [reflexivity|].
  rewrite run_snoc, fold_left_app, step_counter, IH. reflexivity.
Qed.

(** X5: [create_process] never reuses an identifier in use: the new
    descriptor gets the counter as identifier, which is above every
    identifier of the process table; it is stored under that identifier
    and no other descriptor is touched. *)
Theorem created_pid_is_fresh n m now sz :
  reachable n m ->
  let pr := fst (create_process now sz m) in
  let m' := snd (create_process now sz m) in
  pid pr = process_counter m
  /\ (forall q, dict_mem Z.eqb q (processes m) = true -> 1 <= q < pid pr)
  /\ dict_get Z.eqb (pid pr) (processes m) = None
  /\ dict_get Z.eqb (pid pr) (processes m') = Some pr
  /\ (forall q, q <> pid pr ->
                dict_get Z.eqb q (processes m') = dict_get Z.eqb q (processes m))
  /\ process_counter m' = pid pr + 1.
Proof.
  intros Hr pr m'. pose proof (reachable_pids_bounded n m Hr) as Hb.
  assert (Hlt : forall q, dict_mem Z.eqb q (processes m) = true ->
                          1 <= q < process_counter m).
  { intros q Hq. apply dict_mem_get in Hq. destruct Hq as [x Hx].
    apply (dict_get_In _ Zeqb_eq) in Hx. exact (Hb _ _ Hx). }
  unfold pr, m', create_process. cbn [fst snd pid].
  split; [reflexivity|]. split; [exact Hlt|]. split; [|split; [|split]].
  - destruct (dict_get Z.eqb (process_counter m) (processes m)) eqn:E;
      [|reflexivity].
    apply dict_get_mem, Hlt in E. lia.
  - cbn [processes add_log with_logs with_process_counter with_processes].
    apply (dict_get_set_same _ Zeqb_eq).
  - intros q Hq.
    cbn [processes add_log with_logs with_process_counter with_processes].
    now apply (dict_get_set_other _ Zeqb_eq).
  - reflexivity.
Qed.

Lemma created_pid_is_fresh_witness :
  let m := run [(tick 10, CreateProcess 3);
                (tick 20, CreateProcess 2);
                (tick 30, RemoveProcess 2)] (init 4) in
  pid (fst (create_process (tick 40) 4 m)) = 3.
Proof.
  intros m.
  destruct (created_pid_is_fresh 4 m (tick 40) 4) as [H _].
  - exists [(tick 10, CreateProcess 3);
            (tick 20, CreateProcess 2);
            (tick 30, RemoveProcess 2)].
    reflexivity.
  - exact H.
Defined.

(** ** Process descriptors *)

Lemma sorted_snoc (l : list Z) a :
  StronglySorted Z.lt l -> (forall x, In x l -> x < a) ->
  StronglySorted Z.lt (l ++ [a]).
Proof.
  induction l as [|b l IH]; simpl; intros Hs Hlt.
  - constructor; constructor.
  - inversion Hs; subst. constructor.
    + apply IH; auto.
    + apply Forall_app. split; [assumption|]. constructor; auto.
Qed.

Lemma sorted_dict_del {V} k (d : list (Z * V)) :
  StronglySorted Z.lt (map fst d) ->
  StronglySorted Z.lt (map fst (dict_del Z.eqb k d)).
Proof.
  induction d as [|[k1 v1] d IH]; simpl; intros Hs; [constructor|].
  inversion Hs; subst. destruct (k1 =? k); [assumption|].
  simpl. constructor; auto.
  rewrite Forall_forall in *. intros x Hx. apply dict_del_keys_In in Hx. auto.
Qed.

Lemma reachable_descriptors n m :
  reachable n m ->
  StronglySorted Z.lt (map fst (processes m))
  /\ forall p pr, In (p, pr) (processes m) -> built p pr.
Proof.
  intros H. pattern m. revert m H. apply reachable_induction.
  - split; [constructor | intros p pr []].
  - intros m c Hr [IH1 IH2].
    pose proof (reachable_pids_bounded n m Hr) as Hb.
    rewrite step_processes.
    destruct c as [now [sz|q g alg|q|]]; cbn [snd fst].
    + assert (Hnew : dict_get Z.eqb (process_counter m) (processes m) = None).
      { destruct (dict_get Z.eqb (process_counter m) (processes m)) eqn:E;
          [|reflexivity].
        apply (dict_get_In _ Zeqb_eq), Hb in E. lia. }
      rewrite (dict_set_absent Z.eqb _ _ _ Hnew). split.
      * rewrite map_app. apply sorted_snoc; auto.
        intros x Hx. apply in_map_iff in Hx. destruct Hx as [[x' pr'] [<- Hx]].
        apply Hb in Hx. simpl. lia.
      * intros p pr Hin. apply in_app_or in Hin.
        destruct Hin as [Hin|[[= <- <-]|[]]]; [auto|].
        repeat split.
    + auto.
    + split; [now apply sorted_dict_del|].
      intros p pr Hin. apply dict_del_In in Hin. auto.
    + split; [constructor | intros p pr []].
Qed.

(** X6: the snapshot lists the descriptors in increasing order of
    identifier, and each is exactly what [create_process] built: its own
    identifier, the pages 0 .. size-1, the colour computed from the
    identifier; it is the descriptor stored under that identifier. *)
Theorem snapshot_descriptors_in_order n m :
  reachable n m ->
  StronglySorted Z.lt (map pid (snap_processes (get_state m)))
  /\ Forall (fun pr => built (pid pr) pr
                       /\ dict_get Z.eqb (pid pr) (processes m) = Some pr)
            (snap_processes (get_state m)).
Proof.
  intros Hr. destruct (reachable_descriptors n m Hr) as [Hs Hb].
  pose proof (c_procs m (reachable_consistent n m Hr)) as Hnd.
  cbn [get_state snap_processes].
  assert (Hpid : map pid (map snd (processes m)) = map fst (processes m)).
  { rewrite map_map. apply map_ext_in. intros [p pr] Hin.
    destruct (Hb p pr Hin) as [Hp _]. exact Hp. }
  split; [now rewrite Hpid|].
  apply Forall_forall. intros pr Hin. apply in_map_iff in Hin.
  destruct Hin as [[p pr'] [Heq Hin]]. simpl in Heq. subst pr'.
  pose proof (Hb p pr Hin) as Hbuilt. destruct Hbuilt as [Hp Hrest].
  rewrite Hp. split; [repeat split; tauto|].
  now apply (NoDup_dict_get _ Zeqb_eq).
Qed.

Lemma snapshot_descriptors_in_order_witness :
  let m := run [(tick 10, CreateProcess 3);
                (tick 20, CreateProcess 2);
                (tick 30, CreateProcess 4);
                (tick 40, RemoveProcess 2)] (init 4) in
  StronglySorted Z.lt (map pid (snap_processes (get_state m))).
Proof.
  intros m. apply (snapshot_descriptors_in_order 4 m).
  exists [(tick 10, CreateProcess 3);
          (tick 20, CreateProcess 2);
          (tick 30, CreateProcess 4);
          (tick 40, RemoveProcess 2)].
  reflexivity.
Defined.

(** ** The three searches *)

Open Scope nat_scope.

Lemma first_free_lowest i mem f :
  first_free i mem = Some f <->
  exists j, f = i + j /\ nth_error mem j = Some None
            /\ forall j', j' < j -> occupied_at mem j' = true.
Proof.
  revert i. induction mem as [|[fr|] mem IH]; intros i; simpl.
  - split; [discriminate|]. intros [j [_ [H _]]]. now destruct j.
  - rewrite IH. split.
    + intros [j [-> [Hj Hlow]]]. exists (S j). repeat split; [lia | exact Hj|].
      intros [|j'] Hlt; [reflexivity|]. unfold occupied_at. simpl.
      apply Hlow. lia.
    + intros [[|j] [-> [Hj Hlow]]]; [discriminate|].
      exists j. repeat split; [lia | exact Hj|].
      intros j' Hlt. specialize (Hlow (S j')). unfold occupied_at in *.
      simpl in Hlow. apply Hlow. lia.
  - split.
    + intros [= <-]. exists 0. repeat split; [lia|]. intros j' Hlt. lia.
    + intros [[|j] [-> [Hj Hlow]]]; [f_equal; lia|].
      specialize (Hlow 0). unfold occupied_at in Hlow. simpl in Hlow.
      discriminate Hlow. lia.
Qed.

(** X7: [find_free_frame] returns the lowest-numbered empty frame, and
    reports none exactly when every frame is occupied. *)
Theorem find_free_frame_lowest m :
  (forall f, find_free_frame m = Some f <->
             nth_error (memory m) f = Some None
             /\ forall j, j < f -> occupied_at (memory m) j = true)
  /\ (find_free_frame m = None <->
      forall j, j < length (memory m) -> occupied_at (memory m) j = true).
Proof.
  unfold find_free_frame. split.
  - intros f. rewrite first_free_lowest. split.
    + intros [j [-> H]]. exact H.
    + intros H. exists f. split; [reflexivity | exact H].
  - split.
    + intros H. pose proof (first_free_spec 0 (memory m)) as Hs.
      now rewrite H in Hs.
    + intros H. destruct (first_free 0 (memory m)) as [f|] eqn:E; [|reflexivity].
      apply first_free_lowest in E. destruct E as [j [_ [Hj _]]].
      assert (Hlt : j < length (memory m))
        by (apply nth_error_Some; congruence).
      apply H in Hlt. unfold occupied_at in Hlt. rewrite Hj in Hlt.
      discriminate.
Qed.

Open Scope Z_scope.

Lemma lru_scan_min items : forall o v f,
  lru_scan items o v = Some f ->
  (v = Some f
   /\ Forall (fun kv => older (last_used (snd kv)) o = false) items)
  \/ exists pt1 k e pt2,
      items = pt1 ++ (k, e) :: pt2
      /\ frame_num e = f
      /\ older (last_used e) o = true
      /\ Forall (fun kv => last_used e < last_used (snd kv)
                           \/ older (last_used (snd kv)) o = false) pt1
      /\ Forall (fun kv => last_used e <= last_used (snd kv)) pt2.
Proof.
  induction items as [|[k0 e0] items IH]; simpl; intros o v f H.
  - left. split; [exact H | constructor].
  - destruct (older (last_used e0) o) eqn:E.
    + apply IH in H. right. destruct H as [[Hv Hall]|H].
      * injection Hv as <-. exists [], k0, e0, items.
        repeat split; auto.
        eapply Forall_impl; [|exact Hall]. intros [k1 e1]. simpl.
        intros Hc. apply Z.ltb_ge in Hc. exact Hc.
      * destruct H as [pt1 [k [e [pt2 [-> [Hf [Ho [H1 H2]]]]]]]].
        exists ((k0, e0) :: pt1), k, e, pt2. repeat split; auto.
        -- destruct o as [t|]; [|reflexivity]. simpl in *.
           apply Z.ltb_lt in Ho, E. apply Z.ltb_lt. lia.
        -- constructor.
           ++ left. simpl in *. apply Z.ltb_lt in Ho. exact Ho.
           ++ eapply Forall_impl; [|exact H1]. intros [k1 e1]. simpl.
              intros [Hlt|Hc]; [now left|].
              apply Z.ltb_ge in Hc. apply Z.ltb_lt in Ho. left. lia.
    + apply IH in H. destruct H as [[Hv Hall]|H].
      * left. split; [exact Hv|]. constructor; auto.
      * right. destruct H as [pt1 [k [e [pt2 [-> [Hf [Ho [H1 H2]]]]]]]].
        exists ((k0, e0) :: pt1), k, e, pt2. repeat split; auto.
Qed.

(** X8: [find_victim_lru] returns the frame of an entry whose [last_used]
    is minimal; among several minimal entries it is the first in the order
    of the page table.  It reports no victim exactly on an empty table. *)
Theorem find_victim_lru_least_recent m :
  (forall f, find_victim_lru m = Some f ->
             exists pt1 k e pt2,
               page_table m = pt1 ++ (k, e) :: pt2
               /\ frame_num e = f
               /\ Forall (fun kv => last_used e < last_used (snd kv)) pt1
               /\ Forall (fun kv => last_used e <= last_used (snd kv)) pt2)
  /\ (find_victim_lru m = None <-> page_table m = []).
Proof.
  split.
  - intros f H. unfold find_victim_lru in H. apply lru_scan_min in H.
    destruct H as [[Hv _]|H]; [discriminate|].
    destruct H as [pt1 [k [e [pt2 [Hpt [Hf [_ [H1 H2]]]]]]]].
    exists pt1, k, e, pt2. repeat split; auto.
    eapply Forall_impl; [|exact H1]. intros [k1 e1]. simpl.
    intros [Hlt|Hc]; [exact Hlt | discriminate].
  - split; [apply find_victim_lru_None|].
    unfold find_victim_lru. now intros ->.
Qed.

Lemma find_victim_lru_least_recent_witness :
  let m := run [(tick 1, CreateProcess 3);
                (tick 20, AccessPage 1 0 LRU);
                (tick 30, AccessPage 1 1 LRU);
                (tick 40, AccessPage 1 0 LRU)] (init 2) in
  exists pt1 k e pt2,
    page_table m = pt1 ++ (k, e) :: pt2
    /\ frame_num e = 1%nat
    /\ Forall (fun kv => last_used e < last_used (snd kv)) pt1
    /\ Forall (fun kv => last_used e <= last_used (snd kv)) pt2.
Proof.
  intros m.
  apply (proj1 (find_victim_lru_least_recent m) 1%nat).
  reflexivity.
Defined.

(** ** Statistics *)

Lemma place_stats now k p g alg f m r m' :
  place now k p g alg f m = (r, m') -> stats m' = stats m.
Proof.
  unfold place. intros H.
  destruct (dict_get Z.eqb p (processes m)); [|now inversion H].
  destruct (list_set f _ (memory m)); [|now inversion H].
  inversion H; subst. now destruct (is_fifo alg).
Qed.

(** X9: every access to an existing process counts exactly once, as a hit
    when the page is resident and as a fault otherwise, whatever the call
    then answers (a fault, "No frames available" or an exception); an
    access to an unknown process, [create_process] and [remove_process]
    leave the counters alone, and [reset] zeroes them. *)
Theorem stats_accounting m c :
  stats (step m c)
  = match snd c with
    | AccessPage p g _ =>
        if dict_mem Z.eqb p (processes m)
        then match dict_get String.eqb (page_key p g) (page_table m) with
             | Some _ => mkStats (page_faults (stats m))
                                 (page_hits (stats m) + 1)
             | None => mkStats (page_faults (stats m) + 1)
                               (page_hits (stats m))
             end
        else stats m
    | Reset => mkStats 0 0
    | _ => stats m
    end.
Proof.
  destruct c as [now [sz|p g alg|p|]]; unfold step; cbn [perform snd].
  - reflexivity.
  - unfold allocate_page. destruct (dict_mem Z.eqb p (processes m)); cbn [negb];
      [|reflexivity].
    destruct (dict_get String.eqb _ (page_table m)); [reflexivity|].
    destruct (find_free_frame _) as [f|].
    + destruct (place now 0 p g alg f (count_fault m)) as [r m'] eqn:Hp.
      apply place_stats in Hp. cbn [snd]. rewrite Hp. reflexivity.
    + destruct (if is_fifo alg then _ else _) as [f|]; [|reflexivity].
      destruct (evict now f alg (count_fault m)) as [[k|e] m2] eqn:He;
        apply evict_processes in He; destruct He as [_ [_ [_ [He _]]]].
      * destruct (place now k p g alg f m2) as [r m'] eqn:Hp.
        apply place_stats in Hp. cbn [snd]. rewrite Hp, He. reflexivity.
      * cbn [snd]. rewrite He. reflexivity.
  - unfold remove_process. destruct (negb _); [reflexivity|].
    destruct (free_frames p (memory m) (allocation_queue m)). reflexivity.
  - reflexivity.
Qed.

(** ** A hit *)

(** X10: a hit refreshes [last_used] of the page's entry and nothing else
    of the residency data: the entry keeps its frame, its allocation stamp
    and its place in the table, every other entry is as before, and frames,
    queue and processes do not change. *)
Theorem hit_refreshes_last_used now p g alg m pr e :
  dict_get Z.eqb p (processes m) = Some pr ->
  dict_get String.eqb (page_key p g) (page_table m) = Some e ->
  let res := allocate_page now p g alg m in
  fst res = Returned ok_hit
  /\ dict_get String.eqb (page_key p g) (page_table (snd res))
     = Some (mkEntry (frame_num e) (alloc_time e) (now 0%nat))
  /\ (forall k, k <> page_key p g ->
                dict_get String.eqb k (page_table (snd res))
                = dict_get String.eqb k (page_table m))
  /\ map fst (page_table (snd res)) = map fst (page_table m)
  /\ memory (snd res) = memory m
  /\ allocation_queue (snd res) = allocation_queue m
  /\ processes (snd res) = processes m.
Proof.
  intros Hp He res.
  destruct (allocate_page_hit now p g alg m pr e Hp He)
    as [m' [Ha [H1 [H2 [H3 [H4 _]]]]]].
  unfold res. rewrite Ha. cbn [fst snd]. rewrite H2.
  repeat split; auto.
  - apply (dict_get_set_same _ Seqb_eq).
  - intros k Hk. now apply (dict_get_set_other _ Seqb_eq).
  - eapply dict_set_keys. exact He.
Qed.

Lemma hit_refreshes_last_used_witness :
  let m := run [(tick 1, CreateProcess 2);
                (tick 20, AccessPage 1 0 LRU);
                (tick 30, AccessPage 1 1 LRU)] (init 2) in
  dict_get String.eqb (page_key 1 0)
           (page_table (snd (allocate_page (tick 40) 1 0 LRU m)))
  = Some (mkEntry 0 20 40).
Proof.
  intros m.
  destruct (hit_refreshes_last_used (tick 40) 1 0 LRU m
              (fst (create_process (tick 1) 2 (init 2)))
              (mkEntry 0 20 20))
    as [_ [H _]].
  - reflexivity.
  - reflexivity.
  - exact H.
Defined.

(** ** Page table and frames *)

Open Scope nat_scope.

Lemma resident_from_frames i mem :
  NoDup (map fst (resident_from i mem))
  /\ forall j, In j (map fst (resident_from i mem)) -> i <= j.
Proof.
  revert i. induction mem as [|[fr|] mem IH]; intros i; simpl.
  - split; [constructor | tauto].
  - destruct (IH (S i)) as [H1 H2]. split.
    + constructor; [|exact H1]. intros Hin. apply H2 in Hin. lia.
    + intros j [<-|Hin]; [lia|]. apply H2 in Hin. lia.
  - destruct (IH (S i)) as [H1 H2]. split; [exact H1|].
    intros j Hin. apply H2 in Hin. lia.
Qed.

Open Scope Z_scope.

(** X11: in every reachable state no two entries of the page table name
    the same frame, and every entry names a frame of the pool. *)
Theorem entries_have_distinct_frames n m :
  reachable n m ->
  NoDup (map (fun kv => frame_num (snd kv)) (page_table m))
  /\ Forall (fun kv => (frame_num (snd kv) < n)%nat) (page_table m).
Proof.
  intros Hr. pose proof (reachable_consistent n m Hr) as C.
  split.
  - assert (Hp : Permutation (map fst (table_view (page_table m)))
                             (map fst (resident_from 0 (memory m))))
      by (apply Permutation_map, (c_table m C)).
    unfold table_view in Hp. rewrite map_map in Hp. simpl in Hp.
    apply (Permutation_NoDup (Permutation_sym Hp)).
    apply resident_from_frames.
  - apply Forall_forall. intros [k e] Hin. simpl.
    assert (Hv : In (frame_num e, k) (table_view (page_table m))).
    { unfold table_view. apply in_map_iff. now exists (k, e). }
    destruct (consistent_frame m _ _ C Hv) as [fr [Hfr _]].
    rewrite <- (reachable_length n m Hr). apply nth_error_Some. congruence.
Qed.

Lemma entries_have_distinct_frames_witness :
  let m := run [(tick 1, CreateProcess 3);
                (tick 20, AccessPage 1 0 LRU);
                (tick 30, AccessPage 1 1 FIFO);
                (tick 40, AccessPage 1 2 LRU)] (init 2) in
  NoDup (map (fun kv => frame_num (snd kv)) (page_table m)).
Proof.
  intros m. apply (entries_have_distinct_frames 2 m).
  exists [(tick 1, CreateProcess 3);
          (tick 20, AccessPage 1 0 LRU);
          (tick 30, AccessPage 1 1 FIFO);
          (tick 40, AccessPage 1 2 LRU)].
  reflexivity.
Defined.

(** X12: in every reachable state the page table and the frames agree: the
    frame named by the entry of a page holds that page, whose process
    exists; and every occupied frame has the entry of its page, naming that
    frame. *)
Theorem table_agrees_with_frames n m :
  reachable n m ->
  (forall k e, In (k, e) (page_table m) ->
               exists fr,
                 nth_error (memory m) (frame_num e) = Some (Some fr)
                 /\ k = page_key (fr_pid fr) (fr_page_num fr)
                 /\ dict_mem Z.eqb (fr_pid fr) (processes m) = true)
  /\ (forall f fr, nth_error (memory m) f = Some (Some fr) ->
                   exists e,
                     dict_get String.eqb
                              (page_key (fr_pid fr) (fr_page_num fr))
                              (page_table m) = Some e
                     /\ frame_num e = f).
Proof.
  intros Hr. pose proof (reachable_consistent n m Hr) as C. split.
  - intros k e Hin.
    assert (Hv : In (frame_num e, k) (table_view (page_table m))).
    { unfold table_view. apply in_map_iff. now exists (k, e). }
    destruct (consistent_frame m _ _ C Hv) as [fr [Hfr [Hk _]]].
    exists fr. repeat split; auto. exact (c_owner m C _ _ Hfr).
  - intros f fr Hfr. pose proof (consistent_entry m f fr C Hfr) as Hv.
    unfold table_view in Hv. apply in_map_iff in Hv.
    destruct Hv as [[k e] [Heq Hin]]. simpl in Heq.
    injection Heq as Hf Hk. subst. exists e. split; [|reflexivity].
    apply (NoDup_dict_get _ Seqb_eq); [exact (c_keys m C) | exact Hin].
Qed.

Lemma table_agrees_with_frames_witness :
  let m := run [(tick 1, CreateProcess 3);
                (tick 20, AccessPage 1 0 LRU);
                (tick 30, AccessPage 1 1 FIFO);
                (tick 40, AccessPage 1 2 LRU)] (init 2) in
  exists e, dict_get String.eqb (page_key 1 2) (page_table m) = Some e
            /\ frame_num e = 0%nat.
Proof.
  intros m.
  apply (proj2 (table_agrees_with_frames 2 m
                  (ex_intro _ [(tick 1, CreateProcess 3);
                               (tick 20, AccessPage 1 0 LRU);
                               (tick 30, AccessPage 1 1 FIFO);
                               (tick 40, AccessPage 1 2 LRU)] eq_refl))
               0%nat (mkFrame 1 2 "hsl(137, 70%, 60%)")).
  reflexivity.
Defined.

(** ** What an access does to the frames *)

Lemma allocate_page_memory n m now p g alg :
  reachable n m ->
  let m' := snd (allocate_page now p g alg m) in
  processes m' = processes m
  /\ (memory m' = memory m
      \/ exists f pr mem',
          dict_get Z.eqb p (processes m) = Some pr
          /\ list_set f (Some (mkFrame p g (color pr))) (memory m) = Some mem'
          /\ memory m' = mem').
Proof.
  intros Hr m'. pose proof (reachable_consistent n m Hr) as C.
  split.
  { unfold m'. destruct (allocate_page now p g alg m) as [r m1] eqn:Ha.
    apply allocate_page_processes in Ha. cbn [snd]. tauto. }
  unfold m'.
  destruct (dict_get Z.eqb p (processes m)) as [pr|] eqn:Hp.
  2:{ unfold allocate_page, dict_mem. rewrite Hp. now left. }
  destruct (dict_get String.eqb (page_key p g) (page_table m)) as [e|] eqn:He.
  { destruct (allocate_page_hit now p g alg m pr e Hp He) as [m1 [-> [H1 _]]].
    now left. }
  destruct (find_free_frame m) as [f|] eqn:Hf.
  { destruct (allocate_page_free now p g alg m pr f Hp He Hf)
      as [m1 [mem' [-> [_ [Hs [H1 _]]]]]].
    right. exists f, pr, mem'. auto. }
  destruct (if is_fifo alg then find_victim_fifo m else find_victim_lru m)
    as [f|] eqn:Hv.
  2:{ rewrite (allocate_page_noframe now p g alg m pr Hp He Hf Hv). now left. }
  destruct (allocate_page_replace now p g alg m pr f C Hp He Hf Hv)
    as [old [Hold [_ Hres]]].
  destruct (fr_page_num old <? 0).
  { rewrite Hres. now left. }
  destruct Hres as [m1 [mem' [-> [Hs [H1 _]]]]].
  right. exists f, pr, mem'. auto.
Qed.

Lemma remove_process_memory n m now p :
  reachable n m ->
  let m' := snd (remove_process now p m) in
  forall f fr, nth_error (memory m') f = Some (Some fr) ->
               nth_error (memory m) f = Some (Some fr)
               /\ (dict_mem Z.eqb p (processes m) = true -> fr_pid fr <> p).
Proof.
  intros Hr m' f fr. pose proof (reachable_consistent n m Hr) as C.
  unfold m'.
  destruct (dict_get Z.eqb p (processes m)) as [pr|] eqn:Hp.
  - destruct (remove_process_fields now p m pr (c_queue m C) (c_keys m C) Hp)
      as [m1 [-> [H1 _]]]. cbn [snd]. rewrite H1, nth_error_map.
    destruct (nth_error (memory m) f) as [[fr'|]|]; simpl; try discriminate.
    unfold clear_owned. simpl. destruct (fr_pid fr' =? p) eqn:E; [discriminate|].
    intros [= <-]. apply Z.eqb_neq in E. auto.
  - unfold remove_process, dict_mem. rewrite Hp. cbn [negb snd].
    intros H. split; [exact H | discriminate].
Qed.

(** X13: every occupied frame carries the colour of the descriptor of its
    process, the one computed from the identifier at creation. *)
Theorem frames_carry_process_colour n m :
  reachable n m ->
  forall f fr, nth_error (memory m) f = Some (Some fr) ->
    exists pr, dict_get Z.eqb (fr_pid fr) (processes m) = Some pr
               /\ fr_color fr = color pr
               /\ built (fr_pid fr) pr.
Proof.
  intros H.
  assert (Hcol : forall f fr, nth_error (memory m) f = Some (Some fr) ->
            exists pr, dict_get Z.eqb (fr_pid fr) (processes m) = Some pr
                       /\ fr_color fr = color pr).
  { pattern m. revert m H. apply reachable_induction.
    - intros f fr Hf. simpl in Hf. apply nth_error_In, repeat_spec in Hf.
      discriminate.
    - intros m c Hr IH f fr.
      destruct c as [now [sz|p g alg|p|]]; unfold step; cbn [perform snd].
      + intros Hf. simpl in Hf. destruct (IH f fr Hf) as [pr [Hp Hc]].
        exists pr. split; [|exact Hc]. simpl.
        rewrite (dict_get_set_other _ Zeqb_eq); [exact Hp|].
        apply dict_get_mem in Hp.
        apply dict_mem_get in Hp. destruct Hp as [x Hx].
        apply (dict_get_In _ Zeqb_eq) in Hx.
        apply (reachable_pids_bounded n m Hr) in Hx. lia.
      + destruct (allocate_page_memory n m now p g alg Hr) as [Hpr Hmem].
        rewrite Hpr. destruct Hmem as [->|[f0 [pr [mem' [Hp [Hs ->]]]]]];
          [apply IH|].
        apply list_set_nth in Hs. destruct Hs as [_ [_ Hs]]. rewrite Hs.
        destruct (Nat.eqb f f0); [|apply IH].
        intros [= <-]. exists pr. simpl. auto.
      + intros Hf.
        destruct (remove_process_memory n m now p Hr f fr Hf) as [Hold Hne].
        destruct (IH f fr Hold) as [pr [Hp Hc]]. exists pr. split; [|exact Hc].
        pose proof (step_processes m (now, RemoveProcess p)) as Hsp.
        unfold step in Hsp. cbn [perform snd] in Hsp. rewrite Hsp.
        destruct (dict_mem Z.eqb p (processes m)) eqn:Hm.
        * rewrite (dict_get_del_other _ Zeqb_eq); auto.
        * rewrite (dict_del_absent _ Zeqb_eq); auto.
          unfold dict_mem in Hm. apply (dict_get_None _ Zeqb_eq).
          destruct (dict_get Z.eqb p (processes m)); [discriminate | reflexivity].
      + intros Hf. simpl in Hf. apply nth_error_In, repeat_spec in Hf.
        discriminate. }
  intros f fr Hf. destruct (Hcol f fr Hf) as [pr [Hp Hc]].
  exists pr. repeat split; auto;
    apply (dict_get_In _ Zeqb_eq) in Hp;
    apply (reachable_descriptors n m H) in Hp; apply Hp.
Qed.

Lemma frames_carry_process_colour_witness :
  let m := run [(tick 1, CreateProcess 3);
                (tick 5, CreateProcess 2);
                (tick 20, AccessPage 2 0 LRU)] (init 2) in
  exists pr, dict_get Z.eqb 2 (processes m) = Some pr
             /\ "hsl(274, 70%, 60%)"%string = color pr
             /\ built 2 pr.
Proof.
  intros m.
  apply (frames_carry_process_colour 2 m
           (ex_intro _ [(tick 1, CreateProcess 3);
                        (tick 5, CreateProcess 2);
                        (tick 20, AccessPage 2 0 LRU)] eq_refl)
           0%nat (mkFrame 2 0 "hsl(274, 70%, 60%)")).
  reflexivity.
Defined.

(** ** When an access is served *)

(** X14: with at least one frame, "No frames available" is answered only
    by an access under FIFO that finds every frame occupied and the queue
    empty; an access under LRU never answers it. *)
Theorem no_frames_only_fifo_empty_queue n m now p g alg :
  reachable n m -> (0 < n)%nat ->
  fst (allocate_page now p g alg m) = Returned (failure "No frames available") ->
  is_fifo alg = true
  /\ allocation_queue m = []
  /\ count_occupied (memory m) = n.
Proof.
  intros Hr Hn. pose proof (reachable_consistent n m Hr) as C.
  destruct (dict_get Z.eqb p (processes m)) as [pr|] eqn:Hp.
  2:{ unfold allocate_page, dict_mem. rewrite Hp. cbn [negb fst].
      intros [= H]. }
  destruct (dict_get String.eqb (page_key p g) (page_table m)) as [e|] eqn:He.
  { destruct (allocate_page_hit now p g alg m pr e Hp He) as [m1 [-> _]].
    discriminate. }
  destruct (find_free_frame m) as [f|] eqn:Hf.
  { destruct (allocate_page_free now p g alg m pr f Hp He Hf)
      as [m1 [mem' [-> _]]]. discriminate. }
  assert (Hfull : count_occupied (memory m) = n).
  { unfold find_free_frame in Hf. apply first_free_full in Hf.
    now rewrite Hf, (reachable_length n m Hr). }
  destruct (if is_fifo alg then find_victim_fifo m else find_victim_lru m)
    as [f|] eqn:Hv.
  { destruct (allocate_page_replace now p g alg m pr f C Hp He Hf Hv)
      as [old [_ [_ Hres]]].
    destruct (fr_page_num old <? 0); [rewrite Hres; discriminate|].
    destruct Hres as [m1 [mem' [-> _]]]. discriminate. }
  intros _. destruct (is_fifo alg).
  - repeat split; auto. unfold find_victim_fifo in Hv.
    destruct (allocation_queue m); [reflexivity | discriminate].
  - apply find_victim_lru_None in Hv.
    rewrite (consistent_count m C), Hv in Hfull. simpl in Hfull. lia.
Qed.


Lemma no_frames_only_fifo_empty_queue_witness :
  let m := run [(tick 10, CreateProcess 3);
                (tick 20, AccessPage 1 0 LRU);
                (tick 30, AccessPage 1 1 LRU)] (init 2) in
  is_fifo FIFO = true /\ allocation_queue m = []
  /\ count_occupied (memory m) = 2%nat.
Proof.
  intros m.
  apply (no_frames_only_fifo_empty_queue 2 m (tick 40) 1 2 FIFO).
  - exists [(tick 10, CreateProcess 3);
            (tick 20, AccessPage 1 0 LRU);
            (tick 30, AccessPage 1 1 LRU)].
    reflexivity.
  - lia.
  - reflexivity.
Defined.

Lemma step_pages_nonneg n m c :
  reachable n m -> nonneg_call c -> pages_nonneg m -> pages_nonneg (step m c).
Proof.
  intros Hr Hc IH f fr.
  destruct c as [now [sz|p g alg|p|]]; unfold step; cbn [perform snd].
  - apply IH.
  - destruct (allocate_page_memory n m now p g alg Hr) as [_ Hmem].
    destruct Hmem as [->|[f0 [pr [mem' [Hp [Hs ->]]]]]]; [apply IH|].
    apply list_set_nth in Hs. destruct Hs as [_ [_ Hs]]. rewrite Hs.
    destruct (Nat.eqb f f0); [|apply IH].
    intros [= <-]. exact Hc.
  - intros Hf. apply (remove_process_memory n m now p Hr) in Hf.
    destruct Hf as [Hf _]. exact (IH f fr Hf).
  - intros Hf. simpl in Hf. apply nth_error_In, repeat_spec in Hf.
    discriminate.
Qed.

Lemma run_pages_nonneg n cs :
  Forall nonneg_call cs -> pages_nonneg (run cs (init n)).
Proof.
  induction cs as [|c cs IH] using rev_ind; intros H.
  - intros f fr Hf. simpl in Hf. apply nth_error_In, repeat_spec in Hf.
    discriminate.
  - rewrite run_snoc. apply Forall_app in H. destruct H as [H1 H2].
    inversion H2; subst.
    apply (step_pages_nonneg n); auto. now exists cs.
Qed.

Lemma access_outcome n m now p g alg pr :
  reachable n m -> pages_nonneg m ->
  dict_get Z.eqb p (processes m) = Some pr ->
  fst (allocate_page now p g alg m) = Returned ok_hit
  \/ fst (allocate_page now p g alg m) = Returned ok_fault
  \/ (find_free_frame m = None
      /\ (if is_fifo alg then find_victim_fifo m else find_victim_lru m) = None).
Proof.
  intros Hr Hnn Hp. pose proof (reachable_consistent n m Hr) as C.
  destruct (dict_get String.eqb (page_key p g) (page_table m)) as [e|] eqn:He.
  { destruct (allocate_page_hit now p g alg m pr e Hp He) as [m1 [-> _]].
    now left. }
  destruct (find_free_frame m) as [f|] eqn:Hf.
  { destruct (allocate_page_free now p g alg m pr f Hp He Hf)
      as [m1 [mem' [-> _]]]. right. now left. }
  destruct (if is_fifo alg then find_victim_fifo m else find_victim_lru m)
    as [f|] eqn:Hv.
  2:{ right. right. auto. }
  destruct (allocate_page_replace now p g alg m pr f C Hp He Hf Hv)
    as [old [Hold [_ Hres]]].
  replace (fr_page_num old <? 0) with false in Hres
    by (symmetry; apply Z.ltb_ge; exact (Hnn f old Hold)).
  destruct Hres as [m1 [mem' [-> _]]]. right. now left.
Qed.

(** X15: as long as every accessed page number is non-negative, no call
    raises an exception: whatever the next call is, it returns an answer. *)
Theorem valid_runs_never_raise n cs c :
  Forall nonneg_call cs ->
  exists r, fst (perform c (run cs (init n))) = Returned r.
Proof.
  intros Hcs. set (m := run cs (init n)).
  assert (Hr : reachable n m) by now exists cs.
  pose proof (run_pages_nonneg n cs Hcs) as Hnn. fold m in Hnn.
  destruct c as [now [sz|p g alg|p|]]; cbn [perform fst]; eauto.
  - destruct (dict_get Z.eqb p (processes m)) as [pr|] eqn:Hp.
    + destruct (access_outcome n m now p g alg pr Hr Hnn Hp)
        as [->|[->|[Hf Hv]]]; eauto.
      destruct (dict_get String.eqb (page_key p g) (page_table m)) as [e|] eqn:He.
      * destruct (allocate_page_hit now p g alg m pr e Hp He) as [m1 [-> _]].
        cbn [fst]. eauto.
      * rewrite (allocate_page_noframe now p g alg m pr Hp He Hf Hv).
        cbn [fst]. eauto.
    + unfold allocate_page, dict_mem. rewrite Hp. cbn [negb fst]. eauto.
  - unfold remove_process. destruct (negb _); cbn [fst]; eauto.
    destruct (free_frames p (memory m) (allocation_queue m)). cbn [fst]. eauto.
Qed.

Lemma valid_runs_never_raise_witness :
  exists r,
    fst (perform (tick 40, AccessPage 1 2 LRU)
                 (run [(tick 10, CreateProcess 3);
                       (tick 20, AccessPage 1 0 LRU);
                       (tick 30, AccessPage 1 1 LRU)] (init 2)))
    = Returned r.
Proof.
  apply (valid_runs_never_raise 2
           [(tick 10, CreateProcess 3);
            (tick 20, AccessPage 1 0 LRU);
            (tick 30, AccessPage 1 1 LRU)]
           (tick 40, AccessPage 1 2 LRU)).
  constructor; [exact I|].
  constructor; [unfold nonneg_call; cbn [snd]; lia|].
  constructor; [unfold nonneg_call; cbn [snd]; lia|]. constructor.
Defined.

(** X16: with at least one frame and non-negative page numbers throughout,
    an access under LRU to an existing process is always served, as a hit
    or as a fault, whatever policies the earlier accesses used. *)
Theorem lru_access_is_served n cs now p g alg :
  (0 < n)%nat -> Forall nonneg_call cs -> is_fifo alg = false ->
  dict_mem Z.eqb p (processes (run cs (init n))) = true ->
  fst (allocate_page now p g alg (run cs (init n))) = Returned ok_hit
  \/ fst (allocate_page now p g alg (run cs (init n))) = Returned ok_fault.
Proof.
  intros Hn Hcs Halg Hp. set (m := run cs (init n)) in *.
  assert (Hr : reachable n m) by now exists cs.
  pose proof (run_pages_nonneg n cs Hcs) as Hnn. fold m in Hnn.
  destruct (dict_mem_get _ _ Hp) as [pr Hpr].
  destruct (access_outcome n m now p g alg pr Hr Hnn Hpr)
    as [H|[H|[Hf Hv]]]; auto.
  exfalso. rewrite Halg in Hv. apply find_victim_lru_None in Hv.
  unfold find_free_frame in Hf. apply first_free_full in Hf.
  rewrite (consistent_count m (reachable_consistent n m Hr)), Hv in Hf.
  rewrite (reachable_length n m Hr) in Hf. simpl in Hf. lia.
Qed.

(** X17: with at least one frame, non-negative page numbers and FIFO as the
    only policy used, an access under FIFO to an existing process is always
    served, as a hit or as a fault. *)
Theorem fifo_access_is_served n cs now p g :
  (0 < n)%nat -> Forall nonneg_call cs -> Forall fifo_call cs ->
  dict_mem Z.eqb p (processes (run cs (init n))) = true ->
  fst (allocate_page now p g FIFO (run cs (init n))) = Returned ok_hit
  \/ fst (allocate_page now p g FIFO (run cs (init n))) = Returned ok_fault.
Proof.
  intros Hn Hcs Hfifo Hp. set (m := run cs (init n)) in *.
  assert (Hr : reachable n m) by now exists cs.
  pose proof (run_pages_nonneg n cs Hcs) as Hnn. fold m in Hnn.
  destruct (dict_mem_get _ _ Hp) as [pr Hpr].
  destruct (access_outcome n m now p g FIFO pr Hr Hnn Hpr)
    as [H|[H|[Hf Hv]]]; auto.
  exfalso. pose proof (fifo_run_complete n cs Hfifo) as Hc. fold m in Hc.
  assert (Hocc : occupied_at (memory m) 0 = true).
  { pose proof (first_free_spec 0 (memory m)) as Hs.
    unfold find_free_frame in Hf. rewrite Hf in Hs. apply Hs.
    rewrite (reachable_length n m Hr). exact Hn. }
  apply Hc in Hocc. change (find_victim_fifo m = None) in Hv.
  unfold find_victim_fifo in Hv.
  destruct (allocation_queue m); [destruct Hocc | discriminate].
Qed.

Lemma lru_access_is_served_witness :
  let m := run [(tick 10, CreateProcess 3);
                (tick 20, AccessPage 1 0 FIFO);
                (tick 30, AccessPage 1 1 FIFO)] (init 2) in
  fst (allocate_page (tick 40) 1 2 LRU m) = Returned ok_hit
  \/ fst (allocate_page (tick 40) 1 2 LRU m) = Returned ok_fault.
Proof.
  apply (lru_access_is_served 2
           [(tick 10, CreateProcess 3);
            (tick 20, AccessPage 1 0 FIFO);
            (tick 30, AccessPage 1 1 FIFO)] (tick 40) 1 2 LRU).
  - lia.
  - constructor; [exact I|].
    constructor; [unfold nonneg_call; cbn [snd]; lia|].
    constructor; [unfold nonneg_call; cbn [snd]; lia|]. constructor.
  - reflexivity.
  - reflexivity.
Defined.

Lemma fifo_access_is_served_witness :
  let m := run [(tick 10, CreateProcess 3);
                (tick 20, AccessPage 1 0 FIFO);
                (tick 30, AccessPage 1 1 FIFO)] (init 2) in
  fst (allocate_page (tick 40) 1 2 FIFO m) = Returned ok_hit
  \/ fst (allocate_page (tick 40) 1 2 FIFO m) = Returned ok_fault.
Proof.
  apply (fifo_access_is_served 2
           [(tick 10, CreateProcess 3);
            (tick 20, AccessPage 1 0 FIFO);
            (tick 30, AccessPage 1 1 FIFO)] (tick 40) 1 2).
  - lia.
  - constructor; [exact I|].
    constructor; [unfold nonneg_call; cbn [snd]; lia|].
    constructor; [unfold nonneg_call; cbn [snd]; lia|]. constructor.
  - repeat constructor.
  - reflexivity.
Defined.

Lemma victim_found n m alg :
  reachable n m -> (0 < n)%nat -> find_free_frame m = None ->
  (is_fifo alg = true -> queue_complete m) ->
  (if is_fifo alg then find_victim_fifo m else find_victim_lru m) <> None.
Proof.
  intros Hr Hn Hf Hc Hv.
  destruct (is_fifo alg).
  - assert (Hocc : occupied_at (memory m) 0 = true).
    { pose proof (first_free_spec 0 (memory m)) as Hs.
      unfold find_free_frame in Hf. rewrite Hf in Hs. apply Hs.
      rewrite (reachable_length n m Hr). exact Hn. }
    apply (Hc eq_refl) in Hocc. unfold find_victim_fifo in Hv.
    destruct (allocation_queue m); [destruct Hocc | discriminate].
  - apply find_victim_lru_None in Hv.
    unfold find_free_frame in Hf. apply first_free_full in Hf.
    rewrite (consistent_count m (reachable_consistent n m Hr)), Hv in Hf.
    rewrite (reachable_length n m Hr) in Hf. simpl in Hf. lia.
Qed.

(** ** The route [simulate_access] *)

(** X18: [simulate_access] answers "No processes running" on an empty
    process table and changes nothing.  Otherwise it accesses a page of
    the drawn process, inside that process's page range; with at least
    one frame, non-negative page numbers so far and, for FIFO, no earlier
    access under another policy, the access is served as a hit or a
    fault. *)
Theorem simulate_access_is_served n cs now choice page alg :
  let m := run cs (init n) in
  (processes m = [] ->
   simulate_access now choice page alg m
   = (Returned (failure "No processes running"), m))
  /\ ((0 < n)%nat ->
      Forall nonneg_call cs ->
      (is_fifo alg = true -> Forall fifo_call cs) ->
      forall p pr,
        nth_error (processes m) choice = Some (p, pr) ->
        0 <= page <= size pr - 1 ->
        simulate_access now choice page alg m = allocate_page now p page alg m
        /\ (fst (simulate_access now choice page alg m) = Returned ok_hit
            \/ fst (simulate_access now choice page alg m) = Returned ok_fault)).
Proof.
  intros m. split.
  { intros H. unfold simulate_access. now rewrite H. }
  intros Hn Hcs Hfifo p pr Hnth Hpage.
  assert (Hr : reachable n m) by now exists cs.
  pose proof (reachable_consistent n m Hr) as C.
  assert (Hp : dict_get Z.eqb p (processes m) = Some pr).
  { apply (NoDup_dict_get _ Zeqb_eq); [exact (c_procs m C)|].
    eapply nth_error_In; eauto. }
  assert (Heq : simulate_access now choice page alg m
                = allocate_page now p page alg m).
  { unfold simulate_access.
    destruct (processes m) as [|x l] eqn:E; [now destruct choice|].
    rewrite <- E in *. rewrite nth_error_map, Hnth. cbn [option_map fst].
    rewrite Hp.
    replace (size pr - 1 <? 0) with false by (symmetry; apply Z.ltb_ge; lia).
    reflexivity. }
  split; [exact Heq|]. rewrite Heq.
  pose proof (run_pages_nonneg n cs Hcs) as Hnn. fold m in Hnn.
  destruct (access_outcome n m now p page alg pr Hr Hnn Hp)
    as [H|[H|[Hf Hv]]]; auto.
  exfalso. apply (victim_found n m alg Hr Hn Hf); [|exact Hv].
  intros Ha. apply (fifo_run_complete n cs (Hfifo Ha)).
Qed.

Lemma simulate_access_is_served_witness :
  let m := run [(tick 10, CreateProcess 3);
                (tick 15, CreateProcess 2);
                (tick 20, AccessPage 1 0 FIFO);
                (tick 30, AccessPage 2 1 FIFO)] (init 2) in
  fst (simulate_access (tick 40) 1 0 FIFO m) = Returned ok_hit
  \/ fst (simulate_access (tick 40) 1 0 FIFO m) = Returned ok_fault.
Proof.
  intros m.
  destruct (simulate_access_is_served 2
              [(tick 10, CreateProcess 3);
               (tick 15, CreateProcess 2);
               (tick 20, AccessPage 1 0 FIFO);
               (tick 30, AccessPage 2 1 FIFO)] (tick 40) 1 0 FIFO)
    as [_ H].
  destruct (H (Nat.lt_0_succ 1)) with
      (p := 2)
      (pr := fst (create_process (tick 15) 2
                    (run [(tick 10, CreateProcess 3)] (init 2))))
    as [_ Hserved].
  - constructor; [exact I|]. constructor; [exact I|].
    constructor; [unfold nonneg_call; cbn [snd]; lia|].
    constructor; [unfold nonneg_call; cbn [snd]; lia|]. constructor.
  - intros _. repeat constructor.
  - vm_compute. reflexivity.
  - vm_compute. split; discriminate.
  - exact Hserved.
Defined.

(** ** After a removal *)

(** X19: once a process has been removed it is unknown: accessing any of
    its pages, or removing it again, answers "Process not found" and
    changes nothing, and no frame holds a page of it any more. *)
Theorem removed_process_is_unknown n m now p now' g alg :
  reachable n m ->
  dict_mem Z.eqb p (processes m) = true ->
  let m1 := snd (remove_process now p m) in
  allocate_page now' p g alg m1 = (Returned (failure "Process not found"), m1)
  /\ remove_process now' p m1 = (Returned (failure "Process not found"), m1)
  /\ forall f fr, nth_error (memory m1) f = Some (Some fr) -> fr_pid fr <> p.
Proof.
  intros Hr Hp m1. pose proof (reachable_consistent n m Hr) as C.
  assert (Hgone : dict_mem Z.eqb p (processes m1) = false).
  { pose proof (step_processes m (now, RemoveProcess p)) as Hs.
    unfold step in Hs. cbn [perform snd] in Hs. fold m1 in Hs.
    unfold dict_mem. rewrite Hs.
    now rewrite (dict_get_del_same _ Zeqb_eq) by exact (c_procs m C). }
  split; [|split].
  - unfold allocate_page. now rewrite Hgone.
  - unfold remove_process. now rewrite Hgone.
  - intros f fr Hf. now apply (remove_process_memory n m now p Hr f fr Hf).
Qed.

Lemma removed_process_is_unknown_witness :
  let m := run [(tick 10, CreateProcess 3);
                (tick 20, AccessPage 1 0 FIFO)] (init 2) in
  let m1 := snd (remove_process (tick 30) 1 m) in
  allocate_page (tick 40) 1 0 FIFO m1
  = (Returned (failure "Process not found"), m1).
Proof.
  intros m m1.
  destruct (removed_process_is_unknown 2 m (tick 30) 1 (tick 40) 0 FIFO)
    as [H _].
  - exists [(tick 10, CreateProcess 3); (tick 20, AccessPage 1 0 FIFO)].
    reflexivity.
  - reflexivity.
  - exact H.
Defined.

(** ** The order of the FIFO queue *)

Lemma owner_test_agrees m p k e :
  consistent m -> 0 < p -> In (k, e) (page_table m) ->
  owned_at p (memory m) (frame_num e) = key_of p k.
Proof.
  intros C Hp Hin.
  assert (Hv : In (frame_num e, k) (table_view (page_table m))).
  { unfold table_view. apply in_map_iff. now exists (k, e). }
  destruct (consistent_frame m _ _ C Hv) as [fr [Hfr [-> Hpos]]].
  unfold owned_at, key_of. rewrite Hfr. simpl.
  destruct (fr_pid fr =? p) eqn:E.
  - apply Z.eqb_eq in E. symmetry. apply key_prefix_owner; lia.
  - apply Z.eqb_neq in E. symmetry. apply not_true_is_false. intros H.
    apply key_prefix_owner in H; lia.
Qed.

Lemma step_fifo_order n m c :
  reachable n m -> fifo_call c -> fifo_order m -> fifo_order (step m c).
Proof.
  intros Hr Hc Ho. pose proof (reachable_consistent n m Hr) as C.
  unfold fifo_order in *.
  destruct c as [now [sz|p g alg|p|]]; unfold step; cbn [perform snd];
    try exact Ho; [| |reflexivity].
  - unfold fifo_call in Hc. cbn [snd] in Hc.
    destruct (dict_get Z.eqb p (processes m)) as [pr|] eqn:Hp.
    2:{ unfold allocate_page, dict_mem. rewrite Hp. exact Ho. }
    destruct (dict_get String.eqb (page_key p g) (page_table m)) as [e|] eqn:He.
    { destruct (allocate_page_hit now p g alg m pr e Hp He)
        as [m1 [-> [_ [H2 [H3 _]]]]]. cbn [snd].
      rewrite H2, H3, Ho. symmetry. eapply frames_of_set; eauto. }
    destruct (find_free_frame m) as [f|] eqn:Hf.
    { destruct (allocate_page_free now p g alg m pr f Hp He Hf)
        as [m1 [mem' [-> [_ [_ [_ [H2 [H3 _]]]]]]]]. cbn [snd].
      rewrite H2, H3, Hc, Ho, map_app. reflexivity. }
    destruct (if is_fifo alg then find_victim_fifo m else find_victim_lru m)
      as [f|] eqn:Hv.
    2:{ rewrite (allocate_page_noframe now p g alg m pr Hp He Hf Hv).
        exact Ho. }
    destruct (allocate_page_replace now p g alg m pr f C Hp He Hf Hv)
      as [old [Hold [Hq Hres]]].
    destruct (fr_page_num old <? 0); [rewrite Hres; exact Ho|].
    destruct Hres as [m1 [mem' [-> [_ [_ [H2 [H3 _]]]]]]]. cbn [snd].
    rewrite H2, H3, Hc, map_app. cbn [map snd frame_num]. f_equal.
    destruct (Hq Hc) as [q Hqueue]. rewrite Hqueue in *. cbn [tl].
    destruct (page_table m) as [|[k1 e1] ptr] eqn:Hpt; [discriminate|].
    cbn [map snd] in Ho. injection Ho as Hf1 Hrest.
    assert (Hv1 : In (f, k1) (table_view (page_table m))).
    { rewrite Hpt. left. simpl. now rewrite <- Hf1. }
    destruct (consistent_frame m _ _ C Hv1) as [fr [Hfr [Hk1 _]]].
    assert (fr = old) by congruence. subst fr. rewrite <- Hk1.
    cbn [dict_del]. rewrite String.eqb_refl. exact Hrest.
  - destruct (dict_get Z.eqb p (processes m)) as [pr|] eqn:Hp.
    2:{ unfold remove_process, dict_mem. rewrite Hp. exact Ho. }
    destruct (remove_process_fields now p m pr (c_queue m C) (c_keys m C) Hp)
      as [m1 [-> [_ [H2 [H3 _]]]]]. cbn [snd].
    rewrite H2, H3, Ho, filter_map_swap. f_equal.
    apply filter_ext_in. intros [k e] Hin. cbn [snd fst]. f_equal.
    apply owner_test_agrees; auto.
    apply (dict_get_In _ Zeqb_eq) in Hp. exact (c_pids m C _ _ Hp).
Qed.

(** X20: when FIFO is the only policy used, the queue lists the frames of
    the resident pages in the order in which the pages were loaded, which
    is the order of the page table; the FIFO victim is the frame of the
    oldest resident page. *)
Theorem fifo_queue_is_load_order n cs :
  Forall fifo_call cs ->
  let m := run cs (init n) in
  allocation_queue m = map (fun kv => frame_num (snd kv)) (page_table m)
  /\ find_victim_fifo m
     = option_map (fun kv => frame_num (snd kv)) (hd_error (page_table m)).
Proof.
  intros Hcs m.
  assert (Ho : fifo_order m).
  { unfold m. clear m. induction cs as [|c cs IH] using rev_ind.
    - reflexivity.
    - rewrite run_snoc. apply Forall_app in Hcs. destruct Hcs as [H1 H2].
      inversion H2; subst. apply (step_fifo_order n); auto. now exists cs. }
  split; [exact Ho|].
  unfold find_victim_fifo. rewrite Ho. now destruct (page_table m).
Qed.

Lemma fifo_queue_is_load_order_witness :
  let m := run [(tick 10, CreateProcess 3);
                (tick 20, AccessPage 1 0 FIFO);
                (tick 30, AccessPage 1 1 FIFO);
                (tick 40, AccessPage 1 2 FIFO)] (init 2) in
  allocation_queue m = map (fun kv => frame_num (snd kv)) (page_table m).
Proof.
  intros m.
  apply (fifo_queue_is_load_order 2
           [(tick 10, CreateProcess 3);
            (tick 20, AccessPage 1 0 FIFO);
            (tick 30, AccessPage 1 1 FIFO);
            (tick 40, AccessPage 1 2 FIFO)]).
  repeat constructor.
Defined.

(** ** A fault with every frame taken *)

(** X21: a fault that is served with every frame taken replaces exactly one
    page: one frame changes content, the entry of the page it held leaves
    the page table, the new entry goes last with both stamps equal and
    naming that frame, and every other entry and frame is as before. *)
Theorem eviction_replaces_one_page n m now p g alg m' :
  reachable n m ->
  find_free_frame m = None ->
  allocate_page now p g alg m = (Returned ok_fault, m') ->
  exists f old pr e,
    nth_error (memory m) f = Some (Some old)
    /\ dict_get Z.eqb p (processes m) = Some pr
    /\ (forall j, nth_error (memory m') j
                  = if Nat.eqb j f
                    then Some (Some (mkFrame p g (color pr)))
                    else nth_error (memory m) j)
    /\ page_table m'
       = dict_del String.eqb (page_key (fr_pid old) (fr_page_num old))
                  (page_table m) ++ [(page_key p g, e)]
    /\ frame_num e = f /\ alloc_time e = last_used e
    /\ dict_get String.eqb (page_key (fr_pid old) (fr_page_num old))
                (page_table m') = None
    /\ (forall k, k <> page_key (fr_pid old) (fr_page_num old) ->
                  k <> page_key p g ->
                  dict_get String.eqb k (page_table m')
                  = dict_get String.eqb k (page_table m)).
Proof.
  intros Hr Hf Ha. pose proof (reachable_consistent n m Hr) as C.
  destruct (dict_get Z.eqb p (processes m)) as [pr|] eqn:Hp.
  2:{ unfold allocate_page, dict_mem in Ha. rewrite Hp in Ha. discriminate. }
  destruct (dict_get String.eqb (page_key p g) (page_table m)) as [e0|] eqn:He.
  { destruct (allocate_page_hit now p g alg m pr e0 Hp He) as [m1 [H1 _]].
    rewrite H1 in Ha. discriminate. }
  destruct (if is_fifo alg then find_victim_fifo m else find_victim_lru m)
    as [f|] eqn:Hv.
  2:{ rewrite (allocate_page_noframe now p g alg m pr Hp He Hf Hv) in Ha.
      discriminate. }
  destruct (allocate_page_replace now p g alg m pr f C Hp He Hf Hv)
    as [old [Hold [_ Hres]]].
  destruct (fr_page_num old <? 0); [rewrite Hres in Ha; discriminate|].
  destruct Hres as [m1 [mem' [Ha1 [Hs [H1 [H2 _]]]]]].
  rewrite Ha1 in Ha. injection Ha as <-.
  set (kold := page_key (fr_pid old) (fr_page_num old)) in *.
  assert (Hin : In kold (map fst (page_table m))).
  { pose proof (consistent_entry m f old C Hold) as Hv1.
    apply (in_map snd) in Hv1. rewrite table_view_keys in Hv1. exact Hv1. }
  assert (Hne : kold <> page_key p g).
  { intros Heq. apply (dict_get_None _ Seqb_eq) in He. apply He.
    now rewrite <- Heq. }
  assert (Habs : dict_get String.eqb (page_key p g)
                          (dict_del String.eqb kold (page_table m)) = None).
  { rewrite (dict_get_del_other _ Seqb_eq); auto. }
  exists f, old, pr, (mkEntry f (now 1%nat) (now 1%nat)).
  split; [exact Hold|]. split; [reflexivity|]. split; [|split; [exact H2|]].
  { rewrite H1. apply list_set_nth in Hs. tauto. }
  split; [reflexivity|]. split; [reflexivity|].
  rewrite H2, <- (dict_set_absent String.eqb _ _ _ Habs). split.
  - rewrite (dict_get_set_other _ Seqb_eq) by exact Hne.
    apply (dict_get_del_same _ Seqb_eq). exact (c_keys m C).
  - intros k Hk1 Hk2.
    rewrite (dict_get_set_other _ Seqb_eq) by exact Hk2.
    now apply (dict_get_del_other _ Seqb_eq).
Qed.

Lemma eviction_replaces_one_page_witness :
  let m := run [(tick 10, CreateProcess 3);
                (tick 20, AccessPage 1 0 FIFO);
                (tick 30, AccessPage 1 1 FIFO)] (init 2) in
  exists f old pr e,
    nth_error (memory m) f = Some (Some old)
    /\ dict_get Z.eqb 1 (processes m) = Some pr
    /\ (forall j, nth_error
                    (memory (snd (allocate_page (tick 40) 1 2 FIFO m))) j
                  = if Nat.eqb j f
                    then Some (Some (mkFrame 1 2 (color pr)))
                    else nth_error (memory m) j)
    /\ page_table (snd (allocate_page (tick 40) 1 2 FIFO m))
       = dict_del String.eqb (page_key (fr_pid old) (fr_page_num old))
                  (page_table m) ++ [(page_key 1 2, e)]
    /\ frame_num e = f /\ alloc_time e = last_used e
    /\ dict_get String.eqb (page_key (fr_pid old) (fr_page_num old))
                (page_table (snd (allocate_page (tick 40) 1 2 FIFO m))) = None
    /\ (forall k, k <> page_key (fr_pid old) (fr_page_num old) ->
                  k <> page_key 1 2 ->
                  dict_get String.eqb k
                    (page_table (snd (allocate_page (tick 40) 1 2 FIFO m)))
                  = dict_get String.eqb k (page_table m)).
Proof.
  intros m.
  apply (eviction_replaces_one_page 2 m (tick 40) 1 2 FIFO
           (snd (allocate_page (tick 40) 1 2 FIFO m))).
  - exists [(tick 10, CreateProcess 3);
            (tick 20, AccessPage 1 0 FIFO);
            (tick 30, AccessPage 1 1 FIFO)].
    reflexivity.
  - reflexivity.
  - reflexivity.
Defined.

(** ** Keys *)

(** X22: the key of a page can be read back: for a process identifier and
    a page number that are not negative, splitting the key at the dash and
    converting the two parts gives the identifier and the number again, and
    two pages have the same key only if they are the same page.  With a
    negative page number the second part is empty and does not convert. *)
Theorem page_key_round_trip p g :
  0 <= p ->
  let parts := split "-" (page_key p g) in
  py_int (drop_first (hd EmptyString parts)) = Some p
  /\ (0 <= g -> option_map py_int (nth_error parts 1) = Some (Some g))
  /\ (g < 0 -> option_map py_int (nth_error parts 1) = Some None)
  /\ (forall q k, 0 <= q -> page_key p g = page_key q k -> p = q /\ g = k).
Proof.
  intros Hp parts. unfold parts. split; [|split; [|split]].
  - destruct (Z_lt_le_dec g 0) as [Hg|Hg].
    + destruct (split_page_key_negative p g Hp Hg) as [d ->].
      cbn [hd drop_first append]. apply py_int_str.
    + rewrite (split_page_key p g Hp Hg).
      cbn [hd drop_first append]. apply py_int_str.
  - intros Hg. rewrite (split_page_key p g Hp Hg). cbn [nth_error option_map].
    now rewrite py_int_str.
  - intros Hg. destruct (split_page_key_negative p g Hp Hg) as [d ->].
    reflexivity.
  - intros q k Hq. now apply page_key_inj.
Qed.

Lemma page_key_round_trip_witness :
  py_int (drop_first (hd EmptyString (split "-" (page_key 12 3)))) = Some 12.
Proof.
  destruct (page_key_round_trip 12 3) as [H _].
  - lia.
  - exact H.
Defined.

(** X23: a fault that finds every frame taken and picks as victim a page
    with a negative number stops with [ValueError]: the fault has been
    counted, and nothing else has changed - the victim stays resident and
    the requested page is not loaded. *)
Theorem negative_victim_raises n m now p g alg pr f old :
  reachable n m ->
  dict_get Z.eqb p (processes m) = Some pr ->
  dict_get String.eqb (page_key p g) (page_table m) = None ->
  find_free_frame m = None ->
  (if is_fifo alg then find_victim_fifo m else find_victim_lru m) = Some f ->
  nth_error (memory m) f = Some (Some old) ->
  fr_page_num old < 0 ->
  allocate_page now p g alg m = (Raised ValueError, count_fault m).
Proof.
  intros Hr Hp He Hf Hv Hold Hneg.
  pose proof (reachable_consistent n m Hr) as C.
  destruct (allocate_page_replace now p g alg m pr f C Hp He Hf Hv)
    as [old' [Hold' [_ Hres]]].
  assert (old' = old) by congruence. subst old'.
  replace (fr_page_num old <? 0) with true in Hres
    by (symmetry; apply Z.ltb_lt; exact Hneg).
  exact Hres.
Qed.

Lemma negative_victim_raises_witness :
  let m := run [(tick 1, CreateProcess 2);
                (tick 20, AccessPage 1 (-1) LRU);
                (tick 30, AccessPage 1 0 LRU)] (init 2) in
  allocate_page (tick 40) 1 1 LRU m = (Raised ValueError, count_fault m).
Proof.
  intros m.
  apply (negative_victim_raises 2 m (tick 40) 1 1 LRU
           (fst (create_process (tick 1) 2 (init 2))) 0%nat
           (mkFrame 1 (-1) "hsl(137, 70%, 60%)")).
  - exists [(tick 1, CreateProcess 2);
            (tick 20, AccessPage 1 (-1) LRU);
            (tick 30, AccessPage 1 0 LRU)].
    reflexivity.
  - reflexivity.
  - reflexivity.
  - reflexivity.
  - reflexivity.
  - reflexivity.
  - reflexivity.
Defined.

(** ** Stamps *)

Lemma clock_ordered_snoc cs c :
  clock_ordered (cs ++ [c]) ->
  clock_ordered cs /\ Forall (fun x => before x c) cs.
Proof.
  induction cs as [|x cs IH]; simpl; [auto|].
  intros [H1 H2]. destruct (IH H2) as [I1 I2].
  apply Forall_app in H1. destruct H1 as [H1 H1'].
  repeat split; auto. constructor; auto. now inversion H1'.
Qed.

Lemma step_page_table n m c k e :
  reachable n m ->
  In (k, e) (page_table (step m c)) ->
  In (k, e) (page_table m)
  \/ (exists a, alloc_time e = fst c a /\ last_used e = fst c a)
  \/ (exists e0, In (k, e0) (page_table m)
                 /\ alloc_time e = alloc_time e0
                 /\ last_used e = fst c 0%nat).
Proof.
  intros Hr. pose proof (reachable_consistent n m Hr) as C.
  destruct c as [now [sz|p g alg|p|]]; unfold step; cbn [perform snd fst].
  - auto.
  - destruct (dict_get Z.eqb p (processes m)) as [pr|] eqn:Hp.
    2:{ unfold allocate_page, dict_mem. rewrite Hp. auto. }
    destruct (dict_get String.eqb (page_key p g) (page_table m)) as [e0|] eqn:He.
    { destruct (allocate_page_hit now p g alg m pr e0 Hp He)
        as [m1 [-> [_ [H2 _]]]]. cbn [snd]. rewrite H2. intros Hin.
      apply (dict_set_In _ Seqb_eq) in Hin. destruct Hin as [[= -> ->]|Hin]; auto.
      right. right. exists e0. split; [|auto].
      now apply (dict_get_In _ Seqb_eq). }
    destruct (find_free_frame m) as [f|] eqn:Hf.
    { destruct (allocate_page_free now p g alg m pr f Hp He Hf)
        as [m1 [mem' [-> [_ [_ [_ [H2 _]]]]]]]. cbn [snd]. rewrite H2.
      intros Hin. apply in_app_or in Hin. destruct Hin as [Hin|[[= <- <-]|[]]];
        auto.
      right. left. exists 0%nat. auto. }
    destruct (if is_fifo alg then find_victim_fifo m else find_victim_lru m)
      as [f|] eqn:Hv.
    2:{ rewrite (allocate_page_noframe now p g alg m pr Hp He Hf Hv). auto. }
    destruct (allocate_page_replace now p g alg m pr f C Hp He Hf Hv)
      as [old [_ [_ Hres]]].
    destruct (fr_page_num old <? 0); [rewrite Hres; auto|].
    destruct Hres as [m1 [mem' [-> [_ [_ [H2 _]]]]]]. cbn [snd]. rewrite H2.
    intros Hin. apply in_app_or in Hin. destruct Hin as [Hin|[[= <- <-]|[]]].
    + left. eapply dict_del_In; eauto.
    + right. left. exists 1%nat. auto.
  - destruct (dict_get Z.eqb p (processes m)) as [pr|] eqn:Hp.
    2:{ unfold remove_process, dict_mem. rewrite Hp. auto. }
    destruct (remove_process_fields now p m pr (c_queue m C) (c_keys m C) Hp)
      as [m1 [-> [_ [_ [H3 _]]]]]. cbn [snd]. rewrite H3.
    intros Hin. apply filter_In in Hin. tauto.
  - intros [].
Qed.

(** X24: when the clock never runs backwards from one call to the next,
    every entry of the page table has [last_used] at or after
    [alloc_time]. *)
Theorem stamps_are_ordered n cs :
  clock_ordered cs ->
  Forall (fun kv => alloc_time (snd kv) <= last_used (snd kv))
         (page_table (run cs (init n))).
Proof.
  intros Hc.
  assert (H : forall k e, In (k, e) (page_table (run cs (init n))) ->
                alloc_time e <= last_used e
                /\ exists c a, In c cs /\ alloc_time e = fst c a).
  { induction cs as [|c cs IH] using rev_ind; [intros k e []|].
    apply clock_ordered_snoc in Hc. destruct Hc as [Hc Hb].
    specialize (IH Hc). rewrite run_snoc. intros k e Hin.
    apply (step_page_table n) in Hin; [|now exists cs].
    destruct Hin as [Hin|[[a [Ha Hl]]|[e0 [Hin [Ha Hl]]]]].
    - destruct (IH k e Hin) as [H1 [c0 [a [H2 H3]]]]. split; [exact H1|].
      exists c0, a. split; [apply in_or_app; now left | exact H3].
    - split; [lia|]. exists c, a. split; [apply in_or_app; right; now left|].
      exact Ha.
    - destruct (IH k e0 Hin) as [_ [c0 [a [H2 H3]]]].
      rewrite Forall_forall in Hb. specialize (Hb c0 H2 a 0%nat).
      split; [lia|]. exists c0, a.
      split; [apply in_or_app; now left | congruence]. }
  apply Forall_forall. intros [k e] Hin. simpl. exact (proj1 (H k e Hin)).
Qed.

Lemma stamps_are_ordered_witness :
  Forall (fun kv => alloc_time (snd kv) <= last_used (snd kv))
         (page_table (run [(fun _ => 10, CreateProcess 2);
                           (fun _ => 20, AccessPage 1 0 LRU);
                           (fun _ => 30, AccessPage 1 0 LRU)] (init 2))).
Proof.
  apply (stamps_are_ordered 2
           [(fun _ => 10, CreateProcess 2);
            (fun _ => 20, AccessPage 1 0 LRU);
            (fun _ => 30, AccessPage 1 0 LRU)]).
  simpl. repeat split; repeat constructor; unfold before; simpl; intros; lia.
Defined.

(** ** Exceptions *)

(** X25: in a reachable state a call raises in one case only: an access
    that faults with every frame taken and whose victim has a negative
    page number; the exception is [ValueError] and only the fault counter
    has changed.  [create_process], [remove_process] and [reset] never
    raise. *)
Theorem raise_only_on_negative_victim n m c e :
  reachable n m ->
  fst (perform c m) = Raised e ->
  e = ValueError
  /\ exists now p g alg f old,
      c = (now, AccessPage p g alg)
      /\ find_free_frame m = None
      /\ (if is_fifo alg then find_victim_fifo m else find_victim_lru m) = Some f
      /\ nth_error (memory m) f = Some (Some old)
      /\ fr_page_num old < 0
      /\ snd (perform c m) = count_fault m.
Proof.
  intros Hr. pose proof (reachable_consistent n m Hr) as C.
  destruct c as [now [sz|p g alg|p|]]; cbn [perform fst snd]; try discriminate.
  - destruct (dict_get Z.eqb p (processes m)) as [pr|] eqn:Hp.
    2:{ unfold allocate_page, dict_mem. rewrite Hp. discriminate. }
    destruct (dict_get String.eqb (page_key p g) (page_table m)) as [e0|] eqn:He.
    { destruct (allocate_page_hit now p g alg m pr e0 Hp He) as [m1 [-> _]].
      discriminate. }
    destruct (find_free_frame m) as [f|] eqn:Hf.
    { destruct (allocate_page_free now p g alg m pr f Hp He Hf)
        as [m1 [mem' [-> _]]]. discriminate. }
    destruct (if is_fifo alg then find_victim_fifo m else find_victim_lru m)
      as [f|] eqn:Hv.
    2:{ rewrite (allocate_page_noframe now p g alg m pr Hp He Hf Hv).
        discriminate. }
    destruct (allocate_page_replace now p g alg m pr f C Hp He Hf Hv)
      as [old [Hold [_ Hres]]].
    destruct (fr_page_num old <? 0) eqn:Hneg.
    + rewrite Hres. cbn [fst snd]. intros [= <-]. split; [reflexivity|].
      exists now, p, g, alg, f, old. apply Z.ltb_lt in Hneg.
      repeat split; auto.
    + destruct Hres as [m1 [mem' [-> _]]]. discriminate.
  - unfold remove_process. destruct (negb _); [discriminate|].
    destruct (free_frames p (memory m) (allocation_queue m)). discriminate.
Qed.

Lemma raise_only_on_negative_victim_witness :
  let m := run [(tick 1, CreateProcess 2);
                (tick 20, AccessPage 1 (-1) LRU);
                (tick 30, AccessPage 1 0 LRU)] (init 2) in
  ValueError = ValueError
  /\ exists now p g alg f old,
      (tick 40, AccessPage 1 1 LRU) = (now, AccessPage p g alg)
      /\ find_free_frame m = None
      /\ (if is_fifo alg then find_victim_fifo m else find_victim_lru m) = Some f
      /\ nth_error (memory m) f = Some (Some old)
      /\ fr_page_num old < 0
      /\ snd (perform (tick 40, AccessPage 1 1 LRU) m) = count_fault m.
Proof.
  intros m.
  apply (raise_only_on_negative_victim 2 m (tick 40, AccessPage 1 1 LRU)).
  - exists [(tick 1, CreateProcess 2);
            (tick 20, AccessPage 1 (-1) LRU);
            (tick 30, AccessPage 1 0 LRU)].
    reflexivity.
  - reflexivity.
Defined.

(** ** A fault with a free frame *)

(** X26: a fault that finds a free frame loads the page into the
    lowest-numbered free frame and evicts nothing: that frame alone
    changes, the page table keeps every entry and gets the new one last,
    with both stamps equal, and under FIFO the frame joins the end of the
    queue. *)
Theorem fault_fills_lowest_free_frame now p g alg m pr f :
  dict_get Z.eqb p (processes m) = Some pr ->
  dict_get String.eqb (page_key p g) (page_table m) = None ->
  find_free_frame m = Some f ->
  let res := allocate_page now p g alg m in
  fst res = Returned ok_fault
  /\ (forall j, (j < f)%nat -> occupied_at (memory m) j = true)
  /\ (forall j, nth_error (memory (snd res)) j
                = if Nat.eqb j f
                  then Some (Some (mkFrame p g (color pr)))
                  else nth_error (memory m) j)
  /\ page_table (snd res)
     = page_table m ++ [(page_key p g, mkEntry f (now 0%nat) (now 0%nat))]
  /\ allocation_queue (snd res)
     = (if is_fifo alg then allocation_queue m ++ [f] else allocation_queue m).
Proof.
  intros Hp He Hf res.
  destruct (allocate_page_free now p g alg m pr f Hp He Hf)
    as [m1 [mem' [Ha [_ [Hs [H1 [H2 [H3 _]]]]]]]].
  unfold res. rewrite Ha. cbn [fst snd].
  split; [reflexivity|]. split; [|split; [|split]]; auto.
  - unfold find_free_frame in Hf. apply first_free_lowest in Hf.
    destruct Hf as [j [-> [_ Hlow]]]. exact Hlow.
  - rewrite H1. apply list_set_nth in Hs. tauto.
Qed.

Lemma fault_fills_lowest_free_frame_witness :
  let m := run [(tick 1, CreateProcess 3);
                (tick 20, AccessPage 1 0 FIFO)] (init 3) in
  page_table (snd (allocate_page (tick 30) 1 2 FIFO m))
  = page_table m ++ [(page_key 1 2, mkEntry 1 30 30)].
Proof.
  intros m.
  destruct (fault_fills_lowest_free_frame (tick 30) 1 2 FIFO m
              (fst (create_process (tick 1) 3 (init 3))) 1%nat)
    as [_ [_ [_ [H _]]]].
  - reflexivity.
  - reflexivity.
  - reflexivity.
  - exact H.
Defined.

(** ** The queue without FIFO, and the number of resident pages *)

(** X27: when no access uses the FIFO policy, the queue stays empty. *)
Theorem queue_unused_without_fifo n cs :
  Forall lru_call cs -> allocation_queue (run cs (init n)) = [].
Proof.
  induction cs as [|c cs IH] using rev_ind; intros H; [reflexivity|].
  apply Forall_app in H. destruct H as [H1 H2]. inversion H2; subst.
  specialize (IH H1). rewrite run_snoc. set (m := run cs (init n)) in *.
  assert (Hr : reachable n m) by now exists cs.
  pose proof (reachable_consistent n m Hr) as C.
  destruct c as [now [sz|p g alg|p|]]; unfold step; cbn [perform snd];
    try exact IH; [| |reflexivity].
  - match goal with Hc : lru_call _ |- _ =>
      unfold lru_call in Hc; cbn [snd] in Hc; rename Hc into Halg end.
    destruct (dict_get Z.eqb p (processes m)) as [pr|] eqn:Hp.
    2:{ unfold allocate_page, dict_mem. rewrite Hp. exact IH. }
    destruct (dict_get String.eqb (page_key p g) (page_table m)) as [e|] eqn:He.
    { destruct (allocate_page_hit now p g alg m pr e Hp He)
        as [m1 [-> [_ [_ [H3 _]]]]]. cbn [snd]. now rewrite H3. }
    destruct (find_free_frame m) as [f|] eqn:Hf.
    { destruct (allocate_page_free now p g alg m pr f Hp He Hf)
        as [m1 [mem' [-> [_ [_ [_ [_ [H3 _]]]]]]]]. cbn [snd].
      now rewrite H3, Halg. }
    destruct (if is_fifo alg then find_victim_fifo m else find_victim_lru m)
      as [f|] eqn:Hv.
    2:{ rewrite (allocate_page_noframe now p g alg m pr Hp He Hf Hv).
        exact IH. }
    destruct (allocate_page_replace now p g alg m pr f C Hp He Hf Hv)
      as [old [_ [_ Hres]]].
    destruct (fr_page_num old <? 0); [rewrite Hres; exact IH|].
    destruct Hres as [m1 [mem' [-> [_ [_ [_ [H3 _]]]]]]]. cbn [snd].
    now rewrite H3, Halg.
  - destruct (dict_get Z.eqb p (processes m)) as [pr|] eqn:Hp.
    2:{ unfold remove_process, dict_mem. rewrite Hp. exact IH. }
    destruct (remove_process_fields now p m pr (c_queue m C) (c_keys m C) Hp)
      as [m1 [-> [_ [H2' _]]]]. cbn [snd]. now rewrite H2', IH.
Qed.

Lemma queue_unused_without_fifo_witness :
  allocation_queue (run [(tick 1, CreateProcess 3);
                         (tick 20, AccessPage 1 0 LRU);
                         (tick 30, AccessPage 1 1 LRU);
                         (tick 40, AccessPage 1 2 LRU)] (init 2)) = [].
Proof.
  apply (queue_unused_without_fifo 2
           [(tick 1, CreateProcess 3);
            (tick 20, AccessPage 1 0 LRU);
            (tick 30, AccessPage 1 1 LRU);
            (tick 40, AccessPage 1 2 LRU)]).
  repeat constructor.
Defined.

(** X28: there are never more resident pages than frames: in every
    reachable state of a manager with [n] frames the page table has at
    most [n] entries, with distinct keys. *)
Theorem resident_pages_bounded n m :
  reachable n m ->
  (length (page_table m) <= n)%nat /\ NoDup (map fst (page_table m)).
Proof.
  intros Hr. pose proof (reachable_consistent n m Hr) as C.
  split; [|exact (c_keys m C)].
  rewrite <- (consistent_count m C), <- (reachable_length n m Hr).
  unfold count_occupied. apply filter_length_le.
Qed.

Lemma resident_pages_bounded_witness :
  let m := run [(tick 1, CreateProcess 3);
                (tick 20, AccessPage 1 0 LRU);
                (tick 30, AccessPage 1 1 FIFO);
                (tick 40, AccessPage 1 2 LRU)] (init 2) in
  (length (page_table m) <= 2)%nat /\ NoDup (map fst (page_table m)).
Proof.
  intros m. apply (resident_pages_bounded 2 m).
  exists [(tick 1, CreateProcess 3);
          (tick 20, AccessPage 1 0 LRU);
          (tick 30, AccessPage 1 1 FIFO);
          (tick 40, AccessPage 1 2 LRU)].
  reflexivity.
Defined.
